(** * Webpage video recorder: process registry, display allocation,
      playback retry, job lifecycle and batch runs.

    A shallow embedding of the JavaScript sources
    (lib/cleanup.js, lib/display.js, lib/audio.js, lib/recorder.js,
    lib/browser.js, record.js) and the properties of the design document
    that can be decided on them.

    Conventions.
    - External collaborators (Xvfb, PulseAudio, ffmpeg, Chromium, the OS)
      are not executed: what they answer is an explicit oracle argument.
    - `await` points are the only places where another task can run, so
      the code between two awaits is one atomic step of a step function.
    - Objects that are shared by reference (child-process handles) live in
      a heap indexed by handle; the registry maps names to handles. *)

From Stdlib Require Import QArith Qround Qabs Qpower Lqa Ascii DecimalString DecimalFacts DecimalN.
From stdpp Require Import gmap strings list fin_maps pretty.

Local Close Scope Q_scope.
Local Open Scope nat_scope.

(* ===================================================================== *)
(** * lib/cleanup.js : the process registry                              *)
(* ===================================================================== *)

Module Cleanup.

Inductive Signal := SIGTERM | SIGINT | SIGKILL.

#[global] Instance Signal_eq_dec : EqDecision Signal.
Proof. solve_decision. Defined.

(** Listeners installed with [process.on('exit', ...)].  The only listener
    that touches the registry is the one of [execTracked]
    ("Auto-untrack when process exits"). *)
Inductive Listener := AutoUntrack (name : string).

(** A Node [ChildProcess].  [pid] is [undefined] when the spawn failed.
    [killed] is Node's flag ("indicates whether the child process
    successfully received a signal from subprocess.kill(); the killed
    property does not indicate that the child process has been
    terminated"): it becomes true as soon as [kill()] has delivered a
    signal.
    [exited] is true once the OS process is gone (Node then drops the
    handle and [kill()] returns false). *)
Record ChildProcess := mkProc {
  pid : option nat;
  killed : bool;
  exited : bool;
  exitListeners : list Listener
}.

Definition set_killed (p : ChildProcess) : ChildProcess :=
  mkProc (pid p) true (exited p) (exitListeners p).

Definition set_exited (p : ChildProcess) : ChildProcess :=
  mkProc (pid p) (killed p) true (exitListeners p).

Definition add_listener (l : Listener) (p : ChildProcess) : ChildProcess :=
  mkProc (pid p) (killed p) (exited p) (exitListeners p ++ [l]).

(** [!process || !process.pid] : a pid of 0 is falsy as well. *)
Definition has_pid (p : ChildProcess) : bool :=
  match pid p with
  | Some (S _) => true
  | _ => false
  end.

(** Node's [ChildProcess.prototype.kill]: with a live handle the signal is
    delivered, [killed] is set and the call returns true; once the process
    has exited nothing is sent and the call returns false. *)
Definition node_kill (p : ChildProcess) : ChildProcess * bool :=
  if exited p then (p, false) else (set_killed p, true).

Inductive Event :=
  | EvStart
  | EvSkip
  | EvHandler (h : nat)
  | EvKill (name : string)
  | EvClear.

#[global] Instance Event_eq_dec : EqDecision Event.
Proof. solve_decision. Defined.

(** The singleton [cleanupManager] together with the heap of process
    objects its entries point to.  Cleanup handlers are closures; they are
    named by a number and their call is recorded in [log]. *)
Record Sys := mkSys {
  heap : gmap nat ChildProcess;
  processes : gmap string nat;
  cleanupHandlers : list nat;
  isCleaningUp : bool;
  log : list Event
}.

Definition with_heap (f : gmap nat ChildProcess → gmap nat ChildProcess) (s : Sys) : Sys :=
  mkSys (f (heap s)) (processes s) (cleanupHandlers s) (isCleaningUp s) (log s).

Definition with_processes (f : gmap string nat → gmap string nat) (s : Sys) : Sys :=
  mkSys (heap s) (f (processes s)) (cleanupHandlers s) (isCleaningUp s) (log s).

Definition with_handlers (f : list nat → list nat) (s : Sys) : Sys :=
  mkSys (heap s) (processes s) (f (cleanupHandlers s)) (isCleaningUp s) (log s).

Definition with_flag (b : bool) (s : Sys) : Sys :=
  mkSys (heap s) (processes s) (cleanupHandlers s) b (log s).

Definition emit (es : list Event) (s : Sys) : Sys :=
  mkSys (heap s) (processes s) (cleanupHandlers s) (isCleaningUp s) (log s ++ es).

Definition new_manager : Sys := mkSys ∅ ∅ [] false [].

(** [trackProcess(name, process)]: warns and returns when the handle is
    missing or has no pid, otherwise [this.processes.set(name, process)]. *)
Definition trackProcess (name : string) (h : option nat) (s : Sys) : Sys :=
  match h with
  | None => s
  | Some a =>
      match heap s !! a with
      | Some p => if has_pid p then with_processes (<[name := a]>) s else s
      | None => s
      end
  end.

(** [untrackProcess(name)]. *)
Definition untrackProcess (name : string) (s : Sys) : Sys :=
  match processes s !! name with
  | Some _ => with_processes (delete name) s
  | None => s
  end.

(** [registerCleanupHandler(handler)]. *)
Definition registerCleanupHandler (h : nat) (s : Sys) : Sys :=
  with_handlers (λ hs, hs ++ [h]) s.

Definition run_listener (s : Sys) (l : Listener) : Sys :=
  match l with
  | AutoUntrack name => untrackProcess name s
  end.

(** The OS process behind handle [a] ends on its own: Node marks the
    handle and calls the 'exit' listeners registered on that object. *)
Definition process_exit (a : nat) (s : Sys) : Sys :=
  match heap s !! a with
  | Some p =>
      if exited p then s
      else foldl run_listener (with_heap (<[a := set_exited p]>) s) (exitListeners p)
  | None => s
  end.

(** Number of registry entries whose process is still running. *)
Definition is_live (s : Sys) (a : nat) : bool :=
  match heap s !! a with
  | Some p => negb (exited p)
  | None => false
  end.

Definition live_tracked (s : Sys) : nat :=
  length (filter (λ kv, is_live s kv.2 = true) (map_to_list (processes s))).

(** ** [execTracked]

    A [const] binding is in its temporal dead zone while its initialiser
    runs; reading it there throws a ReferenceError. *)
Inductive Binding (A : Type) :=
  | Uninitialised
  | Initialised (a : A).
Arguments Uninitialised {A}.
Arguments Initialised {A} a.

Inductive JsError := ReferenceError (what : string).

Definition read_binding {A} (name : string) (b : Binding A) : JsError + A :=
  match b with
  | Uninitialised => inl (ReferenceError name)
  | Initialised a => inr a
  end.

(** [execTracked(name, command, args, options)].  The body starts with
    [const process = spawn(command, args, { ..., env: { ...process.env, ... } })]:
    the [process] read inside the initialiser is the local binding being
    declared, not the Node global.  [spawned] is the handle the spawn
    would return. *)
Definition execTracked (name : string) (spawned : nat) (s : Sys) : (JsError + nat) * Sys :=
  let process : Binding nat := Uninitialised in
  match read_binding "process" process with
  | inl e => (inl e, s)
  | inr _ =>
      let s1 := trackProcess name (Some spawned) s in
      let s2 := with_heap (alter (add_listener (AutoUntrack name)) spawned) s1 in
      (inr spawned, s2)
  end.

(** ** [killProcess] and the timers around it

    [react sig] is what the OS process does with a delivered signal: exit
    after that many milliseconds, or never.  [signals_sent]: the signals
    passed to [kill()], in order; [resolved_at]: when the returned
    promise resolves, if it does; [alive_after]: whether the process is
    still running then. *)
Record KillResult := mkKill {
  signals_sent : list Signal;
  resolved_at : option N;
  alive_after : bool
}.

Definition exit_time (delivered : bool) (react : Signal → option N) (sig : Signal) : option N :=
  if delivered then react sig else None.

Definition exits_before (t : option N) (deadline : N) : bool :=
  match t with
  | Some d => (d <? deadline)%N
  | None => false
  end.

(** [killProcess(name, process, signal)]: the promise resolves from the
    'exit' listener, from the 5000 ms timer, or from the catch. *)
Definition killProcess (p : option ChildProcess) (signal : Signal)
    (react : Signal → option N) : KillResult :=
  match p with
  | None => mkKill [] (Some 0%N) false
  | Some p0 =>
      if negb (has_pid p0) then mkKill [] (Some 0%N) (negb (exited p0))
      else
        let '(p1, delivered) := node_kill p0 in
        let t := exit_time delivered react signal in
        if exits_before t 5000%N then mkKill [signal] t false
        else if negb (killed p1) (* process.killed === false *)
        then
          let '(_, forced) := node_kill p1 in
          mkKill [signal; SIGKILL] (Some 5000%N) (negb (exited p1) && negb forced)
        else mkKill [signal] (Some 5000%N) (negb (exited p1))
  end.

(** [stopRecording(ffmpegProcess, gracePeriod)] of lib/recorder.js: the
    'exit' listener resolves; the timer sends SIGKILL and resolves only
    under [!resolved && ffmpegProcess.killed === false]. *)
Definition stopRecording (p : option ChildProcess) (gracePeriod : N)
    (react : Signal → option N) : KillResult :=
  match p with
  | None => mkKill [] (Some 0%N) false
  | Some p0 =>
      if negb (has_pid p0) then mkKill [] (Some 0%N) (negb (exited p0))
      else
        let '(p1, delivered) := node_kill p0 in
        let t := exit_time delivered react SIGINT in
        if exits_before t gracePeriod then mkKill [SIGINT] t false
        else if negb (killed p1)
        then
          let '(_, forced) := node_kill p1 in
          mkKill [SIGINT; SIGKILL] (Some gracePeriod) (negb (exited p1) && negb forced)
        else mkKill [SIGINT] t (bool_decide (t = None))
  end.

(** The process part of [stopDisplay(displayInfo)] of lib/display.js: the
    5000 ms timer sends SIGKILL without looking at [killed]. *)
Definition stopDisplay_kill (p : option ChildProcess)
    (react : Signal → option N) : KillResult :=
  match p with
  | None => mkKill [] (Some 0%N) false
  | Some p0 =>
      match pid p0 with
      | None | Some 0 => mkKill [] (Some 0%N) (negb (exited p0))
      | Some _ =>
          let '(p1, delivered) := node_kill p0 in
          let t := exit_time delivered react SIGTERM in
          if exits_before t 5000%N then mkKill [SIGTERM] t false
          else
            let '(_, forced) := node_kill p1 in
            mkKill [SIGTERM; SIGKILL] (Some 5000%N) (negb (exited p1) && negb forced)
      end
  end.

(** A process that does not end on SIGTERM or SIGINT and ends at once on
    SIGKILL. *)
Definition stubborn (sig : Signal) : option N :=
  match sig with
  | SIGKILL => Some 0%N
  | _ => None
  end.

Definition running (n : nat) : ChildProcess := mkProc (Some n) false false [].

(** ** [cleanupAll]

    An invocation is a task with a program counter.  The guard test and
    the assignment [this.isCleaningUp = true] are in one synchronous
    block, which is one step; every [await] ends a step.  (The call of a
    handler is a step of its own here, also where the source runs it in
    the block before: that allows more interleavings, not fewer.)  A
    handler that throws is caught and logged, and the loop goes on. *)
Inductive Pc :=
  | PcEntry
  | PcHandlers (i : nat)
  | PcKill
  | PcClear
  | PcReturned (ran : bool).

#[global] Instance Pc_eq_dec : EqDecision Pc.
Proof. solve_decision. Defined.

Definition kill_tracked (s : Sys) : Sys :=
  let names := (map_to_list (processes s)).*1 in
  let targets := (map_to_list (processes s)).*2 in
  emit (EvKill <$> names)
    (with_heap (λ hp, foldr (λ a hp, alter (λ p, (node_kill p).1) a hp) hp targets) s).

Definition cleanupAll_step (pc : Pc) (s : Sys) : Pc * Sys :=
  match pc with
  | PcEntry =>
      if isCleaningUp s then (PcReturned false, emit [EvSkip] s)
      else (PcHandlers 0, emit [EvStart] (with_flag true s))
  | PcHandlers i =>
      match cleanupHandlers s !! i with
      | Some h => (PcHandlers (S i), emit [EvHandler h] s)
      | None => (PcKill, s)
      end
  | PcKill => (PcClear, kill_tracked s)
  | PcClear => (PcReturned true, emit [EvClear] (with_processes (λ _, ∅) s))
  | PcReturned b => (PcReturned b, s)
  end.

(** Several invocations in flight (signal handlers, [withCleanup]): the
    scheduler picks which task continues. *)
Record Config := mkConfig {
  sys : Sys;
  tasks : list Pc
}.

Definition sched_step (c : Config) (i : nat) : Config :=
  match tasks c !! i with
  | Some pc =>
      let '(pc', s') := cleanupAll_step pc (sys c) in
      mkConfig s' (<[i := pc']> (tasks c))
  | None => c
  end.

Definition run (c : Config) (schedule : list nat) : Config :=
  foldl sched_step c schedule.

Definition invoke_n (s : Sys) (n : nat) : Config :=
  mkConfig s (replicate n PcEntry).



(** The complete pass over the registry [s]: custom handlers first, then
    a kill for every tracked process, then the clearing of the registry. *)
Definition full_pass (s : Sys) : list Event :=
  [EvStart] ++ (EvHandler <$> cleanupHandlers s)
            ++ (EvKill <$> (map_to_list (processes s)).*1)
            ++ [EvClear].




(** Own steps a task at [pc] needs at most before it has returned, when
    [len] handlers are registered. *)
Definition fuel (len : nat) (pc : Pc) : nat :=
  match pc with
  | PcEntry => len + 4
  | PcHandlers k => (len - k) + 3
  | PcKill => 2
  | PcClear => 1
  | PcReturned _ => 0
  end.

(** The statement "a tracked process that ends on its own is gone from the
    registry", for the entry [name] pointing to handle [a]. *)
Definition auto_removed (name : string) (a : nat) (s : Sys) : Prop :=
  let s' := process_exit a (trackProcess name (Some a) s) in
  processes s' !! name = None ∧ size (processes s') = live_tracked s'.

Definition listener_names (ls : list Listener) : list string :=
  (λ l, match l with AutoUntrack n => n end) <$> ls.


(** ** [withCleanup]

    [await this.cleanupAll(...)] with no other invocation in flight: the
    task takes all its steps, one after the other. *)
Definition cleanupAll_alone (s : Sys) : Sys :=
  sys (run (invoke_n s 1) (replicate (fuel (length (cleanupHandlers s)) PcEntry) 0)).

(** [withCleanup(fn)]:
    [try { return await fn(this); } finally { await this.cleanupAll('withCleanup'); }].
    [fn] returns a value or throws, and has used the registry meanwhile. *)
Definition withCleanup {E A : Type} (fn : Sys → (E + A) * Sys) (s : Sys) : (E + A) * Sys :=
  let '(r, s1) := fn s in (r, cleanupAll_alone s1).

End Cleanup.

(* ===================================================================== *)
(** * lib/display.js : virtual displays                                  *)
(* ===================================================================== *)

Module Display.

(** The errors of startDisplay and findAvailableDisplay.  (The first
    await of startDisplay, the check that Xvfb is installed, is taken to
    pass: it fails before any number is probed.) *)
Inductive Error :=
  | DisplayTaken (n : Z)
  | NoDisplayAvailable (maxAttempts : nat)
  | XvfbExited
  | StartupTimeout.

(** [isDisplayInUse(displayNumber)]: xdpyinfo answers when some X server,
    whoever started it, serves the display. *)
Definition isDisplayInUse (servers : gset Z) (displayNumber : Z) : bool :=
  bool_decide (displayNumber ∈ servers).




(** ** Several jobs starting displays

    Each probe is an [await]; so are the spawn of Xvfb reaching its
    socket and every tick of the readiness poll.  Between them other jobs
    and the Xvfb processes run. *)
Inductive Phase :=
  | Called (displayNumber : Z)
  | Finding (startDisplay : Z) (i : nat)
  | Spawned (n : Z)
  | Ready (n : Z)
  | Failed (e : Error)
  | Stopped.

(** The Xvfb process a job spawned. *)
Inductive Xvfb :=
  | NotSpawned
  | Starting (n : Z)
  | Serving (n : Z)
  | Gone.

Record Job := mkJob {
  phase : Phase;
  xvfb : Xvfb;
  autoRetry : bool
}.

(** [servers]: the displays an X server answers on.  [env_DISPLAY]:
    [process.env.DISPLAY] of the recorder process, shared by all jobs. *)
Record World := mkWorld {
  servers : gset Z;
  env_DISPLAY : option Z;
  jobs : list Job
}.

Inductive Action :=
  | Probe (j : nat)
  | Bind (j : nat)
  | Poll (j : nat)
  | Timeout (j : nat)
  | Stop (j : nat).

Definition set_job (j : nat) (job : Job) (w : World) : World :=
  mkWorld (servers w) (env_DISPLAY w) (<[j := job]> (jobs w)).

Definition spawn_xvfb (n : Z) (job : Job) : Job :=
  mkJob (Spawned n) (Starting n) (autoRetry job).

(** One probe and the synchronous code after it ([Finding s i]: the probe
    of iteration [i] of findAvailableDisplay(s) is awaited). *)
Definition probe (servers : gset Z) (job : Job) : Job :=
  match phase job with
  | Called d =>
      if isDisplayInUse servers d then
        if autoRetry job then mkJob (Finding (d + 1) 0) (xvfb job) (autoRetry job)
        else mkJob (Failed (DisplayTaken d)) (xvfb job) (autoRetry job)
      else spawn_xvfb d job
  | Finding s i =>
      let displayNum := (s + Z.of_nat i)%Z in
      if isDisplayInUse servers displayNum then
        if S i <? 10 then mkJob (Finding s (S i)) (xvfb job) (autoRetry job)
        else mkJob (Failed (NoDisplayAvailable 10)) (xvfb job) (autoRetry job)
      else spawn_xvfb displayNum job
  | _ => job
  end.



(** The process behind [killed]: a serving Xvfb frees its display. *)
Definition kill_xvfb (servers : gset Z) (x : Xvfb) : gset Z * Xvfb :=
  match x with
  | NotSpawned => (servers, NotSpawned)
  | Starting _ => (servers, Gone)
  | Serving n => (servers ∖ {[n]}, Gone)
  | Gone => (servers, Gone)
  end.

Definition step (w : World) (a : Action) : World :=
  match a with
  | Probe j =>
      match jobs w !! j with
      | Some job => set_job j (probe (servers w) job) w
      | None => w
      end
  | Bind j =>
      (* the spawned Xvfb reaches its socket: it serves the display, or
         finds it taken and exits with a non-zero code, which rejects the
         promise of startDisplay unless that is settled already *)
      match jobs w !! j with
      | Some job =>
          match xvfb job with
          | Starting n =>
              if isDisplayInUse (servers w) n then
                let ph := match phase job with
                          | Spawned _ => Failed XvfbExited
                          | ph => ph
                          end in
                set_job j (mkJob ph Gone (autoRetry job)) w
              else
                mkWorld ({[n]} ∪ servers w) (env_DISPLAY w)
                        (<[j := mkJob (phase job) (Serving n) (autoRetry job)]> (jobs w))
          | _ => w
          end
      | None => w
      end
  | Poll j =>
      (* a tick of readyCheckInterval *)
      match jobs w !! j with
      | Some job =>
          match phase job with
          | Spawned n =>
              if isDisplayInUse (servers w) n then
                mkWorld (servers w) (Some n)
                        (<[j := mkJob (Ready n) (xvfb job) (autoRetry job)]> (jobs w))
              else w
          | _ => w
          end
      | None => w
      end
  | Timeout j =>
      match jobs w !! j with
      | Some job =>
          match phase job with
          | Spawned n =>
              let '(sv, x) := kill_xvfb (servers w) (xvfb job) in
              mkWorld sv (env_DISPLAY w)
                      (<[j := mkJob (Failed StartupTimeout) x (autoRetry job)]> (jobs w))
          | _ => w
          end
      | None => w
      end
  | Stop j =>
      (* stopDisplay(displayInfo) *)
      match jobs w !! j with
      | Some job =>
          match phase job with
          | Ready n =>
              let '(sv, x) := kill_xvfb (servers w) (xvfb job) in
              mkWorld sv (env_DISPLAY w)
                      (<[j := mkJob Stopped x (autoRetry job)]> (jobs w))
          | _ => w
          end
      | None => w
      end
  end.

Definition run (w : World) (schedule : list Action) : World :=
  foldl step w schedule.

(** Job [j] has a [displayInfo] with display number [n]. *)
Definition holds (w : World) (j : nat) (n : Z) : Prop :=
  ∃ job, jobs w !! j = Some job ∧ phase job = Ready n.











End Display.

(* ===================================================================== *)
(** * lib/audio.js : sinks                                                *)
(* ===================================================================== *)

Module Audio.

(** PulseAudio: the loaded null sinks with their owner module, and the
    default sink. *)
Record Pulse := mkPulse {
  sinks : gmap string nat;
  next_module : nat;
  default_sink : option string
}.

Record AudioInfo := mkAudio {
  sinkName : string;
  monitorName : string
}.

(** [removeVirtualSink(sinkName)]: unloads the owner module when the sink
    is listed; never throws. *)
Definition removeVirtualSink (name : string) (p : Pulse) : Pulse :=
  mkPulse (delete name (sinks p)) (next_module p)
          (default_sink p).

(** [createVirtualSink(sinkName)]: an existing sink of that name is
    removed first, whoever created it. *)
Definition createVirtualSink (name : string) (p : Pulse) : AudioInfo * Pulse :=
  let p1 := match sinks p !! name with
            | Some _ => removeVirtualSink name p
            | None => p
            end in
  (mkAudio name (name +:+ ".monitor"),
   mkPulse (<[name := next_module p1]> (sinks p1)) (S (next_module p1)) (default_sink p1)).

(** [setupAudioRecording(sinkName)]. *)
Definition setupAudioRecording (name : string) (p : Pulse) : AudioInfo * Pulse :=
  let '(info, p1) := createVirtualSink name p in
  (mkAudio (sinkName info) (monitorName info),
   mkPulse (sinks p1) (next_module p1) (Some (sinkName info))).


End Audio.

(* ===================================================================== *)
(** * JavaScript numbers                                                  *)
(* ===================================================================== *)

Module Js.

(** A JavaScript number as far as the recorder looks at it: NaN, the two
    infinities, or a finite value.  Finite doubles are rationals, and
    [>], [Math.ceil] and truthiness are exact on them; the result of an
    addition is rounded to the nearest double.  (The sign of zero is not
    kept: nothing here looks at it.) *)
Inductive number :=
  | NaN
  | PosInf
  | NegInf
  | Fin (q : Q).

(** ** Rounding to binary64

    [Qlog2 q], for [0 < q]: the exponent [k] with [2^k <= q < 2^(k+1)]. *)
Definition Qlog2 (q : Q) : Z :=
  let k := (Z.log2 (Qnum q) - Z.log2 (Z.pos (Qden q)))%Z in
  if Qle_bool (2 ^ k) q then k else (k - 1)%Z.

(** The nearest integer, a tie going to the even one. *)
Definition round_half_even (q : Q) : Z :=
  let f := Qfloor q in
  match Qcompare (q - inject_Z f) (1 # 2) with
  | Lt => f
  | Gt => (f + 1)%Z
  | Eq => if Z.even f then f else (f + 1)%Z
  end.

(** The double nearest to the real number [q] (round to nearest, ties to
    even): 53 significant bits, the last of them worth [2^e] with [e]
    not below -1074; from [2^1024] on the result is an infinity. *)
Definition to_double (q : Q) : number :=
  let r := Qred q in
  if Qeq_bool r 0 then Fin 0 else
  let e := Z.max (Qlog2 (Qabs r) - 52) (-1074) in
  let v := Qred (inject_Z (round_half_even (r / 2 ^ e)) * 2 ^ e) in
  if Qle_bool (2 ^ 1024) (Qabs v) then (if Qle_bool 0 r then PosInf else NegInf) else Fin v.

Definition Qpos_bool (q : Q) : bool := negb (Qle_bool q 0).

(** Truthiness: [0] and [NaN] are falsy. *)
Definition truthy (x : number) : bool :=
  match x with
  | NaN => false
  | PosInf | NegInf => true
  | Fin q => negb (Qeq_bool q 0)
  end.

(** [undefined] is falsy. *)
Definition truthy_opt (x : option number) : bool :=
  match x with
  | Some v => truthy v
  | None => false
  end.

(** [x > 0]. *)
Definition gt0 (x : number) : bool :=
  match x with
  | NaN | NegInf => false
  | PosInf => true
  | Fin q => Qpos_bool q
  end.

Definition isFinite (x : number) : bool :=
  match x with
  | Fin _ => true
  | _ => false
  end.

(** [Math.ceil]. *)
Definition ceil (x : number) : number :=
  match x with
  | Fin q => Fin (inject_Z (Qceiling q))
  | other => other
  end.

(** [x + y]: the exact sum of two doubles, rounded. *)
Definition add (x y : number) : number :=
  match x, y with
  | NaN, _ | _, NaN => NaN
  | PosInf, NegInf | NegInf, PosInf => NaN
  | PosInf, _ | _, PosInf => PosInf
  | NegInf, _ | _, NegInf => NegInf
  | Fin a, Fin b => to_double (a + b)
  end.

(** Iterations of [for (let i = 1; i <= t; i++)]; none when the loop
    does not end.  [i] counts exactly up to 2^53 and stays there, since
    2^53 + 1 rounds to 2^53: from [t = 2^53] on the loop does not end. *)
Definition loop_count (t : number) : option nat :=
  match t with
  | NaN | NegInf => Some 0
  | PosInf => None
  | Fin q => if Qle_bool (2 ^ 53) q then None else Some (Z.to_nat (Qfloor q))
  end.

End Js.

(* ===================================================================== *)
(** * Duration of the capture                                             *)
(* ===================================================================== *)

Module Duration.

Inductive Error :=
  | DurationRequired      (* 'Either --duration must be provided or ...' *)
  | AutoDetectFailed.     (* 'Failed to auto-detect video duration. ...' *)

(** The test of recordUrl on [videoMetadata.duration]:
    [d && d > 0 && isFinite(d)]. *)
Definition usable (d : Js.number) : bool :=
  Js.truthy d && Js.gt0 d && Js.isFinite d.

(** The guard [if (!duration && !autoDetectDuration)] at the top of
    recordUrl (and of main and runSingle). *)
Definition validate (autoDetectDuration : bool) (duration : option Js.number) : bool :=
  negb (negb (Js.truthy_opt duration) && negb autoDetectDuration).

(** [actualDuration] of recordUrl, computed in the try block; [duration]
    is the value of --duration, [None] for undefined. *)
Definition actualDuration (autoDetectDuration : bool) (detected : Js.number)
    (duration : option Js.number) : Error + option Js.number :=
  if autoDetectDuration then
    if usable detected then inr (Some (Js.ceil detected))
    else if Js.truthy_opt duration then inr duration
    else inl AutoDetectFailed
  else inr duration.

(** The guard and the computation together: what recordUrl settles on. *)
Definition resolve (autoDetectDuration : bool) (detected : Js.number)
    (duration : option Js.number) : Error + Js.number :=
  if validate autoDetectDuration duration then
    match actualDuration autoDetectDuration detected duration with
    | inl e => inl e
    | inr (Some x) => inr x
    | inr None => inl DurationRequired
    end
  else inl DurationRequired.

(** The same computation in main of the single-URL record.js:
    [autoDetectedDuration] is [metadata.duration] when truthy and [null]
    otherwise, and the test is [autoDetectedDuration && autoDetectedDuration > 0]. *)
Definition actualDuration_main (autoDetectDuration : bool) (detected : Js.number)
    (duration : option Js.number) : Error + option Js.number :=
  if autoDetectDuration then
    let autoDetectedDuration := if Js.truthy detected then Some detected else None in
    if Js.truthy_opt autoDetectedDuration && Js.gt0 detected
    then inr (Some (Js.ceil detected))
    else if Js.truthy_opt duration then inr duration
    else inl AutoDetectFailed
  else inr duration.

(** The statement "with auto-detection on and no usable detected
    duration, a provided fallback [m] is the effective duration". *)
Definition fallback_used (detected m : Js.number) : Prop :=
  usable detected = false → resolve true detected (Some m) = inr m.

End Duration.

(* ===================================================================== *)
(** * lib/browser.js : playVideo                                          *)
(* ===================================================================== *)

Module Browser.

(** What the verification reads from the media element. *)
Record Video := mkVideo {
  paused : bool;
  ended : bool;
  readyState : nat
}.

(** [video && !video.paused && !video.ended && video.readyState > 2]. *)
Definition isPlaying (v : option Video) : bool :=
  match v with
  | Some v => negb (paused v) && negb (ended v) && (2 <? readyState v)
  | None => false
  end.

Inductive PlayResult :=
  | PlayThrew            (* page.evaluate rejected *)
  | PlayRefused          (* { success: false, error } *)
  | PlayStarted.         (* { success: true } *)

(** What one attempt meets: whether [page.click] resolves, what the
    [play()] evaluation answers, and what the verification reads
    ([None]: the evaluation rejected). *)
Record Attempt := mkAttempt {
  click_ok : bool;
  play : PlayResult;
  verify : option (option Video)
}.

Record Options := mkOptions {
  clickToPlay : bool;
  waitForPlay : bool;
  maxAttempts : nat
}.

Definition defaults : Options := mkOptions true true 3.

Inductive Event :=
  | Attempted (attempt : nat)
  | Click
  | Sleep (ms : N)
  | Play
  | Verify.

#[global] Instance Event_eq_dec : EqDecision Event.
Proof. solve_decision. Defined.

Inductive Error :=
  | FailedToPlay (maxAttempts : nat)      (* 'Failed to play video after n attempts: ...' *)
  | CouldNotStart (maxAttempts : nat).    (* 'Could not start video playback after n attempts' *)

Inductive Body :=
  | Returned             (* return: the video is playing *)
  | FellThrough          (* reached the end of the try block *)
  | Threw.               (* an await rejected: the catch block runs *)

(** The try block of one iteration. *)
Definition attempt_body (opts : Options) (a : Attempt) : Body * list Event :=
  let '(clicked, ev_click) :=
    if clickToPlay opts then
      if click_ok a then (true, [Click; Sleep 500]) else (false, [Click])
    else (true, []) in
  if negb clicked then (Threw, ev_click)
  else
    match play a with
    | PlayThrew => (Threw, ev_click ++ [Play])
    | PlayRefused => (FellThrough, ev_click ++ [Play])
    | PlayStarted =>
        if waitForPlay opts then
          match verify a with
          | None => (Threw, ev_click ++ [Play; Sleep 1000; Verify])
          | Some v =>
              if isPlaying v then (Returned, ev_click ++ [Play; Sleep 1000; Verify])
              else (FellThrough, ev_click ++ [Play; Sleep 1000; Verify])
          end
        else (Returned, ev_click ++ [Play])
    end.

(** The loop [for (attempt = ...; attempt <= maxAttempts; attempt++)] with
    [remaining] iterations to go, [attempt] being the next. *)
Fixpoint playVideo_loop (opts : Options) (oracle : nat → Attempt)
    (attempt remaining : nat) : (Error + unit) * list Event :=
  match remaining with
  | 0 => (inl (CouldNotStart (maxAttempts opts)), [])
  | S r =>
      let '(b, evs) := attempt_body opts (oracle attempt) in
      match b with
      | Returned => (inr tt, Attempted attempt :: evs)
      | FellThrough =>
          (* if (attempt < maxAttempts) await sleep(1000) *)
          let backoff := if decide (r = 0) then [] else [Sleep 1000] in
          let '(res, rest) := playVideo_loop opts oracle (S attempt) r in
          (res, Attempted attempt :: evs ++ backoff ++ rest)
      | Threw =>
          (* if (attempt === maxAttempts) throw ...; await sleep(1000) *)
          if decide (r = 0) then (inl (FailedToPlay (maxAttempts opts)), Attempted attempt :: evs)
          else
            let '(res, rest) := playVideo_loop opts oracle (S attempt) r in
            (res, Attempted attempt :: evs ++ [Sleep 1000] ++ rest)
      end
  end.

(** [playVideo(page, selector, options)]. *)
Definition playVideo (opts : Options) (oracle : nat → Attempt) : (Error + unit) * list Event :=
  playVideo_loop opts oracle 1 (maxAttempts opts).

Definition is_attempt (e : Event) : bool :=
  match e with
  | Attempted _ => true
  | _ => false
  end.

Definition attempts (tr : list Event) : nat :=
  length (filter (λ e, is_attempt e = true) tr).

(** An attempt after which playVideo returns. *)
Definition succeeds (opts : Options) (a : Attempt) : bool :=
  match (attempt_body opts a).1 with
  | Returned => true
  | _ => false
  end.

(** How many attempts after [attempt] fail before one succeeds, within
    [remaining] attempts. *)
Fixpoint first_success (opts : Options) (oracle : nat → Attempt)
    (attempt remaining : nat) : option nat :=
  match remaining with
  | 0 => None
  | S r =>
      if succeeds opts (oracle attempt) then Some 0
      else S <$> first_success opts oracle (S attempt) r
  end.

(** The events of [n] attempts in a row, from [attempt] on: each attempt
    but the last is followed by the wait of one second. *)
Fixpoint segments (opts : Options) (oracle : nat → Attempt)
    (attempt n : nat) : list Event :=
  match n with
  | 0 => []
  | S n' =>
      (Attempted attempt :: (attempt_body opts (oracle attempt)).2
         ++ (if decide (n' = 0) then [] else [Sleep 1000]))
      ++ segments opts oracle (S attempt) n'
  end.

(** The events of an attempt in which no await rejects and [play()] is
    accepted, with the default options. *)
Definition full_attempt : list Event := [Click; Sleep 500; Play; Sleep 1000; Verify].

Definition good : Attempt := mkAttempt true PlayStarted (Some (Some (mkVideo false false 4))).
Definition stalled : Attempt := mkAttempt true PlayStarted (Some (Some (mkVideo true false 4))).
Definition refused : Attempt := mkAttempt true PlayRefused None.

(** The time spent in [sleep] calls, in milliseconds. *)
Definition slept (e : Event) : N :=
  match e with
  | Sleep ms => ms
  | _ => 0%N
  end.

Definition total_sleep (tr : list Event) : N :=
  foldr (λ e acc, (slept e + acc)%N) 0%N tr.

End Browser.

(* ===================================================================== *)
(** * record.js : one recording job                                       *)
(* ===================================================================== *)

Module Record.

Record Options := mkOptions {
  url : string;
  outputPath : string;
  jobIndex : nat;
  parallelMode : bool;
  displayStartNumber : Z;
  sinkName : string;
  duration : option Js.number;
  bufferTime : Js.number;
  clickSelectors : list string;
  autoDetectDuration : bool
}.

Inductive Resource := Capture | TheBrowser | TheDisplay | AudioSink.

#[global] Instance Resource_eq_dec : EqDecision Resource.
Proof. solve_decision. Defined.

(** The calls to the collaborators. *)
Inductive Call :=
  | StartDisplay
  | SetupAudioRecording
  | LaunchBrowser
  | CreatePage
  | NavigateToUrl
  | SetFullscreen
  | FindVideoElement
  | ClickIfExists (selector : string)
  | GetVideoMetadata
  | StartRecording
  | MoveBrowserSinkInputs
  | StopRecording (gracePeriod : N)
  | CloseBrowser
  | StopDisplay
  | CleanupAudioRecording.

#[global] Instance Call_eq_dec : EqDecision Call.
Proof. solve_decision. Defined.

(** [Called c ok]: the call was made and returned normally ([ok]) or not.
    For the four release calls, which catch what goes wrong inside them,
    [ok = false] records such an inner failure, or that the call did not
    return. *)
Inductive Event :=
  | Called (c : Call) (ok : bool)
  | Slept (ms : N)
  | Playback (e : Browser.Event).

#[global] Instance Event_eq_dec : EqDecision Event.
Proof. solve_decision. Defined.

(** What the collaborators answer to this job: an error message where a
    call throws.  [setFullscreen], [clickIfExists] and the release calls
    catch their errors themselves.  [ffmpeg] is the child process
    startRecording handed back, as it is when stopRecording is called on
    it, and [ffmpeg_reacts] what it does with a signal; [rejection n] is
    the message of the error an await of attempt [n] of playVideo rejects
    with, when one does. *)
Record Oracle := mkOracle {
  startDisplay : string + Z;
  setupAudioRecording : option string;
  launchBrowser : option string;
  createPage : option string;
  navigateToUrl : option string;
  setFullscreen : bool;
  findVideoElement : option string;
  clickIfExists : string → bool;
  getVideoMetadata : string + Js.number;
  startRecording : option string;
  playVideo : nat → Browser.Attempt;
  browser_process : bool;
  moveBrowserSinkInputs : option string;
  release_ok : Resource → bool;
  ffmpeg : Cleanup.ChildProcess;
  ffmpeg_reacts : Cleanup.Signal → option N;
  rejection : nat → string
}.

(** [let displayInfo, audioInfo, ffmpegProcess, browser]. *)
Record Vars := mkVars {
  displayInfo : option Z;
  audioInfo : option string;
  ffmpegProcess : bool;
  browser : bool
}.

Definition no_vars : Vars := mkVars None None false false.

Definition holds (v : Vars) (r : Resource) : bool :=
  match r with
  | Capture => ffmpegProcess v
  | TheBrowser => browser v
  | TheDisplay => bool_decide (is_Some (displayInfo v))
  | AudioSink => bool_decide (is_Some (audioInfo v))
  end.

Inductive Stop :=
  | Raised (message : string)
  | Hangs.

(** Code that reads and assigns the variables, logs events, and ends
    normally, by a throw, or not at all. *)
Definition St : Type := Vars * list Event.
Definition M (A : Type) : Type := St → (Stop + A) * St.

#[global] Instance M_ret : MRet M := λ A a st, (inr a, st).
#[global] Instance M_bind : MBind M := λ A B f m st,
  match m st with
  | (inr a, st') => f a st'
  | (inl e, st') => (inl e, st')
  end.

Definition emit (es : list Event) : M unit := λ st, (inr tt, (st.1, st.2 ++ es)).
Definition throw {A} (message : string) : M A := λ st, (inl (Raised message), st).
Definition hang {A} : M A := λ st, (inl Hangs, st).
Definition get_vars : M Vars := λ st, (inr st.1, st).
Definition set_vars (f : Vars → Vars) : M unit := λ st, (inr tt, (f st.1, st.2)).

(** [await c(...)] for a call that throws [message] or returns. *)
Definition call (c : Call) (outcome : option string) : M unit :=
  match outcome with
  | Some message => emit [Called c false];; throw message
  | None => emit [Called c true]
  end.

Definition call_value {A} (c : Call) (outcome : string + A) : M A :=
  match outcome with
  | inl message => emit [Called c false];; throw message
  | inr a => emit [Called c true];; mret a
  end.

Definition sleep (ms : N) : M unit := emit [Slept ms].

Definition release_call (emergency : bool) (r : Resource) : Call :=
  match r with
  | Capture => StopRecording (if emergency then 5000 else 15000)
  | TheBrowser => CloseBrowser
  | TheDisplay => StopDisplay
  | AudioSink => CleanupAudioRecording
  end.

Definition clear (r : Resource) (v : Vars) : Vars :=
  match r with
  | Capture => mkVars (displayInfo v) (audioInfo v) false (browser v)
  | TheBrowser => mkVars (displayInfo v) (audioInfo v) (ffmpegProcess v) false
  | TheDisplay => mkVars None (audioInfo v) (ffmpegProcess v) (browser v)
  | AudioSink => mkVars (displayInfo v) None (ffmpegProcess v) (browser v)
  end.

(** How an awaited release call ends. *)
Inductive Ending :=
  | Settles (ok : bool)
  | Rejects (message : string)
  | NeverSettles.

Definition release_step (c : Call) (e : Ending) : M unit :=
  match e with
  | Settles ok => emit [Called c ok]
  | Rejects message => emit [Called c false];; throw message
  | NeverSettles => emit [Called c false];; hang
  end.

(** When the promise of [stopRecording(ffmpegProcess, gracePeriod)]
    resolves, if it does. *)
Definition capture_stop (o : Oracle) (gracePeriod : N) : option N :=
  Cleanup.resolved_at (Cleanup.stopRecording (Some (ffmpeg o)) gracePeriod (ffmpeg_reacts o)).

(** The release calls.  closeBrowser and cleanupAudioRecording catch
    what goes wrong inside them and return; the promise of stopDisplay
    resolves on the exit of Xvfb or when its timer fires; the promise of
    stopRecording resolves only as [Cleanup.stopRecording] says. *)
Definition ending_of (o : Oracle) (gracePeriod : N) (r : Resource) : Ending :=
  match r with
  | Capture =>
      match capture_stop o gracePeriod with
      | Some _ => Settles (release_ok o Capture)
      | None => NeverSettles
      end
  | _ => Settles (release_ok o r)
  end.

Definition grace (emergency : bool) : N := if emergency then 5000%N else 15000%N.

Definition release_ending (o : Oracle) (emergency : bool) (r : Resource) : Ending :=
  ending_of o (grace emergency) r.

Definition release (o : Oracle) (emergency : bool) (r : Resource) : M unit :=
  release_step (release_call emergency r) (release_ending o emergency r).

(** [p.catch(() => {})] and [try { ... } catch (_) {}]. *)
Definition swallow (m : M unit) : M unit := λ st,
  match m st with
  | (inl (Raised _), st') => (inr tt, st')
  | other => other
  end.

Definition play_message (o : Oracle) (e : Browser.Error) : string :=
  match e with
  | Browser.FailedToPlay n =>
      "Failed to play video after " +:+ pretty n +:+ " attempts: " +:+ rejection o n
  | Browser.CouldNotStart n => "Could not start video playback after " +:+ pretty n +:+ " attempts"
  end.

Definition duration_message (e : Duration.Error) : string :=
  match e with
  | Duration.DurationRequired =>
      "Either --duration must be provided or --auto-detect-duration must be enabled"
  | Duration.AutoDetectFailed =>
      "Failed to auto-detect video duration. Please provide a manual duration with --duration <seconds>."
  end.

Definition playback_events (o : Oracle) : list Event :=
  Playback <$> (Browser.playVideo Browser.defaults (playVideo o)).2.

(** [await playVideo(page, videoSelector)]. *)
Definition play_stage (o : Oracle) : M unit :=
  emit (playback_events o);;
  match (Browser.playVideo Browser.defaults (playVideo o)).1 with
  | inl e => throw (play_message o e)
  | inr _ => mret tt
  end.

Definition click_events (o : Oracle) (selectors : list string) : list Event :=
  selectors ≫= λ sel, [Called (ClickIfExists sel) (clickIfExists o sel); Slept 500].

(** [for (const sel of clickSelectors) { await clickIfExists(page, sel); await sleep(500); }] *)
Definition click_stage (o : Oracle) (selectors : list string) : M unit :=
  emit (click_events o selectors).

(** [for (let i = 1; i <= totalTime; i++) await sleep(1000)]. *)
Definition wait_stage (totalTime : Js.number) : M unit :=
  match Js.loop_count totalTime with
  | Some n => emit (replicate n (Slept 1000))
  | None => hang
  end.

(** [actualDuration + bufferTime]; an undefined duration gives NaN. *)
Definition total_time (actual : option Js.number) (buffer : Js.number) : Js.number :=
  match actual with
  | Some a => Js.add a buffer
  | None => Js.NaN
  end.

(** The try block of recordUrl. *)
Definition try_block (opts : Options) (o : Oracle) : M unit :=
  n ← call_value StartDisplay (startDisplay o);
  set_vars (λ v, mkVars (Some n) (audioInfo v) (ffmpegProcess v) (browser v));;
  call SetupAudioRecording (setupAudioRecording o);;
  set_vars (λ v, mkVars (displayInfo v) (Some (sinkName opts)) (ffmpegProcess v) (browser v));;
  call LaunchBrowser (launchBrowser o);;
  set_vars (λ v, mkVars (displayInfo v) (audioInfo v) (ffmpegProcess v) true);;
  call CreatePage (createPage o);;
  call NavigateToUrl (navigateToUrl o);;
  emit [Called SetFullscreen (setFullscreen o)];;
  call FindVideoElement (findVideoElement o);;
  click_stage o (clickSelectors opts);;
  d ← call_value GetVideoMetadata (getVideoMetadata o);
  actual ← match Duration.actualDuration (autoDetectDuration opts) d (duration opts) with
           | inl e => throw (duration_message e)
           | inr a => mret a
           end;
  let totalTime := total_time actual (bufferTime opts) in
  call StartRecording (startRecording o);;
  set_vars (λ v, mkVars (displayInfo v) (audioInfo v) true (browser v));;
  sleep 1000;;
  play_stage o;;
  (if parallelMode opts && browser_process o
   then call MoveBrowserSinkInputs (moveBrowserSinkInputs o)
   else mret tt);;
  wait_stage totalTime;;
  release o false Capture;; set_vars (clear Capture);;
  release o false TheBrowser;; set_vars (clear TheBrowser);;
  release o false TheDisplay;; set_vars (clear TheDisplay);;
  release o false AudioSink;; set_vars (clear AudioSink).

(** The order of the emergency cleanup in the catch block. *)
Definition teardown_order : list Resource := [Capture; TheBrowser; TheDisplay; AudioSink].

(** The emergency cleanup of the catch block, whatever way the four
    release calls end: each is awaited with [.catch(() => {})], and the
    whole is in a try block with an empty catch. *)
Definition emergency_cleanup_with (ending : Resource → Ending) : M unit :=
  swallow (
    v ← get_vars;
    (if holds v Capture
     then swallow (release_step (release_call true Capture) (ending Capture)) else mret tt);;
    (if holds v TheBrowser
     then swallow (release_step (release_call true TheBrowser) (ending TheBrowser)) else mret tt);;
    (if holds v TheDisplay
     then swallow (release_step (release_call true TheDisplay) (ending TheDisplay)) else mret tt);;
    (if holds v AudioSink
     then swallow (release_step (release_call true AudioSink) (ending AudioSink)) else mret tt)).

Definition emergency_cleanup (o : Oracle) : M unit :=
  emergency_cleanup_with (release_ending o true).

Record Result := mkResult {
  success : bool;
  result_outputPath : string;
  error : option string
}.

(** How the promise of an async function stands in the end. *)
Inductive Outcome :=
  | Returns (r : Result)
  | Throws (message : string)
  | NeverReturns.

(** [recordUrl(options)]. *)
Definition recordUrl (opts : Options) (o : Oracle) : Outcome * list Event :=
  if Duration.validate (autoDetectDuration opts) (duration opts) then
    match try_block opts o (no_vars, []) with
    | (inr _, (_, tr)) => (Returns (mkResult true (outputPath opts) None), tr)
    | (inl (Raised message), st) =>
        match emergency_cleanup o st with
        | (inr _, (_, tr)) => (Returns (mkResult false (outputPath opts) (Some message)), tr)
        | (inl (Raised other), (_, tr)) => (Throws other, tr)
        | (inl Hangs, (_, tr)) => (NeverReturns, tr)
        end
    | (inl Hangs, (_, tr)) => (NeverReturns, tr)
    end
  else
    (Returns (mkResult false (outputPath opts)
                (Some (duration_message Duration.DurationRequired))), []).

(** ** The stages of a job, for the statements about failures *)

Inductive Stage :=
  | AtStartDisplay
  | AtSetupAudio
  | AtLaunchBrowser
  | AtCreatePage
  | AtNavigate
  | AtFindVideo
  | AtMetadata
  | AtDuration
  | AtStartRecording
  | AtPlay
  | AtMoveSinkInputs.

#[global] Instance Stage_eq_dec : EqDecision Stage.
Proof. solve_decision. Defined.

Definition stages : list Stage :=
  [AtStartDisplay; AtSetupAudio; AtLaunchBrowser; AtCreatePage; AtNavigate; AtFindVideo;
   AtMetadata; AtDuration; AtStartRecording; AtPlay; AtMoveSinkInputs].

(** The error a stage raises when it is reached. *)
Definition stage_error (opts : Options) (o : Oracle) (s : Stage) : option string :=
  match s with
  | AtStartDisplay => match startDisplay o with inl e => Some e | inr _ => None end
  | AtSetupAudio => setupAudioRecording o
  | AtLaunchBrowser => launchBrowser o
  | AtCreatePage => createPage o
  | AtNavigate => navigateToUrl o
  | AtFindVideo => findVideoElement o
  | AtMetadata => match getVideoMetadata o with inl e => Some e | inr _ => None end
  | AtDuration =>
      match getVideoMetadata o with
      | inr d =>
          match Duration.actualDuration (autoDetectDuration opts) d (duration opts) with
          | inl e => Some (duration_message e)
          | inr _ => None
          end
      | inl _ => None
      end
  | AtStartRecording => startRecording o
  | AtPlay =>
      match (Browser.playVideo Browser.defaults (playVideo o)).1 with
      | inl e => Some (play_message o e)
      | inr _ => None
      end
  | AtMoveSinkInputs =>
      if parallelMode opts && browser_process o then moveBrowserSinkInputs o else None
  end.

(** The first stage that raises, and its error. *)
Fixpoint first_error (opts : Options) (o : Oracle) (l : list Stage) : option (Stage * string) :=
  match l with
  | [] => None
  | s :: l =>
      match stage_error opts o s with
      | Some e => Some (s, e)
      | None => first_error opts o l
      end
  end.

Definition first_failure (opts : Options) (o : Oracle) : option (Stage * string) :=
  first_error opts o stages.

(** The resource a stage acquires. *)
Definition acquires (s : Stage) : option Resource :=
  match s with
  | AtStartDisplay => Some TheDisplay
  | AtSetupAudio => Some AudioSink
  | AtLaunchBrowser => Some TheBrowser
  | AtStartRecording => Some Capture
  | _ => None
  end.

Fixpoint before (s : Stage) (l : list Stage) : list Stage :=
  match l with
  | [] => []
  | s' :: l => if decide (s' = s) then [] else s' :: before s l
  end.

(** The resources acquired by the stages that come before [s]. *)
Definition acquired_before (s : Stage) : list Resource :=
  omap acquires (before s stages).

Definition is_release (e : Event) : option Resource :=
  match e with
  | Called (StopRecording _) _ => Some Capture
  | Called CloseBrowser _ => Some TheBrowser
  | Called StopDisplay _ => Some TheDisplay
  | Called CleanupAudioRecording _ => Some AudioSink
  | _ => None
  end.

(** The release steps invoked in a trace, in order. *)
Definition releases (tr : list Event) : list Resource := omap is_release tr.

Definition release_events (tr : list Event) : list Event :=
  omap (λ e, match is_release e with Some _ => Some e | None => None end) tr.

(** How often the release step of [x] is invoked in a trace. *)
Definition release_count (x : Resource) (tr : list Event) : nat :=
  length (filter (λ y, y = x) (releases tr)).

Definition is_playback (e : Event) : bool :=
  match e with
  | Playback _ => true
  | _ => false
  end.

(** Every playback event comes after a completed start of the capture
    and the settle delay that follows it. *)
Definition capture_first (settle : N) (tr : list Event) : Prop :=
  ∀ i e, tr !! i = Some (Playback e) →
    ∃ j, j + 1 < i ∧ tr !! j = Some (Called StartRecording true) ∧
         tr !! (j + 1) = Some (Slept settle).

(** The events of a job that got as far as starting the capture. *)
Definition before_capture (opts : Options) (o : Oracle) : list Event :=
  [Called StartDisplay true; Called SetupAudioRecording true; Called LaunchBrowser true;
   Called CreatePage true; Called NavigateToUrl true; Called SetFullscreen (setFullscreen o);
   Called FindVideoElement true]
  ++ click_events o (clickSelectors opts) ++ [Called GetVideoMetadata true].

(** An ffmpeg that ends 300 ms after SIGINT. *)
Definition obedient (sig : Cleanup.Signal) : option N := Some 300%N.

(** Answers with which a job succeeds, with which the browser does not
    launch, and with which the video does not start playing while ffmpeg
    ignores SIGINT. *)
Definition healthy : Oracle :=
  mkOracle (inr 99%Z) None None None None true None (λ _, true) (inr (Js.Fin 3)) None
    (λ _, Browser.good) true None (λ _, true) (Cleanup.running 4242) obedient (λ _, "").

Definition no_browser : Oracle :=
  mkOracle (inr 99%Z) None (Some "Failed to launch browser") None None true None (λ _, true)
    (inr (Js.Fin 3)) None (λ _, Browser.good) true None (λ r, bool_decide (r = AudioSink))
    (Cleanup.running 4242) obedient (λ _, "").

Definition stuck_capture : Oracle :=
  mkOracle (inr 99%Z) None None None None true None (λ _, true) (inr (Js.Fin 3)) None
    (λ _, Browser.stalled) true None (λ _, true) (Cleanup.running 4242) Cleanup.stubborn
    (λ _, "").

Definition sample_options : Options :=
  mkOptions "https://example.com/video" "out.mp4" 0 false 99 "recording_sink"
    None (Js.Fin 2) [".play"] true.

(** A job of a parallel batch. *)
Definition parallel_options : Options :=
  mkOptions "https://example.com/video" "out1.mp4" 1 true 99 "recording_sink_1"
    None (Js.Fin 2) [] true.


(** The statement "a job in which a stage raises an error returns an
    unsuccessful result carrying that error, having invoked the release
    step of each resource acquired before exactly once and of no other". *)
Definition teardown_completes (opts : Options) (o : Oracle) : Prop :=
  ∀ s e, Duration.validate (autoDetectDuration opts) (duration opts) = true →
    first_failure opts o = Some (s, e) →
    (recordUrl opts o).1 = Returns (mkResult false (outputPath opts) (Some e)) ∧
    ∀ x, release_count x (recordUrl opts o).2 = if decide (x ∈ acquired_before s) then 1 else 0.

(** ** Acquisitions, for the statements about every execution *)

(** The resource an event shows as acquired: the call that creates it
    has returned normally. *)
Definition is_acquire (e : Event) : option Resource :=
  match e with
  | Called StartDisplay true => Some TheDisplay
  | Called SetupAudioRecording true => Some AudioSink
  | Called LaunchBrowser true => Some TheBrowser
  | Called StartRecording true => Some Capture
  | _ => None
  end.

(** The resources acquired in a trace, in order. *)
Definition acquisitions (tr : list Event) : list Resource := omap is_acquire tr.

(** The release steps at the end of the try block. *)
Definition graceful_releases (o : Oracle) : list Event :=
  (λ x, Called (release_call false x) (release_ok o x)) <$> teardown_order.

(** The calls of moveBrowserSinkInputs in a trace, with their outcome. *)
Definition is_routing (e : Event) : option bool :=
  match e with
  | Called MoveBrowserSinkInputs ok => Some ok
  | _ => None
  end.

(** The call of moveBrowserSinkInputs, made in parallel mode when the
    browser has a process. *)
Definition routing (opts : Options) (o : Oracle) : list Event :=
  if parallelMode opts && browser_process o
  then [Called MoveBrowserSinkInputs (bool_decide (moveBrowserSinkInputs o = None))]
  else [].

End Record.

(* ===================================================================== *)
(** * Batch runs                                                          *)
(* ===================================================================== *)

Module Batch.

(** Modelled from the spec: runSequential and runParallel (lib/batch.js)
    are not among the sources.  "Runs jobs through a bounded worker pool
    of size K: at most K JobLifecycle executions are in flight
    simultaneously; as soon as one completes (success or failure) the
    next queued job starts.  A single job's failure is captured as a
    BatchResult and does not cancel sibling jobs or the overall run."
    [queue]: the indices of the URLs not started yet, in list order;
    [inflight]: the jobs started and not yet completed; [finished]: the
    result records, in order of completion. *)
Record Pool := mkPool {
  queue : list nat;
  inflight : list nat;
  finished : list (nat * Record.Result)
}.

Inductive PoolAction :=
  | StartNext
  | Complete (k : nat).     (* the k-th job in flight completes *)

Definition pool_step (K : nat) (job : nat → option Record.Result)
    (p : Pool) (a : PoolAction) : Pool :=
  match a with
  | StartNext =>
      match queue p with
      | i :: q =>
          if length (inflight p) <? K
          then mkPool q (inflight p ++ [i]) (finished p)
          else p
      | [] => p
      end
  | Complete k =>
      match inflight p !! k with
      | Some i =>
          match job i with
          | Some r => mkPool (queue p) (delete k (inflight p)) (finished p ++ [(i, r)])
          | None => p
          end
      | None => p
      end
  end.

Definition run_pool (K : nat) (job : nat → option Record.Result)
    (p : Pool) (schedule : list PoolAction) : Pool :=
  foldl (pool_step K job) p schedule.

Definition start_pool (N : nat) : Pool := mkPool (seq 0 N) [] [].


Definition done (p : Pool) : Prop := queue p = [] ∧ inflight p = [].


(** The statement "the batch comes to its end, with a record for each
    URL". *)
Definition completes (N K : nat) (job : nat → option Record.Result) : Prop :=
  ∃ schedule, done (run_pool K job (start_pool N) schedule).


(** The result record of job [i]: what [recordUrl] returns for the
    options and the collaborators of that job, if it returns. *)
Definition job_result (opts : nat → Record.Options) (oracles : nat → Record.Oracle)
    (i : nat) : option Record.Result :=
  match (Record.recordUrl (opts i) (oracles i)).1 with
  | Record.Returns r => Some r
  | Record.Throws message => Some (Record.mkResult false (Record.outputPath (opts i)) (Some message))
  | Record.NeverReturns => None
  end.




Definition pool_inv (N K : nat) (job : nat → option Record.Result) (p : Pool) : Prop :=
  queue p ++ inflight p ++ (finished p).*1 ≡ₚ seq 0 N ∧
  length (inflight p) ≤ K ∧
  ∀ i r, (i, r) ∈ finished p → job i = Some r.



(** Two URLs; the video of the second does not start playing and its
    ffmpeg does not end on SIGINT. *)
Definition stuck_second (i : nat) : Record.Oracle :=
  if decide (i = 1) then Record.stuck_capture else Record.healthy.

End Batch.

(* ===================================================================== *)
(** * JavaScript strings                                                  *)
(* ===================================================================== *)

Module Text.

Definition newline : ascii := "010"%char.
Definition tab : ascii := "009"%char.

(** [\d] *)
Definition is_digit (a : ascii) : bool :=
  match uint_of_char a (Some Decimal.Nil) with
  | Some _ => true
  | None => false
  end.

(** The digits [(\d+)] captures at the start of [s] (the quantifier is
    greedy), and what follows them. *)
Fixpoint take_digits (s : string) : string :=
  match s with
  | String a s' => if is_digit a then String a (take_digits s') else EmptyString
  | EmptyString => EmptyString
  end.

Fixpoint skip_digits (s : string) : string :=
  match s with
  | String a s' => if is_digit a then skip_digits s' else s
  | EmptyString => EmptyString
  end.


(** [String(n)], also [`${n}`], for a natural number. *)
Definition of_N (n : N) : string := NilEmpty.string_of_uint (N.to_uint n).

(** [s.includes(c)] for one character. *)
Fixpoint has_char (c : ascii) (s : string) : bool :=
  match s with
  | String a s' => Ascii.eqb a c || has_char c s'
  | EmptyString => false
  end.

(** [hay.includes(needle)]. *)
Fixpoint includes (needle hay : string) : bool :=
  String.prefix needle hay ||
  match hay with
  | String _ hay' => includes needle hay'
  | EmptyString => false
  end.

(** [s.split(sep)] for a separator that is not empty: the pieces between
    the occurrences of [sep], found from the left.  [skip] counts the
    characters of an occurrence still to pass over. *)
Fixpoint split_from (sep : string) (skip : nat) (s : string) : list string :=
  match s with
  | EmptyString => [EmptyString]
  | String a s' =>
      match skip with
      | S k => split_from sep k s'
      | 0 =>
          if String.prefix sep s
          then EmptyString :: split_from sep (String.length sep - 1) s'
          else match split_from sep 0 s' with
               | piece :: pieces => String a piece :: pieces
               | [] => [String a EmptyString]
               end
      end
  end.

Definition split (sep : string) (s : string) : list string := split_from sep 0 s.

(** [line.trim()] is the empty string. *)
Fixpoint is_blank (s : string) : bool :=
  match s with
  | String a s' => Ascii.is_space a && is_blank s'
  | EmptyString => true
  end.

(** A value in a template literal: [undefined] prints as its name. *)
Definition show (x : option string) : string := default "undefined" x.

End Text.

(* ===================================================================== *)
(** * Resolutions: lib/display.js and lib/recorder.js                     *)
(* ===================================================================== *)

Module Resolution.

(** [const [width, height, depth] = resolution.split('x');
     const screenSpec = `${width}x${height}x${depth || '24'}`;]
    of startDisplay. *)
Definition screenSpec (resolution : string) : string :=
  let parts := Text.split "x" resolution in
  let depth := match parts !! 2 with
               | Some (String a d) => String a d
               | _ => "24"
               end in
  Text.show (parts !! 0) +:+ "x" +:+ Text.show (parts !! 1) +:+ "x" +:+ depth.



Inductive Error := InvalidResolution (resolution : string).


End Resolution.

(* ===================================================================== *)
(** * lib/audio.js : reading the answers of pactl                         *)
(* ===================================================================== *)

Module Sinks.

Record Sink := mkSink {
  index : option string;
  name : option string;
  module : option string;
  state : option string
}.

(** [listSinks()]: the lines of [pactl list short sinks] that are not
    blank, split at the tabs. *)
Definition listSinks (stdout : string) : list Sink :=
  (λ line, let parts := Text.split (String Text.tab "") line in
           mkSink (parts !! 0) (parts !! 1) (parts !! 2) (parts !! 3))
  <$> filter (λ line, Text.is_blank line = false) (Text.split (String Text.newline "") stdout).

(** [sinkExists(sinkName)]: [sinks.some(sink => sink.name === sinkName)]. *)
Definition sinkExists (stdout : string) (sinkName : string) : bool :=
  existsb (λ sink, bool_decide (name sink = Some sinkName)) (listSinks stdout).

(** [block.match(/Owner Module: (\d+)/)]: the digits of the leftmost
    match. *)
Fixpoint owner_module (block : string) : option string :=
  let here :=
    if String.prefix "Owner Module: " block
    then match Text.take_digits (String.substring 14 (String.length block - 14) block) with
         | EmptyString => None
         | id => Some id
         end
    else None in
  match here with
  | Some id => Some id
  | None =>
      match block with
      | String _ block' => owner_module block'
      | EmptyString => None
      end
  end.

(** The loop over [sinkBlocks] in removeVirtualSink: the module of the
    first block that includes [`Name: ${sinkName}`] and names an owner
    module. *)
Fixpoint find_module (sinkBlocks : list string) (sinkName : string) : option string :=
  match sinkBlocks with
  | [] => None
  | block :: rest =>
      if Text.includes ("Name: " +:+ sinkName) block then
        match owner_module block with
        | Some moduleId => Some moduleId
        | None => find_module rest sinkName
        end
      else find_module rest sinkName
  end.

(** [removeVirtualSink(sinkName)]: the command passed to pacmd, if any,
    given the answers of [pactl list short sinks] and [pactl list sinks]. *)
Definition removeVirtualSink (short full : string) (sinkName : string) : option string :=
  if sinkExists short sinkName then
    let sinkBlocks := Text.split (String Text.newline (String Text.newline "")) full in
    match find_module sinkBlocks sinkName with
    | Some moduleId => Some ("unload-module " +:+ moduleId)
    | None => None
    end
  else None.

(** What pactl prints for null sinks: a line of [pactl list short sinks]
    and a block of [pactl list sinks]. *)
Definition short_line (index : N) (name : string) : string :=
  Text.of_N index +:+ String Text.tab name
    +:+ String Text.tab ("module-null-sink.c" +:+ String Text.tab ("s16le 2ch 44100Hz"
    +:+ String Text.tab ("SUSPENDED" +:+ String Text.newline ""))).

Definition short_listing (rows : list (N * string)) : string :=
  foldr (λ row acc, short_line row.1 row.2 +:+ acc) "" rows.

Definition sink_block (index : N) (name : string) (owner : N) : list string :=
  ["Sink #" +:+ Text.of_N index;
   String Text.tab "State: SUSPENDED";
   String Text.tab ("Name: " +:+ name);
   String Text.tab "Description: Virtual Sink for Recording";
   String Text.tab "Driver: module-null-sink.c";
   String Text.tab "Sample Specification: s16le 2ch 44100Hz";
   String Text.tab ("Owner Module: " +:+ Text.of_N owner);
   String Text.tab "Mute: no";
   String Text.tab ("Monitor Source: " +:+ name +:+ ".monitor")].

Definition lines (l : list string) : string :=
  foldr (λ line acc, line +:+ String Text.newline acc) "" l.

(** Two sinks, [recording_sink_10] of module 21 listed before
    [recording_sink_1] of module 22. *)
Definition two_sinks_short : string :=
  short_line 1 "recording_sink_10" +:+ short_line 2 "recording_sink_1".

Definition two_sinks_full : string :=
  lines (sink_block 1 "recording_sink_10" 21) +:+ String Text.newline
    (lines (sink_block 2 "recording_sink_1" 22)).

End Sinks.

(* ===================================================================== *)
(** * record.js, single-URL version : main                                *)
(* ===================================================================== *)

Module Main.

(** The handles of the two child processes main tracks, and the cleanup
    handler it registers ([() => cleanupAudioRecording(audioInfo.sinkName)]). *)
Definition xvfb : nat := 0.
Definition ffmpeg : nat := 1.
Definition audio_handler : nat := 0.

(** The code of main reads and changes the cleanup manager and calls the
    collaborators. *)
Definition St : Type := Cleanup.Sys * list Record.Event.
Definition M (A : Type) : Type := St → (Record.Stop + A) * St.

#[global] Instance M_ret : MRet M := λ A a st, (inr a, st).
#[global] Instance M_bind : MBind M := λ A B f m st,
  match m st with
  | (inr a, st') => f a st'
  | (inl e, st') => (inl e, st')
  end.

Definition emit (es : list Record.Event) : M unit := λ st, (inr tt, (st.1, st.2 ++ es)).
Definition throw {A} (message : string) : M A := λ st, (inl (Record.Raised message), st).
Definition hang {A} : M A := λ st, (inl Record.Hangs, st).
Definition manager (f : Cleanup.Sys → Cleanup.Sys) : M unit := λ st, (inr tt, (f st.1, st.2)).

Definition call (c : Record.Call) (outcome : option string) : M unit :=
  match outcome with
  | Some message => emit [Record.Called c false];; throw message
  | None => emit [Record.Called c true]
  end.

Definition call_value {A} (c : Record.Call) (outcome : string + A) : M A :=
  match outcome with
  | inl message => emit [Record.Called c false];; throw message
  | inr a => emit [Record.Called c true];; mret a
  end.

(** The child process a collaborator has started and hands back. *)
Definition spawned (handle : nat) : M unit :=
  manager (Cleanup.with_heap (<[handle := Cleanup.running (S handle)]>)).

(** [await playVideo(page, videoSelector)] inside findAndPlayVideo. *)
Definition play_stage (o : Record.Oracle) : M unit :=
  emit (Record.playback_events o);;
  match (Browser.playVideo Browser.defaults (Record.playVideo o)).1 with
  | inl e => throw (Record.play_message o e)
  | inr _ => mret tt
  end.

Definition wait_stage (totalTime : Js.number) : M unit :=
  match Js.loop_count totalTime with
  | Some n => emit (replicate n (Record.Slept 1000))
  | None => hang
  end.

(** The four release calls at the end of the try block; stopRecording is
    called with a grace period of 10000 ms. *)
Definition release_call (r : Record.Resource) : Record.Call :=
  match r with
  | Record.Capture => Record.StopRecording 10000
  | Record.TheBrowser => Record.CloseBrowser
  | Record.TheDisplay => Record.StopDisplay
  | Record.AudioSink => Record.CleanupAudioRecording
  end.

Definition release (o : Record.Oracle) (r : Record.Resource) : M unit :=
  match Record.ending_of o 10000 r with
  | Record.Settles ok => emit [Record.Called (release_call r) ok]
  | Record.Rejects message => emit [Record.Called (release_call r) false];; throw message
  | Record.NeverSettles => emit [Record.Called (release_call r) false];; hang
  end.

(** The try block of the function main passes to withCleanup. *)
Definition try_block (opts : Record.Options) (o : Record.Oracle) : M unit :=
  n ← call_value Record.StartDisplay (Record.startDisplay o);
  spawned xvfb;;
  manager (Cleanup.trackProcess "xvfb" (Some xvfb));;
  call Record.SetupAudioRecording (Record.setupAudioRecording o);;
  manager (Cleanup.registerCleanupHandler audio_handler);;
  call Record.StartRecording (Record.startRecording o);;
  spawned ffmpeg;;
  manager (Cleanup.trackProcess "ffmpeg" (Some ffmpeg));;
  emit [Record.Slept 2000];;
  call Record.LaunchBrowser (Record.launchBrowser o);;
  call Record.CreatePage (Record.createPage o);;
  call Record.NavigateToUrl (Record.navigateToUrl o);;
  (* findAndPlayVideo *)
  call Record.FindVideoElement (Record.findVideoElement o);;
  emit (Record.click_events o (Record.clickSelectors opts));;
  d ← call_value Record.GetVideoMetadata (Record.getVideoMetadata o);
  play_stage o;;
  actual ← match Duration.actualDuration_main (Record.autoDetectDuration opts) d
                   (Record.duration opts) with
           | inl e => throw (Record.duration_message e)
           | inr a => mret a
           end;
  wait_stage (Record.total_time actual (Record.bufferTime opts));;
  release o Record.Capture;;
  manager (Cleanup.untrackProcess "ffmpeg");;
  release o Record.TheBrowser;;
  release o Record.TheDisplay;;
  manager (Cleanup.untrackProcess "xvfb");;
  release o Record.AudioSink.

(** What running the registered handlers calls: each is the audio
    cleanup. *)
Definition handler_calls (o : Record.Oracle) (log : list Cleanup.Event) : list Record.Event :=
  omap (λ e, match e with
             | Cleanup.EvHandler _ =>
                 Some (Record.Called Record.CleanupAudioRecording
                         (Record.release_ok o Record.AudioSink))
             | _ => None
             end) log.

Inductive Exit :=
  | Completed                 (* main returns *)
  | ExitStatus (code : nat)   (* process.exit(code) *)
  | NeverEnds.

(** [main()].  The guard on the duration arguments ends the process
    before anything is started.  The function passed to withCleanup
    catches every error of its try block and calls [process.exit(1)]
    there, which ends the process at once: the [finally] block of
    withCleanup is reached only when the try block has come to its end. *)
Definition main (opts : Record.Options) (o : Record.Oracle) : Exit * St :=
  if Duration.validate (Record.autoDetectDuration opts) (Record.duration opts) then
    match try_block opts o (Cleanup.new_manager, []) with
    | (inr _, (s, tr)) =>
        let s' := Cleanup.cleanupAll_alone s in
        (Completed, (s', tr ++ handler_calls o (drop (length (Cleanup.log s)) (Cleanup.log s'))))
    | (inl (Record.Raised _), st) => (ExitStatus 1, st)
    | (inl Record.Hangs, st) => (NeverEnds, st)
    end
  else (ExitStatus 1, (Cleanup.new_manager, [])).

End Main.

(* ===================================================================== *)
(** * Waiting for Xvfb and ffmpeg to come up                              *)
(* ===================================================================== *)

Module Startup.

(** How a promise stands. *)
Inductive Promise (A E : Type) :=
  | Pending
  | Resolved (a : A)
  | Rejected (e : E).
Arguments Pending {A E}.
Arguments Resolved {A E} a.
Arguments Rejected {A E} e.

(** [resolve] and [reject] settle a promise once; later calls do
    nothing. *)
Definition settle {A E} (p new : Promise A E) : Promise A E :=
  match p with
  | Pending => new
  | _ => p
  end.

(** [code !== 0 && code !== null]: [None] is the null of a process ended
    by a signal. *)
Definition failure_code (code : option nat) : bool :=
  match code with
  | Some (S _) => true
  | _ => false
  end.

(** ** The promise at the end of startDisplay

    [interval], [timeout]: whether [readyCheckInterval] and
    [startupTimeout] are still set; [inflight]: the polls whose
    [await isDisplayInUse(displayNumber)] has not answered yet. *)
Inductive XvfbError := XvfbExited (code : nat) | XvfbTimeout.

Record Xvfb := mkXvfb {
  xvfb_promise : Promise Z XvfbError;
  xvfb_interval : bool;
  xvfb_timeout : bool;
  inflight : nat;
  env_DISPLAY : option Z;
  xvfb_signals : list Cleanup.Signal
}.

Inductive XvfbEvent :=
  | XvfbTick                      (* readyCheckInterval fires *)
  | XvfbAnswer (ready : bool)     (* isDisplayInUse of a poll answers *)
  | XvfbExit (code : option nat)  (* 'exit' of xvfbProcess *)
  | XvfbTimesOut.                 (* startupTimeout fires, after 10000 ms *)

Definition xvfb_start : Xvfb := mkXvfb Pending true true 0 None [].

Definition xvfb_step (displayNumber : Z) (st : Xvfb) (ev : XvfbEvent) : Xvfb :=
  match ev with
  | XvfbTick =>
      if xvfb_interval st
      then mkXvfb (xvfb_promise st) true (xvfb_timeout st) (S (inflight st))
                  (env_DISPLAY st) (xvfb_signals st)
      else st
  | XvfbAnswer ready =>
      match inflight st with
      | 0 => st
      | S k =>
          if ready
          then (* cleanup(); process.env.DISPLAY = ...; resolve(...) *)
            mkXvfb (settle (xvfb_promise st) (Resolved displayNumber)) false false k
                   (Some displayNumber) (xvfb_signals st)
          else mkXvfb (xvfb_promise st) (xvfb_interval st) (xvfb_timeout st) k
                      (env_DISPLAY st) (xvfb_signals st)
      end
  | XvfbExit code =>
      (* cleanup(); if (code !== 0 && code !== null) reject(error) *)
      mkXvfb (if failure_code code
              then settle (xvfb_promise st) (Rejected (XvfbExited (default 0 code)))
              else xvfb_promise st)
             false false (inflight st) (env_DISPLAY st) (xvfb_signals st)
  | XvfbTimesOut =>
      if xvfb_timeout st
      then (* cleanup(); xvfbProcess.kill('SIGTERM'); reject(...) *)
        mkXvfb (settle (xvfb_promise st) (Rejected XvfbTimeout)) false false (inflight st)
               (env_DISPLAY st) (xvfb_signals st ++ [Cleanup.SIGTERM])
      else st
  end.

Definition xvfb_run (displayNumber : Z) (st : Xvfb) (evs : list XvfbEvent) : Xvfb :=
  foldl (xvfb_step displayNumber) st evs.

(** ** The promise startRecording awaits before it returns

    [started]: ffmpeg has printed a progress line ([frame=] or [time=]). *)
Inductive FfmpegError := FfmpegExited (code : nat) | FfmpegTimeout.

Record Ffmpeg := mkFfmpeg {
  started : bool;
  ffmpeg_promise : Promise unit FfmpegError;
  ffmpeg_interval : bool;
  ffmpeg_timeout : bool;
  ffmpeg_signals : list Cleanup.Signal
}.

Inductive FfmpegEvent :=
  | Progress                        (* stderr 'data' with frame= or time= *)
  | FfmpegTick                      (* startupCheckInterval fires *)
  | FfmpegExit (code : option nat)  (* 'exit' of ffmpegProcess *)
  | FfmpegTimesOut.                 (* the timeout fires, after 5000 ms *)

Definition ffmpeg_start : Ffmpeg := mkFfmpeg false Pending true true [].

Definition ffmpeg_step (st : Ffmpeg) (ev : FfmpegEvent) : Ffmpeg :=
  match ev with
  | Progress =>
      mkFfmpeg true (ffmpeg_promise st) (ffmpeg_interval st) (ffmpeg_timeout st)
               (ffmpeg_signals st)
  | FfmpegTick =>
      if ffmpeg_interval st && started st
      then (* clearInterval(startupCheckInterval); clearTimeout(timeout); resolve() *)
        mkFfmpeg true (settle (ffmpeg_promise st) (Resolved tt)) false false (ffmpeg_signals st)
      else st
  | FfmpegExit code =>
      (* clearTimeout(timeout); if (code !== 0 && code !== null) reject(...) *)
      mkFfmpeg (started st)
               (if failure_code code
                then settle (ffmpeg_promise st) (Rejected (FfmpegExited (default 0 code)))
                else ffmpeg_promise st)
               (ffmpeg_interval st) false (ffmpeg_signals st)
  | FfmpegTimesOut =>
      if ffmpeg_timeout st then
        if started st
        then mkFfmpeg true (settle (ffmpeg_promise st) (Resolved tt)) (ffmpeg_interval st)
                      false (ffmpeg_signals st)
        else (* ffmpegProcess.kill('SIGTERM'); reject(...) *)
          mkFfmpeg false (settle (ffmpeg_promise st) (Rejected FfmpegTimeout))
                   (ffmpeg_interval st) false (ffmpeg_signals st ++ [Cleanup.SIGTERM])
      else st
  end.

Definition ffmpeg_run (st : Ffmpeg) (evs : list FfmpegEvent) : Ffmpeg :=
  foldl ffmpeg_step st evs.

End Startup.

(* ===================================================================== *)
(** * Properties                                                          *)
(* ===================================================================== *)

(** ** The registry-wide cleanup pass *)












Lemma sched_step_handlers (c : Cleanup.Config) (i : nat) :
  Cleanup.cleanupHandlers (Cleanup.sys (Cleanup.sched_step c i))
  = Cleanup.cleanupHandlers (Cleanup.sys c).
Proof.
  unfold Cleanup.sched_step. destruct (Cleanup.tasks c !! i) as [pc|]; [|done].
  destruct pc as [|k| | |b]; cbn; try done.
  - by destruct (Cleanup.isCleaningUp (Cleanup.sys c)).
  - by destruct (Cleanup.cleanupHandlers (Cleanup.sys c) !! k).
Qed.

(** Every invocation returns: a task that is given its own steps has
    returned after at most [fuel] of them, whatever the other tasks did. *)
Lemma cleanupAll_returns (m : nat) (c : Cleanup.Config) (i : nat) (pc : Cleanup.Pc) :
  Cleanup.tasks c !! i = Some pc →
  Cleanup.fuel (length (Cleanup.cleanupHandlers (Cleanup.sys c))) pc ≤ m →
  ∃ b, Cleanup.tasks (Cleanup.run c (replicate m i)) !! i = Some (Cleanup.PcReturned b).
Proof.
  revert c pc. induction m as [|m IH]; intros c pc Hi Hfuel.
  - destruct pc; cbn in Hfuel; try lia. by exists ran.
  - cbn. assert (i < length (Cleanup.tasks c)) as Hlen by (by eapply lookup_lt_Some).
    pose proof (sched_step_handlers c i) as Hh.
    unfold Cleanup.sched_step in *. rewrite Hi in *.
    destruct pc as [|k| | |b]; cbn in *.
    + destruct (Cleanup.isCleaningUp (Cleanup.sys c)); cbn in *.
      * eapply IH; [by apply list_lookup_insert_eq|]. cbn. lia.
      * eapply IH; [by apply list_lookup_insert_eq|]. cbn. lia.
    + destruct (Cleanup.cleanupHandlers (Cleanup.sys c) !! k) as [h|] eqn:Hk; cbn in *.
      * apply lookup_lt_Some in Hk.
        eapply IH; [by apply list_lookup_insert_eq|]. cbn. lia.
      * eapply IH; [by apply list_lookup_insert_eq|]. cbn. lia.
    + eapply IH; [by apply list_lookup_insert_eq|]. cbn. lia.
    + eapply IH; [by apply list_lookup_insert_eq|]. cbn. lia.
    + eapply IH; [by apply list_lookup_insert_eq|]. cbn. lia.
Qed.



(** ** Termination of one process *)

Lemma node_kill_live (p : Cleanup.ChildProcess) :
  Cleanup.exited p = false → Cleanup.node_kill p = (Cleanup.set_killed p, true).
Proof. intros H. unfold Cleanup.node_kill. by rewrite H. Qed.

(** For a process that is alive when [killProcess] signals it, the guard
    [process.killed === false] of the timer is never true: only the
    requested signal is ever sent. *)
Lemma killProcess_sends_one_signal (p : Cleanup.ChildProcess) (sig : Cleanup.Signal)
    (react : Cleanup.Signal → option N) :
  Cleanup.has_pid p = true → Cleanup.exited p = false →
  Cleanup.signals_sent (Cleanup.killProcess (Some p) sig react) = [sig].
Proof.
  intros Hpid Hex. unfold Cleanup.killProcess. rewrite Hpid, (node_kill_live p Hex). cbn.
  by destruct (Cleanup.exits_before (react sig) 5000%N).
Qed.

(** [killProcess] always resolves, so the [Promise.all] of [cleanupAll]
    does. *)
Lemma killProcess_resolves (p : option Cleanup.ChildProcess) (sig : Cleanup.Signal)
    (react : Cleanup.Signal → option N) :
  is_Some (Cleanup.resolved_at (Cleanup.killProcess p sig react)).
Proof.
  unfold Cleanup.killProcess. destruct p as [p|]; [|by eexists].
  destruct (Cleanup.has_pid p); cbn; [|by eexists].
  destruct (Cleanup.node_kill p) as [p1 delivered].
  destruct (Cleanup.exits_before _ 5000%N) eqn:Hb.
  - unfold Cleanup.exits_before in Hb. cbn. by destruct (Cleanup.exit_time _ _ _).
  - destruct (Cleanup.killed p1); cbn; [by eexists|].
    destruct (Cleanup.node_kill p1). by eexists.
Qed.

(** C8. Termination of a tracked process, evaluated on a running process
    that ignores the graceful signal and would end at once on SIGKILL:
    [killProcess] sends SIGTERM only and resolves when the 5000 ms timer
    fires with the process still alive; [stopRecording] sends SIGINT only
    and never resolves; the timer of [stopDisplay], which does not test
    [killed], sends SIGKILL. *)
Theorem terminate_without_escalation :
  Cleanup.killProcess (Some (Cleanup.running 4242)) Cleanup.SIGTERM Cleanup.stubborn
    = Cleanup.mkKill [Cleanup.SIGTERM] (Some 5000%N) true ∧
  Cleanup.stopRecording (Some (Cleanup.running 4242)) 15000%N Cleanup.stubborn
    = Cleanup.mkKill [Cleanup.SIGINT] None true ∧
  Cleanup.stopDisplay_kill (Some (Cleanup.running 4242)) Cleanup.stubborn
    = Cleanup.mkKill [Cleanup.SIGTERM; Cleanup.SIGKILL] (Some 5000%N) false.
Proof. by split_and!. Qed.

(** ** Registry entries and natural exits *)

Lemma untrackProcess_lookup (m n : string) (s : Cleanup.Sys) :
  Cleanup.processes (Cleanup.untrackProcess m s) !! n
  = if decide (n = m) then None else Cleanup.processes s !! n.
Proof.
  unfold Cleanup.untrackProcess.
  destruct (Cleanup.processes s !! m) eqn:Hm; cbn; case_decide; subst;
    by rewrite ?lookup_delete_eq, ?lookup_delete_ne.
Qed.

Lemma run_listeners_processes (ls : list Cleanup.Listener) (s : Cleanup.Sys) (n : string) :
  Cleanup.processes (foldl Cleanup.run_listener s ls) !! n
  = if decide (n ∈ Cleanup.listener_names ls) then None else Cleanup.processes s !! n.
Proof.
  revert s. induction ls as [|l ls IH]; intros s; [done|].
  destruct l as [m].
  change (Cleanup.listener_names (Cleanup.AutoUntrack m :: ls))
    with (m :: Cleanup.listener_names ls).
  change (foldl Cleanup.run_listener s (Cleanup.AutoUntrack m :: ls))
    with (foldl Cleanup.run_listener (Cleanup.untrackProcess m s) ls).
  rewrite IH, untrackProcess_lookup.
  destruct (decide (n ∈ Cleanup.listener_names ls)) as [Hin|Hnin].
  - rewrite decide_True; [done|]. by apply list_elem_of_further.
  - destruct (decide (n = m)) as [->|Hne].
    + rewrite decide_True; [done|]. apply list_elem_of_here.
    + rewrite decide_False; [done|]. rewrite elem_of_cons. tauto.
Qed.

(** [execTracked] throws before it spawns or tracks anything. *)
Lemma execTracked_throws (name : string) (spawned : nat) (s : Cleanup.Sys) :
  Cleanup.execTracked name spawned s = (inl (Cleanup.ReferenceError "process"), s).
Proof. reflexivity. Qed.

(** C9, as stated, fails: the Xvfb process is tracked with [trackProcess]
    (as record.js does) and then ends on its own; its entry is still in
    the registry, which counts one entry for no live process. *)
Lemma track_exit_keeps_entry :
  let s := Cleanup.with_heap (λ _, {[1 := Cleanup.running 4001]}) Cleanup.new_manager in
  ¬ Cleanup.auto_removed "xvfb" 1 s.
Proof. intros s [H _]. vm_compute in H. discriminate H. Qed.

(** C9, amended. An entry made by [trackProcess(name, handle)] for a
    running process is in the registry; when the process ends on its own
    and no 'exit' listener of the handle untracks [name], the entry stays;
    it is removed by [untrackProcess(name)], and by an 'exit' listener
    that calls [untrackProcess(name)]. *)
Theorem tracked_entry_lifetime (s : Cleanup.Sys) (name : string) (a : nat)
    (p : Cleanup.ChildProcess) :
  Cleanup.heap s !! a = Some p →
  Cleanup.has_pid p = true →
  Cleanup.exited p = false →
  let s1 := Cleanup.trackProcess name (Some a) s in
  Cleanup.processes s1 !! name = Some a ∧
  (name ∉ Cleanup.listener_names (Cleanup.exitListeners p) →
     Cleanup.processes (Cleanup.process_exit a s1) !! name = Some a) ∧
  (name ∈ Cleanup.listener_names (Cleanup.exitListeners p) →
     Cleanup.processes (Cleanup.process_exit a s1) !! name = None) ∧
  Cleanup.processes (Cleanup.untrackProcess name s1) !! name = None.
Proof.
  intros Hp Hpid Hex s1.
  assert (s1 = Cleanup.with_processes (<[name := a]>) s) as Hs1.
  { unfold s1, Cleanup.trackProcess. by rewrite Hp, Hpid. }
  clearbody s1. subst s1.
  set (s1 := Cleanup.with_processes (<[name := a]>) s).
  assert (Cleanup.processes s1 !! name = Some a) as Hin.
  { cbn. by rewrite lookup_insert_eq. }
  assert (∀ n, Cleanup.processes (Cleanup.process_exit a s1) !! n
    = if decide (n ∈ Cleanup.listener_names (Cleanup.exitListeners p))
      then None else Cleanup.processes s1 !! n) as Hexit.
  { intros n. unfold Cleanup.process_exit. cbn. rewrite Hp, Hex.
    by rewrite run_listeners_processes. }
  split_and!.
  - done.
  - intros Hn. by rewrite Hexit, decide_False.
  - intros Hn. by rewrite Hexit, decide_True.
  - by rewrite untrackProcess_lookup, decide_True.
Qed.

Lemma tracked_entry_lifetime_witness :
  let s := Cleanup.with_heap (λ _, {[1 := Cleanup.running 4001]}) Cleanup.new_manager in
  let s1 := Cleanup.trackProcess "xvfb" (Some 1) s in
  Cleanup.processes s1 !! "xvfb" = Some 1 ∧
  Cleanup.processes (Cleanup.process_exit 1 s1) !! "xvfb" = Some 1 ∧
  Cleanup.processes (Cleanup.untrackProcess "xvfb" s1) !! "xvfb" = None.
Proof.
  intros s s1.
  destruct (tracked_entry_lifetime s "xvfb" 1 (Cleanup.running 4001) eq_refl eq_refl eq_refl)
    as (Hin & Hstays & _ & Hgone).
  split; [exact Hin|]. split; [|exact Hgone].
  apply Hstays. apply not_elem_of_nil.
Defined.

(** ** Display numbers *)
























(** ** The shared DISPLAY variable *)



(** ** Duration of the capture *)

Lemma usable_finite_positive (d : Js.number) :
  Duration.usable d = true ↔ ∃ q, d = Js.Fin q ∧ (0 < q)%Q.
Proof.
  unfold Duration.usable. split.
  - destruct d as [| | |q]; cbn; try done.
    rewrite !andb_true_r. intros [_ Hpos]%andb_true_iff.
    exists q. split; [done|]. unfold Js.Qpos_bool in Hpos.
    apply negb_true_iff in Hpos. apply Qnot_le_lt. intros Hle.
    apply Qle_bool_iff in Hle. congruence.
  - intros (q & -> & Hq). cbn. rewrite andb_true_r. apply andb_true_iff. split.
    + apply negb_true_iff. destruct (Qeq_bool q 0) eqn:Heq; [|done].
      apply Qeq_bool_iff in Heq. rewrite Heq in Hq. by apply Qlt_irrefl in Hq.
    + apply negb_true_iff. destruct (Qle_bool q 0) eqn:Hle; [|done].
      apply Qle_bool_iff in Hle. by apply Qle_not_lt in Hle.
Qed.

(** main of the single-URL record.js has no [isFinite] test: an infinite
    detected duration is taken as the duration, fallback or not. *)
Lemma actualDuration_main_infinite :
  Duration.actualDuration_main true Js.PosInf (Some (Js.Fin 30)) = inr (Some Js.PosInf) ∧
  Duration.actualDuration true Js.PosInf (Some (Js.Fin 30)) = inr (Some (Js.Fin 30)).
Proof. by split. Qed.

(** C4, as stated, fails: with auto-detection on, a detected duration of
    NaN and --duration 0, the fallback is not used; the job fails. *)
Lemma zero_fallback_not_used : ¬ Duration.fallback_used Js.NaN (Js.Fin 0).
Proof. intros H. specialize (H eq_refl). vm_compute in H. discriminate H. Qed.

(** C4, amended. A manual duration counts as provided when it is a
    truthy number (neither 0 nor NaN).  With auto-detection on: a finite
    positive detected duration [q] resolves to its ceiling; otherwise a
    provided manual duration is the effective duration; otherwise the
    resolution fails as unresolvable.  With auto-detection off: a
    provided manual duration is the effective duration, and without one
    the job is refused by the guard before anything is started. *)
Theorem duration_resolution (d : Js.number) (m : option Js.number) :
  (∀ q, d = Js.Fin q → (0 < q)%Q →
     Duration.resolve true d m = inr (Js.Fin (inject_Z (Qceiling q)))) ∧
  ((∀ q, d = Js.Fin q → (q <= 0)%Q) →
     ∀ x, m = Some x → Js.truthy x = true → Duration.resolve true d m = inr x) ∧
  ((∀ q, d = Js.Fin q → (q <= 0)%Q) →
     Js.truthy_opt m = false → Duration.resolve true d m = inl Duration.AutoDetectFailed) ∧
  (∀ x, m = Some x → Js.truthy x = true → Duration.resolve false d m = inr x) ∧
  (Js.truthy_opt m = false → Duration.resolve false d m = inl Duration.DurationRequired).
Proof.
  assert ((∀ q, d = Js.Fin q → (q <= 0)%Q) → Duration.usable d = false) as Hbad.
  { intros Hq. destruct (Duration.usable d) eqn:Hu; [|done].
    apply usable_finite_positive in Hu as (q & -> & Hpos).
    specialize (Hq q eq_refl). by apply Qle_not_lt in Hq. }
  unfold Duration.resolve, Duration.validate, Duration.actualDuration. split_and!.
  - intros q -> Hq. rewrite andb_false_r. cbn [negb].
    assert (Duration.usable (Js.Fin q) = true) as ->; [|done].
    apply usable_finite_positive. by exists q.
  - intros Hq x -> Hx. rewrite andb_false_r. cbn [negb].
    rewrite (Hbad Hq). cbn. by rewrite Hx.
  - intros Hq Hm. rewrite andb_false_r. cbn [negb]. by rewrite (Hbad Hq), Hm.
  - intros x -> Hx. cbn. by rewrite Hx.
  - intros Hm. by rewrite Hm.
Qed.

Lemma duration_resolution_witness :
  Duration.resolve true (Js.Fin (1254 # 10)) None = inr (Js.Fin (inject_Z 126)) ∧
  Duration.resolve true Js.NaN (Some (Js.Fin 30)) = inr (Js.Fin 30) ∧
  Duration.resolve true Js.NaN None = inl Duration.AutoDetectFailed ∧
  Duration.resolve false Js.NaN (Some (Js.Fin 30)) = inr (Js.Fin 30) ∧
  Duration.resolve false Js.NaN None = inl Duration.DurationRequired.
Proof.
  split_and!.
  - destruct (duration_resolution (Js.Fin (1254 # 10)) None) as (H & _).
    apply (H (1254 # 10)%Q); reflexivity.
  - destruct (duration_resolution Js.NaN (Some (Js.Fin 30))) as (_ & H & _).
    apply (H ltac:(intros q Hq; discriminate Hq) (Js.Fin 30)); reflexivity.
  - destruct (duration_resolution Js.NaN None) as (_ & _ & H & _).
    apply (H ltac:(intros q Hq; discriminate Hq)); reflexivity.
  - destruct (duration_resolution Js.NaN (Some (Js.Fin 30))) as (_ & _ & _ & H & _).
    apply (H (Js.Fin 30)); reflexivity.
  - destruct (duration_resolution Js.NaN None) as (_ & _ & _ & _ & H).
    apply H; reflexivity.
Defined.

(** ** Playback start *)

Lemma attempt_body_no_marker (opts : Browser.Options) (a : Browser.Attempt) :
  Browser.attempts (Browser.attempt_body opts a).2 = 0.
Proof.
  unfold Browser.attempt_body.
  destruct (Browser.clickToPlay opts), (Browser.click_ok a), (Browser.play a),
    (Browser.waitForPlay opts), (Browser.verify a) as [v|];
    cbn -[Browser.isPlaying]; try destruct (Browser.isPlaying v); done.
Qed.

Lemma attempts_app (l1 l2 : list Browser.Event) :
  Browser.attempts (l1 ++ l2) = Browser.attempts l1 + Browser.attempts l2.
Proof. unfold Browser.attempts. by rewrite filter_app, length_app. Qed.

Lemma attempts_marker (k : nat) (l : list Browser.Event) :
  Browser.attempts (Browser.Attempted k :: l) = S (Browser.attempts l).
Proof. unfold Browser.attempts. by rewrite filter_cons_True. Qed.

Lemma attempts_segments (opts : Browser.Options) (oracle : nat → Browser.Attempt)
    (n attempt : nat) :
  Browser.attempts (Browser.segments opts oracle attempt n) = n.
Proof.
  revert attempt. induction n as [|n IH]; intros attempt; [done|].
  cbn [Browser.segments]. rewrite attempts_app, IH.
  rewrite attempts_marker, attempts_app, attempt_body_no_marker.
  by case_decide.
Qed.

(** The loop stops at the first attempt after which the video is
    verified as playing, and otherwise ends in an error when the attempts
    are used up; its events are those of the attempts made. *)
Lemma segments_S (opts : Browser.Options) (oracle : nat → Browser.Attempt) (attempt n : nat) :
  Browser.segments opts oracle attempt (S n)
  = (Browser.Attempted attempt :: (Browser.attempt_body opts (oracle attempt)).2
       ++ (if decide (n = 0) then [] else [Browser.Sleep 1000]))
    ++ Browser.segments opts oracle (S attempt) n.
Proof. reflexivity. Qed.

Lemma playVideo_loop_spec (opts : Browser.Options) (oracle : nat → Browser.Attempt)
    (remaining attempt : nat) :
  let r := Browser.playVideo_loop opts oracle attempt remaining in
  match Browser.first_success opts oracle attempt remaining with
  | Some k => r.1 = inr tt ∧ r.2 = Browser.segments opts oracle attempt (S k) ∧ k < remaining
  | None => (∃ e, r.1 = inl e) ∧ r.2 = Browser.segments opts oracle attempt remaining
  end.
Proof.
  revert attempt. induction remaining as [|rem IH]; intros attempt.
  - cbn. split; [by eexists|done].
  - cbn [Browser.playVideo_loop Browser.first_success].
    unfold Browser.succeeds. specialize (IH (S attempt)). cbn zeta in IH.
    destruct (Browser.attempt_body opts (oracle attempt)) as [b evs] eqn:Hb. cbn [fst snd].
    destruct (Browser.playVideo_loop opts oracle (S attempt) rem) as [res rest].
    cbn [fst snd] in IH.
    destruct b.
    + rewrite segments_S, Hb. cbn. rewrite !app_nil_r. split_and!; [done..|lia].
    + destruct (Browser.first_success opts oracle (S attempt) rem) as [k|] eqn:Hfs;
        cbn [fmap option_fmap option_map fst snd]; cbn zeta.
      * destruct IH as (-> & -> & Hk). rewrite (segments_S _ _ attempt), Hb.
        cbn [fst snd]. rewrite !decide_False by lia.
        split_and!; [done| |lia]. cbn. by rewrite <- !app_assoc.
      * destruct IH as ([e ->] & ->). split; [by eexists|].
        rewrite segments_S, Hb. cbn. by rewrite <- !app_assoc.
    + destruct (Browser.first_success opts oracle (S attempt) rem) as [k|] eqn:Hfs;
        cbn [fmap option_fmap option_map fst snd]; cbn zeta.
      * destruct IH as (-> & -> & Hk). rewrite (segments_S _ _ attempt), Hb.
        cbn [fst snd]. rewrite !decide_False by lia.
        split_and!; [done| |lia]. cbn. by rewrite <- !app_assoc.
      * destruct IH as ([e ->] & ->). rewrite segments_S, Hb. case_decide as Hrem.
        -- subst rem. cbn. split; [by eexists|]. by rewrite !app_nil_r.
        -- split; [by eexists|]. cbn. by rewrite <- !app_assoc.
Qed.

Lemma attempt_body_defaults (a : Browser.Attempt) :
  (Browser.attempt_body Browser.defaults a).2 `prefix_of` Browser.full_attempt ∧
  (Browser.click_ok a = true → Browser.play a = Browser.PlayStarted →
   is_Some (Browser.verify a) →
   (Browser.attempt_body Browser.defaults a).2 = Browser.full_attempt) ∧
  (Browser.succeeds Browser.defaults a = true ↔
   Browser.click_ok a = true ∧ Browser.play a = Browser.PlayStarted ∧
   ∃ v, Browser.verify a = Some v ∧ Browser.isPlaying v = true).
Proof.
  unfold Browser.succeeds, Browser.attempt_body, Browser.full_attempt.
  destruct a as [c p v]. cbn -[Browser.isPlaying].
  split_and!.
  - destruct c; [|by eexists [_; _; _; _]].
    destruct p; cbn -[Browser.isPlaying]; [by eexists [_; _]..|].
    destruct v as [v|]; [|done]. by destruct (Browser.isPlaying v).
  - intros -> -> [v' ->]. cbn -[Browser.isPlaying]. by destruct (Browser.isPlaying v').
  - split.
    + destruct c; [|done]. destruct p; cbn -[Browser.isPlaying]; try done.
      destruct v as [v|]; [|done].
      destruct (Browser.isPlaying v) eqn:Hv; [|done]. intros _. by eauto.
    + intros (-> & -> & v' & -> & Hv). cbn -[Browser.isPlaying]. by rewrite Hv.
Qed.

(** C5. [playVideo] with its default options, whatever the page answers:
    it makes at most 3 attempts; the events of an attempt are, in this
    order, the click on the element, a wait of 500 ms, the call of
    [play()], a wait of 1000 ms and the verification (cut short where an
    await rejects or [play()] is refused), and the attempt succeeds
    exactly when the click and [play()] went through and the verification
    read an element that is not paused, not ended and of ready state
    above 2; the events of the whole call are those of the attempts made,
    each attempt but the last followed by a wait of 1000 ms; when
    attempts 1 and 2 fail and attempt 3 verifies as playing, the call
    returns after exactly 3 attempts; when all 3 fail, it raises an
    error after 3 attempts. *)
Theorem playVideo_retry (oracle : nat → Browser.Attempt) :
  let r := Browser.playVideo Browser.defaults oracle in
  Browser.attempts r.2 ≤ 3 ∧
  (∀ a, (Browser.attempt_body Browser.defaults a).2 `prefix_of` Browser.full_attempt ∧
        (Browser.click_ok a = true → Browser.play a = Browser.PlayStarted →
         is_Some (Browser.verify a) →
         (Browser.attempt_body Browser.defaults a).2 = Browser.full_attempt) ∧
        (Browser.succeeds Browser.defaults a = true ↔
         Browser.click_ok a = true ∧ Browser.play a = Browser.PlayStarted ∧
         ∃ v, Browser.verify a = Some v ∧ Browser.isPlaying v = true)) ∧
  r.2 = Browser.segments Browser.defaults oracle 1 (Browser.attempts r.2) ∧
  (Browser.succeeds Browser.defaults (oracle 1) = false →
   Browser.succeeds Browser.defaults (oracle 2) = false →
   Browser.succeeds Browser.defaults (oracle 3) = true →
   r.1 = inr tt ∧ Browser.attempts r.2 = 3) ∧
  (Browser.succeeds Browser.defaults (oracle 1) = false →
   Browser.succeeds Browser.defaults (oracle 2) = false →
   Browser.succeeds Browser.defaults (oracle 3) = false →
   (∃ e, r.1 = inl e) ∧ Browser.attempts r.2 = 3).
Proof.
  intros r. pose proof (playVideo_loop_spec Browser.defaults oracle 3 1) as Hspec.
  cbn zeta in Hspec.
  change (Browser.playVideo_loop Browser.defaults oracle 1 3) with r in Hspec.
  assert (∃ n, n ≤ 3 ∧ r.2 = Browser.segments Browser.defaults oracle 1 n) as (n & Hn & Hseg).
  { destruct (Browser.first_success Browser.defaults oracle 1 3) as [k|].
    - destruct Hspec as (_ & Heq & Hk). exists (S k). split; [lia|done].
    - destruct Hspec as (_ & Heq). by exists 3. }
  assert (Browser.attempts r.2 = n) as Hatt by (by rewrite Hseg, attempts_segments).
  assert (Browser.first_success Browser.defaults oracle 1 3
    = if Browser.succeeds Browser.defaults (oracle 1) then Some 0
      else if Browser.succeeds Browser.defaults (oracle 2) then Some 1
      else if Browser.succeeds Browser.defaults (oracle 3) then Some 2
      else None) as Hfs.
  { cbn. by destruct (Browser.succeeds Browser.defaults (oracle 1)),
      (Browser.succeeds Browser.defaults (oracle 2)),
      (Browser.succeeds Browser.defaults (oracle 3)). }
  rewrite Hfs in Hspec. clear Hfs.
  split_and!.
  - lia.
  - apply attempt_body_defaults.
  - by rewrite Hatt.
  - intros H1 H2 H3. rewrite H1, H2, H3 in Hspec. destruct Hspec as (-> & -> & _).
    by rewrite attempts_segments.
  - intros H1 H2 H3. rewrite H1, H2, H3 in Hspec. destruct Hspec as (He & ->).
    by rewrite attempts_segments.
Qed.

Lemma playVideo_retry_witness :
  let oracle := λ k, match k with
                     | 1 => Browser.refused
                     | 2 => Browser.stalled
                     | _ => Browser.good
                     end in
  let r := Browser.playVideo Browser.defaults oracle in
  r.1 = inr tt ∧ Browser.attempts r.2 = 3.
Proof.
  intros oracle r.
  destruct (playVideo_retry oracle) as (_ & _ & _ & Hthird & _).
  apply Hthird; reflexivity.
Defined.

(** ** One recording job *)

Arguments Browser.playVideo : simpl never.
Arguments Duration.actualDuration : simpl never.
Arguments Duration.validate : simpl never.
Arguments Js.loop_count : simpl never.
Arguments Record.click_events : simpl never.
Arguments Record.playback_events : simpl never.
Arguments Record.capture_stop : simpl never.
Arguments Record.play_message : simpl never.

Lemma releases_clicks (o : Record.Oracle) (sels : list string) :
  omap Record.is_release (Record.click_events o sels) = [] ∧
  Record.release_events (Record.click_events o sels) = [].
Proof. induction sels as [|sel sels IH]; [done|]. exact IH. Qed.

Lemma releases_playback (o : Record.Oracle) :
  omap Record.is_release (Record.playback_events o) = [] ∧
  Record.release_events (Record.playback_events o) = [].
Proof.
  unfold Record.playback_events.
  induction (Browser.playVideo Browser.defaults (Record.playVideo o)).2 as [|e l IH]; [done|].
  exact IH.
Qed.

Lemma releases_sleeps (n : nat) (ms : N) :
  omap Record.is_release (replicate n (Record.Slept ms)) = [] ∧
  Record.release_events (replicate n (Record.Slept ms)) = [].
Proof. induction n as [|n IH]; [done|]. exact IH. Qed.

Lemma release_events_app (l1 l2 : list Record.Event) :
  Record.release_events (l1 ++ l2) = Record.release_events l1 ++ Record.release_events l2.
Proof. apply omap_app. Qed.

Lemma expected_releases (s : Record.Stage) :
  filter (λ x, x ∈ Record.acquired_before s) Record.teardown_order
  = match s with
    | Record.AtStartDisplay => []
    | Record.AtSetupAudio => [Record.TheDisplay]
    | Record.AtLaunchBrowser => [Record.TheDisplay; Record.AudioSink]
    | Record.AtCreatePage | Record.AtNavigate | Record.AtFindVideo | Record.AtMetadata
    | Record.AtDuration | Record.AtStartRecording =>
        [Record.TheBrowser; Record.TheDisplay; Record.AudioSink]
    | Record.AtPlay | Record.AtMoveSinkInputs =>
        [Record.Capture; Record.TheBrowser; Record.TheDisplay; Record.AudioSink]
    end.
Proof. destruct s; vm_compute; reflexivity. Qed.

(** Symbolic execution of the job code once the answers of the
    collaborators are known. *)
Ltac exec :=
  unfold Record.emergency_cleanup, Record.emergency_cleanup_with, Record.click_stage,
    Record.play_stage, Record.wait_stage, Record.release, Record.release_ending,
    Record.sleep, Record.call, Record.call_value;
  unfold Record.release_step, Record.swallow, Record.emit, Record.throw, Record.hang,
    Record.set_vars, Record.get_vars, mbind, mret, Record.M_bind, Record.M_ret;
  cbn.

Lemma capture_held_stage (s : Record.Stage) :
  bool_decide (Record.Capture ∈ Record.acquired_before s)
  = match s with
    | Record.AtPlay | Record.AtMoveSinkInputs => true
    | _ => false
    end.
Proof. destruct s; vm_compute; reflexivity. Qed.

Ltac count_releases :=
  rewrite ?expected_releases; unfold Record.releases; cbn;
  rewrite ?omap_app, ?release_events_app,
    ?(proj1 (releases_clicks _ _)), ?(proj2 (releases_clicks _ _)),
    ?(proj1 (releases_playback _)), ?(proj2 (releases_playback _)),
    ?(proj1 (releases_sleeps _ _)), ?(proj2 (releases_sleeps _ _)); cbn.

(** A job in which stage [s] is the first to raise, with error [e]: it
    returns the unsuccessful result with [e] after the emergency releases
    of what the stages before [s] acquired, unless the capture had been
    started and its stop never settles; then the job does not return, and
    the capture stop is the only release invoked. *)
Lemma first_failure_outcome (opts : Record.Options) (o : Record.Oracle)
    (s : Record.Stage) (e : string) :
  Duration.validate (Record.autoDetectDuration opts) (Record.duration opts) = true →
  Record.first_failure opts o = Some (s, e) →
  let r := Record.recordUrl opts o in
  let held := filter (λ x, x ∈ Record.acquired_before s) Record.teardown_order in
  match (if bool_decide (Record.Capture ∈ Record.acquired_before s)
         then Record.capture_stop o 5000 else Some 0%N) with
  | Some _ =>
      r.1 = Record.Returns (Record.mkResult false (Record.outputPath opts) (Some e)) ∧
      Record.releases r.2 = held ∧
      Record.release_events r.2
      = (λ x, Record.Called (Record.release_call true x) (Record.release_ok o x)) <$> held
  | None =>
      r.1 = Record.NeverReturns ∧
      Record.releases r.2 = [Record.Capture] ∧
      Record.release_events r.2 = [Record.Called (Record.StopRecording 5000) false]
  end.
Proof.
  intros Hvalid Hfail r held. unfold r, held, Record.recordUrl. rewrite Hvalid.
  rewrite capture_held_stage.
  unfold Record.first_failure in Hfail. cbn in Hfail.
  unfold Record.try_block. exec.
  destruct (Record.startDisplay o) as [e1|n] eqn:H1; cbn.
  { simplify_eq. by count_releases. }
  destruct (Record.setupAudioRecording o) as [e2|] eqn:H2; cbn.
  { simplify_eq. by count_releases. }
  destruct (Record.launchBrowser o) as [e3|] eqn:H3; cbn.
  { simplify_eq. by count_releases. }
  destruct (Record.createPage o) as [e4|] eqn:H4; cbn.
  { simplify_eq. by count_releases. }
  destruct (Record.navigateToUrl o) as [e5|] eqn:H5; cbn.
  { simplify_eq. by count_releases. }
  destruct (Record.findVideoElement o) as [e6|] eqn:H6; cbn.
  { simplify_eq. by count_releases. }
  destruct (Record.getVideoMetadata o) as [e7|d] eqn:H7; cbn.
  { simplify_eq. by count_releases. }
  destruct (Duration.actualDuration (Record.autoDetectDuration opts) d (Record.duration opts))
    as [e8|actual] eqn:H8; cbn.
  { simplify_eq. by count_releases. }
  destruct (Record.startRecording o) as [e9|] eqn:H9; cbn.
  { simplify_eq. by count_releases. }
  destruct (Browser.playVideo Browser.defaults (Record.playVideo o)).1 as [e10|[]] eqn:H10; cbn.
  { simplify_eq. destruct (Record.capture_stop o 5000); cbn; by count_releases. }
  destruct (Record.parallelMode opts && Record.browser_process o) eqn:Hpar; [|done].
  destruct (Record.moveBrowserSinkInputs o) as [e11|] eqn:H11; [|done]. cbn.
  simplify_eq. destruct (Record.capture_stop o 5000); cbn; by count_releases.
Qed.

(** When such a job returns, it returns the unsuccessful result. *)
Lemma first_failure_returns (opts : Record.Options) (o : Record.Oracle)
    (s : Record.Stage) (e : string) (res : Record.Result) :
  Duration.validate (Record.autoDetectDuration opts) (Record.duration opts) = true →
  Record.first_failure opts o = Some (s, e) →
  (Record.recordUrl opts o).1 = Record.Returns res →
  res = Record.mkResult false (Record.outputPath opts) (Some e) ∧
  Record.releases (Record.recordUrl opts o).2
  = filter (λ x, x ∈ Record.acquired_before s) Record.teardown_order.
Proof.
  intros Hvalid Hfail Hres.
  pose proof (first_failure_outcome opts o s e Hvalid Hfail) as Hout. cbn zeta in Hout.
  destruct (if bool_decide _ then _ else _) as [t|].
  - destruct Hout as (Hr & Hrel & _). rewrite Hr in Hres. by simplify_eq.
  - destruct Hout as (Hr & _). rewrite Hr in Hres. discriminate Hres.
Qed.

(** Whether stopRecording settles does not depend on the grace period. *)
Lemma capture_stop_any_grace (o : Record.Oracle) (g1 g2 : N) :
  is_Some (Record.capture_stop o g1) → is_Some (Record.capture_stop o g2).
Proof.
  unfold Record.capture_stop, Cleanup.stopRecording, Cleanup.has_pid, Cleanup.node_kill,
    Cleanup.exit_time, Cleanup.exits_before.
  destruct (Record.ffmpeg o) as [[[|n]|] killed exited ls]; cbn; try by eauto.
  destruct exited, killed; cbn; try by eauto.
  - destruct (Record.ffmpeg_reacts o Cleanup.SIGINT) as [t|]; cbn; [|done].
    destruct (t <? g1)%N, (t <? g2)%N; cbn; by eauto.
  - destruct (Record.ffmpeg_reacts o Cleanup.SIGINT) as [t|]; cbn; [|done].
    destruct (t <? g1)%N, (t <? g2)%N; cbn; by eauto.
Qed.


(** C3, as stated, fails: the video of the job does not start playing,
    so playVideo throws after the capture was started, and ffmpeg does
    not end on SIGINT.  The capture stop of the emergency teardown never
    settles: the job does not return, and browser, display and sink are
    never released. *)
Lemma stuck_capture_blocks_teardown :
  ¬ Record.teardown_completes Record.sample_options Record.stuck_capture.
Proof.
  intros H.
  destruct (H Record.AtPlay "Could not start video playback after 3 attempts" eq_refl eq_refl)
    as [Hres _].
  vm_compute in Hres. discriminate Hres.
Qed.


Lemma clicks_no_playback (o : Record.Oracle) (sels : list string) :
  Forall (λ e, Record.is_playback e = false) (Record.click_events o sels).
Proof.
  induction sels as [|sel sels IH]; [constructor|].
  change (Record.click_events o (sel :: sels))
    with ([Record.Called (Record.ClickIfExists sel) (Record.clickIfExists o sel);
           Record.Slept 500] ++ Record.click_events o sels).
  apply Forall_app. split; [by repeat constructor|exact IH].
Qed.

Lemma capture_first_vacuous (settle : N) (tr : list Record.Event) :
  Forall (λ e, Record.is_playback e = false) tr → Record.capture_first settle tr.
Proof.
  intros Hall i e Hi. rewrite Forall_lookup in Hall. by specialize (Hall i _ Hi).
Qed.

Lemma capture_first_shape (settle : N) (pre rest : list Record.Event) :
  Forall (λ e, Record.is_playback e = false) pre →
  Record.capture_first settle
    (pre ++ Record.Called Record.StartRecording true :: Record.Slept settle :: rest).
Proof.
  intros Hpre i e Hi. exists (length pre).
  assert (length pre + 1 < i) as Hlt.
  { destruct (decide (i < length pre)) as [Hin|Hout].
    - rewrite lookup_app_l in Hi by done. rewrite Forall_lookup in Hpre.
      by specialize (Hpre i _ Hi).
    - rewrite lookup_app_r in Hi by lia.
      destruct (i - length pre) as [|[|k]] eqn:Hk; cbn in Hi; try done. lia. }
  split; [done|]. split.
  - rewrite lookup_app_r by lia. by rewrite Nat.sub_diag.
  - rewrite lookup_app_r by lia. by replace (length pre + 1 - length pre) with 1 by lia.
Qed.

Lemma before_capture_no_playback (opts : Record.Options) (o : Record.Oracle) :
  Forall (λ e, Record.is_playback e = false) (Record.before_capture opts o).
Proof.
  unfold Record.before_capture. repeat (apply Forall_app; split);
    [by repeat constructor|apply clicks_no_playback|by repeat constructor].
Qed.

Ltac no_playback :=
  repeat first
    [ apply List.Forall_nil
    | apply clicks_no_playback
    | apply List.Forall_cons; [reflexivity|]
    | apply Forall_app_2 ].

Ltac shape :=
  right; split;
    [ first
        [ eexists; unfold Record.before_capture; rewrite <- ?app_assoc; cbn;
          rewrite <- ?app_assoc; reflexivity
        | exists []; unfold Record.before_capture; rewrite <- ?app_assoc, ?app_nil_r; cbn;
          rewrite <- ?app_assoc; reflexivity ]
    | try (intros res [= <-]; (discriminate || done)) ].

(** The trace of a job either has no playback event, and then the job
    did not succeed, or starts with the events up to a completed capture
    start, the settle delay and the events of playVideo. *)
Lemma recordUrl_trace_shape (opts : Record.Options) (o : Record.Oracle) :
  let r := Record.recordUrl opts o in
  (Forall (λ e, Record.is_playback e = false) r.2 ∧
   ∀ res, r.1 = Record.Returns res → Record.success res = false) ∨
  ((∃ rest, r.2 = Record.before_capture opts o
       ++ Record.Called Record.StartRecording true :: Record.Slept 1000
       :: Record.playback_events o ++ rest) ∧
   ∀ res, r.1 = Record.Returns res → Record.success res = true →
     (Browser.playVideo Browser.defaults (Record.playVideo o)).1 = inr tt).
Proof.
  unfold Record.recordUrl.
  destruct (Duration.validate _ _).
  2: { left. split; [constructor|]. by intros res [= <-]. }
  unfold Record.try_block. exec.
  destruct (Record.startDisplay o) as [e1|n]; cbn.
  { left. split; [no_playback|]. by intros res [= <-]. }
  destruct (Record.setupAudioRecording o) as [e2|]; cbn.
  { left. split; [no_playback|]. by intros res [= <-]. }
  destruct (Record.launchBrowser o) as [e3|]; cbn.
  { left. split; [no_playback|]. by intros res [= <-]. }
  destruct (Record.createPage o) as [e4|]; cbn.
  { left. split; [no_playback|]. by intros res [= <-]. }
  destruct (Record.navigateToUrl o) as [e5|]; cbn.
  { left. split; [no_playback|]. by intros res [= <-]. }
  destruct (Record.findVideoElement o) as [e6|]; cbn.
  { left. split; [no_playback|]. by intros res [= <-]. }
  destruct (Record.getVideoMetadata o) as [e7|d]; cbn.
  { left. split; [no_playback|]. by intros res [= <-]. }
  destruct (Duration.actualDuration _ d _) as [e8|actual]; cbn.
  { left. split; [no_playback|]. by intros res [= <-]. }
  destruct (Record.startRecording o) as [e9|]; cbn.
  { left. split; [no_playback|]. by intros res [= <-]. }
  destruct (Browser.playVideo Browser.defaults (Record.playVideo o)).1 as [e10|[]]; cbn.
  { destruct (Record.capture_stop o 5000); cbn; shape. }
  destruct (Record.parallelMode opts && Record.browser_process o); cbn.
  - destruct (Record.moveBrowserSinkInputs o) as [e11|]; cbn.
    { destruct (Record.capture_stop o 5000); cbn; shape. }
    destruct (Js.loop_count _) as [k|]; cbn;
      [destruct (Record.capture_stop o 15000); cbn|]; shape.
  - destruct (Js.loop_count _) as [k|]; cbn;
      [destruct (Record.capture_stop o 15000); cbn|]; shape.
Qed.

Lemma attempt_body_returned_plays (opts : Browser.Options) (a : Browser.Attempt)
    (evs : list Browser.Event) :
  Browser.attempt_body opts a = (Browser.Returned, evs) → Browser.Play ∈ evs.
Proof.
  unfold Browser.attempt_body.
  destruct (Browser.clickToPlay opts), (Browser.click_ok a), (Browser.play a),
    (Browser.waitForPlay opts), (Browser.verify a) as [v|];
    cbn -[Browser.isPlaying]; try destruct (Browser.isPlaying v);
    intros [= <-]; set_solver.
Qed.

Lemma playVideo_loop_ok_plays (opts : Browser.Options) (oracle : nat → Browser.Attempt)
    (remaining attempt : nat) :
  (Browser.playVideo_loop opts oracle attempt remaining).1 = inr tt →
  Browser.Play ∈ (Browser.playVideo_loop opts oracle attempt remaining).2.
Proof.
  revert attempt. induction remaining as [|rem IH]; intros attempt; [done|].
  cbn [Browser.playVideo_loop]. specialize (IH (S attempt)).
  destruct (Browser.attempt_body opts (oracle attempt)) as [b evs] eqn:Hb.
  destruct (Browser.playVideo_loop opts oracle (S attempt) rem) as [res rest].
  cbn [fst snd] in IH. destruct b; cbn [fst snd].
  - intros _. apply attempt_body_returned_plays in Hb. set_solver.
  - intros Hres. specialize (IH Hres). set_solver.
  - case_decide; [done|]. cbn [fst snd]. intros Hres. specialize (IH Hres). set_solver.
Qed.


(** ** Batch runs *)

Lemma pool_inv_step (N K : nat) (job : nat → option Record.Result)
    (p : Batch.Pool) (a : Batch.PoolAction) :
  Batch.pool_inv N K job p → Batch.pool_inv N K job (Batch.pool_step K job p a).
Proof.
  intros Hinv. pose proof Hinv as (Hperm & Hbound & Hres).
  destruct a as [|k]; unfold Batch.pool_step.
  - destruct (Batch.queue p) as [|i q] eqn:Hq; [done|].
    destruct (length (Batch.inflight p) <? K) eqn:Hlt; [|done].
    apply Nat.ltb_lt in Hlt. split_and!; cbn.
    + rewrite <- Hperm. cbn. rewrite <- !app_assoc. cbn.
      rewrite !app_assoc. symmetry. apply Permutation_middle.
    + rewrite length_app. cbn. lia.
    + done.
  - destruct (Batch.inflight p !! k) as [i|] eqn:Hk; [|done].
    destruct (job i) as [r|] eqn:Hjob; [|done].
    split_and!; cbn.
    + rewrite <- Hperm. rewrite fmap_app. cbn.
      rewrite (delete_Permutation (Batch.inflight p) k i Hk) at 2.
      apply Permutation_app_head. cbn.
      rewrite (Permutation_app_comm _ [i]). cbn.
      by rewrite <- Permutation_middle.
    + rewrite length_delete by done. lia.
    + intros j r' [Hin|Hin%list_elem_of_singleton]%elem_of_app.
      * by apply Hres.
      * by simplify_eq.
Qed.

Lemma pool_inv_run (N K : nat) (job : nat → option Record.Result)
    (schedule : list Batch.PoolAction) (p : Batch.Pool) :
  Batch.pool_inv N K job p → Batch.pool_inv N K job (Batch.run_pool K job p schedule).
Proof.
  revert p. induction schedule as [|a schedule IH]; intros p Hp; [done|].
  cbn. apply IH. by apply pool_inv_step.
Qed.

Lemma pool_inv_start (N K : nat) (job : nat → option Record.Result) :
  Batch.pool_inv N K job (Batch.start_pool N).
Proof.
  split_and!; cbn.
  - by rewrite app_nil_r.
  - lia.
  - intros i r Hin. by apply elem_of_nil in Hin.
Qed.








(** C6, as stated, fails: in a batch of two URLs with two workers, the
    second job (its video does not start playing and its ffmpeg does not
    end on SIGINT) never returns; whatever the order of starts and
    completions, the batch does not come to its end and there is no
    record for the second URL. *)
Lemma stuck_job_blocks_batch :
  ¬ Batch.completes 2 2 (Batch.job_result (λ _, Record.sample_options) Batch.stuck_second).
Proof.
  intros [schedule [Hq Hin]].
  pose proof (pool_inv_run 2 2 (Batch.job_result (λ _, Record.sample_options) Batch.stuck_second)
                schedule _ (pool_inv_start 2 2 _)) as (Hperm & _ & Hres).
  rewrite Hq, Hin in Hperm. cbn in Hperm.
  assert (1 ∈ (Batch.finished
                 (Batch.run_pool 2 (Batch.job_result (λ _, Record.sample_options)
                    Batch.stuck_second) (Batch.start_pool 2) schedule)).*1) as Hone.
  { rewrite Hperm. apply list_elem_of_further, list_elem_of_here. }
  apply list_elem_of_fmap in Hone as ([j r] & Hj & Hjr). cbn in Hj. subst j.
  specialize (Hres 1 r Hjr). vm_compute in Hres. discriminate Hres.
Qed.



(** ** Further properties of the process registry *)

(** X1. [killProcess] resolves after 5000 ms at the latest, whatever the
    process does with the signal; for a process that has already exited
    (its handle still carrying a pid) no signal is delivered and the
    promise is resolved by the timer only, 5000 ms later. *)
Theorem killProcess_resolves_within_5s (p : option Cleanup.ChildProcess)
    (sig : Cleanup.Signal) (react : Cleanup.Signal → option N) :
  (∃ t, Cleanup.resolved_at (Cleanup.killProcess p sig react) = Some t ∧ (t ≤ 5000)%N) ∧
  (∀ p0, p = Some p0 → Cleanup.has_pid p0 = true → Cleanup.exited p0 = true →
     Cleanup.resolved_at (Cleanup.killProcess p sig react) = Some 5000%N).
Proof.
  split.
  - unfold Cleanup.killProcess. destruct p as [p|]; [|by exists 0%N].
    destruct (Cleanup.has_pid p); cbn; [|by exists 0%N].
    destruct (Cleanup.node_kill p) as [p1 delivered].
    destruct (Cleanup.exits_before _ 5000%N) eqn:Hb.
    + unfold Cleanup.exits_before in Hb. cbn.
      destruct (Cleanup.exit_time _ _ _) as [d|]; [|done].
      exists d. split; [done|]. apply N.ltb_lt in Hb. lia.
    + destruct (Cleanup.killed p1); cbn; [by exists 5000%N|].
      destruct (Cleanup.node_kill p1). by exists 5000%N.
  - intros p0 -> Hpid Hex. unfold Cleanup.killProcess, Cleanup.node_kill.
    rewrite Hpid, Hex. cbn. destruct (Cleanup.killed p0); cbn; by rewrite ?Hex.
Qed.

Lemma killProcess_resolves_within_5s_witness :
  Cleanup.resolved_at
    (Cleanup.killProcess (Some (Cleanup.mkProc (Some 77) false true [])) Cleanup.SIGTERM
       (λ _, Some 0%N)) = Some 5000%N.
Proof.
  destruct (killProcess_resolves_within_5s (Some (Cleanup.mkProc (Some 77) false true []))
    Cleanup.SIGTERM (λ _, Some 0%N)) as [_ H].
  apply (H (Cleanup.mkProc (Some 77) false true [])); reflexivity.
Defined.

(** X2. [stopRecording] on a process that is running when it is called:
    SIGINT is the only signal sent and the promise resolves exactly when
    the process exits, never from the timer; the grace period has no
    effect on the outcome. *)
Theorem stopRecording_grace_has_no_effect (p : Cleanup.ChildProcess)
    (gracePeriod : N) (react : Cleanup.Signal → option N) :
  Cleanup.has_pid p = true → Cleanup.exited p = false →
  Cleanup.stopRecording (Some p) gracePeriod react
  = Cleanup.mkKill [Cleanup.SIGINT] (react Cleanup.SIGINT)
      (bool_decide (react Cleanup.SIGINT = None)).
Proof.
  intros Hpid Hex. unfold Cleanup.stopRecording.
  rewrite Hpid, (node_kill_live p Hex). cbn.
  destruct (react Cleanup.SIGINT) as [d|] eqn:Hr; cbn; [|done].
  by destruct (d <? gracePeriod)%N.
Qed.

Lemma stopRecording_grace_has_no_effect_witness :
  Cleanup.stopRecording (Some (Cleanup.running 4242)) 15000%N (λ _, Some 20000%N)
  = Cleanup.mkKill [Cleanup.SIGINT] (Some 20000%N) false.
Proof.
  apply (stopRecording_grace_has_no_effect (Cleanup.running 4242) 15000%N (λ _, Some 20000%N));
    reflexivity.
Defined.

(** X3. [stopDisplay] on a process that is running when it is called
    resolves after 5000 ms at the latest; SIGKILL follows SIGTERM exactly
    when the process has not exited within the 5000 ms. *)
Theorem stopDisplay_escalates (p : Cleanup.ChildProcess) (react : Cleanup.Signal → option N) :
  Cleanup.has_pid p = true → Cleanup.exited p = false →
  let r := Cleanup.stopDisplay_kill (Some p) react in
  (∃ t, Cleanup.resolved_at r = Some t ∧ (t ≤ 5000)%N) ∧
  Cleanup.alive_after r = false ∧
  Cleanup.signals_sent r
  = if Cleanup.exits_before (react Cleanup.SIGTERM) 5000%N
    then [Cleanup.SIGTERM] else [Cleanup.SIGTERM; Cleanup.SIGKILL].
Proof.
  intros Hpid Hex. unfold Cleanup.stopDisplay_kill.
  unfold Cleanup.has_pid in Hpid. destruct (Cleanup.pid p) as [[|n]|]; try done.
  rewrite (node_kill_live p Hex). cbn.
  destruct (Cleanup.exits_before (react Cleanup.SIGTERM) 5000%N) eqn:Hb; cbn.
  - split_and!; [|done..]. unfold Cleanup.exits_before in Hb.
    destruct (react Cleanup.SIGTERM) as [d|]; [|done].
    exists d. split; [done|]. apply N.ltb_lt in Hb. lia.
  - unfold Cleanup.node_kill. cbn. rewrite Hex. cbn. split_and!; [|done..].
    by exists 5000%N.
Qed.

Lemma stopDisplay_escalates_witness :
  Cleanup.signals_sent (Cleanup.stopDisplay_kill (Some (Cleanup.running 4242)) Cleanup.stubborn)
  = [Cleanup.SIGTERM; Cleanup.SIGKILL].
Proof.
  destruct (stopDisplay_escalates (Cleanup.running 4242) Cleanup.stubborn eq_refl eq_refl)
    as (_ & _ & H).
  exact H.
Defined.

(** X4. [trackProcess] and [untrackProcess]: a missing handle or a
    handle without pid leaves the registry as it is; tracking under a
    name that is in use replaces the entry, the process tracked before is
    forgotten; untracking after tracking gives the registry without that
    name, which is the registry from before when the name was new; and
    untracking a name that is not tracked changes nothing. *)
Theorem track_untrack_registry (s : Cleanup.Sys) (name : string) (a : nat)
    (p : Cleanup.ChildProcess) :
  Cleanup.heap s !! a = Some p →
  (Cleanup.trackProcess name None s = s) ∧
  (Cleanup.has_pid p = false → Cleanup.trackProcess name (Some a) s = s) ∧
  (Cleanup.has_pid p = true →
     Cleanup.processes (Cleanup.trackProcess name (Some a) s) !! name = Some a ∧
     (∀ b, Cleanup.processes
             (Cleanup.trackProcess name (Some a) (Cleanup.trackProcess name (Some b) s))
           = Cleanup.processes (Cleanup.trackProcess name (Some a) s)) ∧
     Cleanup.processes (Cleanup.untrackProcess name (Cleanup.trackProcess name (Some a) s))
     = delete name (Cleanup.processes s) ∧
     (Cleanup.processes s !! name = None →
      Cleanup.untrackProcess name (Cleanup.trackProcess name (Some a) s) = s)) ∧
  (Cleanup.processes s !! name = None → Cleanup.untrackProcess name s = s).
Proof.
  intros Ha. split_and!.
  - done.
  - intros Hpid. unfold Cleanup.trackProcess. by rewrite Ha, Hpid.
  - intros Hpid.
    assert (∀ s', Cleanup.heap s' = Cleanup.heap s →
      Cleanup.trackProcess name (Some a) s' = Cleanup.with_processes (<[name := a]>) s')
      as Htrack.
    { intros s' Hs'. unfold Cleanup.trackProcess. by rewrite Hs', Ha, Hpid. }
    rewrite (Htrack s eq_refl). split_and!.
    + cbn. apply lookup_insert_eq.
    + intros b. rewrite Htrack.
      * unfold Cleanup.trackProcess.
        destruct (Cleanup.heap s !! b) as [q|]; [|done].
        destruct (Cleanup.has_pid q); [|done]. cbn. apply insert_insert_eq.
      * unfold Cleanup.trackProcess.
        destruct (Cleanup.heap s !! b) as [q|]; [|done]. by destruct (Cleanup.has_pid q).
    + unfold Cleanup.untrackProcess. cbn. rewrite lookup_insert_eq. cbn.
      apply delete_insert_eq.
    + intros Hnew. unfold Cleanup.untrackProcess. cbn. rewrite lookup_insert_eq.
      unfold Cleanup.with_processes. cbn. rewrite delete_insert_eq, delete_id by done.
      by destruct s.
  - intros Hnew. unfold Cleanup.untrackProcess. by rewrite Hnew.
Qed.

Lemma track_untrack_registry_witness :
  let s := Cleanup.mkSys {[ 0 := Cleanup.running 4242 ]} ∅ [] false [] in
  Cleanup.untrackProcess "xvfb" (Cleanup.trackProcess "xvfb" (Some 0) s) = s.
Proof.
  intros s.
  destruct (track_untrack_registry s "xvfb" 0 (Cleanup.running 4242) eq_refl)
    as (_ & _ & H & _).
  destruct (H eq_refl) as (_ & _ & _ & H').
  apply H'. reflexivity.
Defined.

(** One cleanup pass with nothing else in flight, from the handler loop
    on. *)
Lemma emit_emit (es es' : list Cleanup.Event) (s : Cleanup.Sys) :
  Cleanup.emit es (Cleanup.emit es' s) = Cleanup.emit (es' ++ es) s.
Proof. unfold Cleanup.emit. cbn. by rewrite app_assoc. Qed.

Lemma sched_step_single (pc : Cleanup.Pc) (s : Cleanup.Sys) :
  Cleanup.sched_step (Cleanup.mkConfig s [pc]) 0
  = Cleanup.mkConfig (Cleanup.cleanupAll_step pc s).2 [(Cleanup.cleanupAll_step pc s).1].
Proof. unfold Cleanup.sched_step. cbn. by destruct (Cleanup.cleanupAll_step pc s). Qed.

Lemma run_cons (c : Cleanup.Config) (i : nat) (l : list nat) :
  Cleanup.run c (i :: l) = Cleanup.run (Cleanup.sched_step c i) l.
Proof. reflexivity. Qed.

Lemma run_handlers_alone (k i : nat) (s : Cleanup.Sys) :
  i + k = length (Cleanup.cleanupHandlers s) →
  Cleanup.run (Cleanup.mkConfig s [Cleanup.PcHandlers i]) (replicate (k + 3) 0)
  = Cleanup.mkConfig
      (Cleanup.emit [Cleanup.EvClear]
         (Cleanup.with_processes (λ _, ∅)
            (Cleanup.kill_tracked
               (Cleanup.emit (Cleanup.EvHandler <$> drop i (Cleanup.cleanupHandlers s)) s))))
      [Cleanup.PcReturned true].
Proof.
  revert i s. induction k as [|k IH]; intros i s Hlen.
  - change (replicate (0 + 3) 0) with [0; 0; 0].
    rewrite run_cons, sched_step_single. cbn [Cleanup.cleanupAll_step].
    rewrite lookup_ge_None_2 by lia. cbn [fst snd].
    rewrite run_cons, sched_step_single. cbn [Cleanup.cleanupAll_step fst snd].
    rewrite run_cons, sched_step_single. cbn [Cleanup.cleanupAll_step fst snd].
    rewrite drop_ge by lia.
    replace (Cleanup.emit (Cleanup.EvHandler <$> []) s) with s; [done|].
    unfold Cleanup.emit. cbn. rewrite app_nil_r. by destruct s.
  - destruct (lookup_lt_is_Some_2 (Cleanup.cleanupHandlers s) i) as [h Hh]; [lia|].
    change (replicate (S k + 3) 0) with (0 :: replicate (k + 3) 0).
    rewrite run_cons, sched_step_single. cbn [Cleanup.cleanupAll_step].
    rewrite Hh. cbn [fst snd].
    rewrite IH by (cbn; lia). cbn [Cleanup.cleanupHandlers Cleanup.emit].
    rewrite emit_emit. by rewrite (drop_S _ _ _ Hh).
Qed.

Lemma cleanupAll_alone_spec (s : Cleanup.Sys) :
  Cleanup.cleanupAll_alone s
  = if Cleanup.isCleaningUp s then Cleanup.emit [Cleanup.EvSkip] s
    else Cleanup.emit [Cleanup.EvClear]
           (Cleanup.with_processes (λ _, ∅)
              (Cleanup.kill_tracked
                 (Cleanup.emit (Cleanup.EvStart :: (Cleanup.EvHandler <$> Cleanup.cleanupHandlers s))
                    (Cleanup.with_flag true s)))).
Proof.
  unfold Cleanup.cleanupAll_alone, Cleanup.invoke_n, Cleanup.fuel.
  replace (length (Cleanup.cleanupHandlers s) + 4)
    with (S (length (Cleanup.cleanupHandlers s) + 3)) by lia.
  cbn [replicate]. rewrite run_cons, sched_step_single. cbn [Cleanup.cleanupAll_step].
  destruct (Cleanup.isCleaningUp s) eqn:Hflag; cbn [fst snd].
  - induction (length (Cleanup.cleanupHandlers s) + 3) as [|n IH]; [done|].
    cbn [replicate]. by rewrite run_cons, sched_step_single.
  - rewrite run_handlers_alone by (cbn; lia). cbn [Cleanup.sys].
    cbn [Cleanup.cleanupHandlers Cleanup.emit Cleanup.with_flag].
    by rewrite emit_emit.
Qed.

Lemma kill_targets_lookup (targets : list nat) (hp : gmap nat Cleanup.ChildProcess)
    (a : nat) (p : Cleanup.ChildProcess) :
  hp !! a = Some p →
  ∃ p', foldr (λ a hp, alter (λ p, (Cleanup.node_kill p).1) a hp) hp targets !! a = Some p' ∧
        Cleanup.exited p' = Cleanup.exited p ∧
        (a ∈ targets → Cleanup.exited p = false → Cleanup.killed p' = true) ∧
        (a ∉ targets → p' = p).
Proof.
  intros Ha. induction targets as [|b targets IH].
  - exists p. cbn. split_and!; [done..| |done]. by intros ?%elem_of_nil.
  - destruct IH as (p' & Hp' & Hex & Hin & Hout). cbn [foldr].
    destruct (decide (b = a)) as [->|Hne].
    + exists (Cleanup.node_kill p').1. rewrite lookup_alter_eq, Hp'. cbn.
      unfold Cleanup.node_kill. split_and!.
      * done.
      * by destruct (Cleanup.exited p') eqn:He; cbn; rewrite <- ?Hex.
      * intros _ Hlive. rewrite Hex, Hlive. done.
      * intros Hn. exfalso. apply Hn. apply list_elem_of_here.
    + exists p'. rewrite lookup_alter_ne by done. split_and!; [done..| |].
      * intros [?|?]%elem_of_cons; [congruence|by apply Hin].
      * intros Hn. apply Hout. intros ?. apply Hn. by apply list_elem_of_further.
Qed.

(** X5. [withCleanup(fn)] hands on what [fn] returned or threw, and has
    run [cleanupAll] when it is over.  When no cleanup pass had started
    before, that pass is complete: the handlers, a kill for each tracked
    process, the clearing; afterwards the registry is empty, every tracked
    process that was still running has been sent a signal, and a process
    that was not tracked has not been touched.  When a pass had started
    before (a signal handler), the call is skipped and the registry and
    the processes stay as [fn] left them. *)
Theorem withCleanup_runs_cleanup {E A : Type} (fn : Cleanup.Sys → (E + A) * Cleanup.Sys)
    (s : Cleanup.Sys) :
  let s1 := (fn s).2 in
  let r := Cleanup.withCleanup fn s in
  r.1 = (fn s).1 ∧
  Cleanup.isCleaningUp r.2 = true ∧
  (Cleanup.isCleaningUp s1 = false →
     Cleanup.processes r.2 = ∅ ∧
     Cleanup.log r.2 = Cleanup.log s1 ++ Cleanup.full_pass s1 ∧
     ∀ a p, Cleanup.heap s1 !! a = Some p →
       ∃ p', Cleanup.heap r.2 !! a = Some p' ∧
         ((∃ name, Cleanup.processes s1 !! name = Some a) → Cleanup.exited p = false →
            Cleanup.killed p' = true) ∧
         ((∀ name, Cleanup.processes s1 !! name ≠ Some a) → p' = p)) ∧
  (Cleanup.isCleaningUp s1 = true →
     Cleanup.processes r.2 = Cleanup.processes s1 ∧ Cleanup.heap r.2 = Cleanup.heap s1 ∧
     Cleanup.log r.2 = Cleanup.log s1 ++ [Cleanup.EvSkip]).
Proof.
  intros s1 r. subst r. unfold Cleanup.withCleanup.
  destruct (fn s) as [res s1'] eqn:Hfn. subst s1. cbn [fst snd].
  rewrite cleanupAll_alone_spec. split_and!.
  - done.
  - by destruct (Cleanup.isCleaningUp s1') eqn:Hflag.
  - intros ->. cbn. split_and!.
    + done.
    + unfold Cleanup.full_pass. by rewrite <- !app_assoc.
    + intros a p Ha.
      destruct (kill_targets_lookup (map_to_list (Cleanup.processes s1')).*2
                  (Cleanup.heap s1') a p Ha) as (p' & Hp' & _ & Hin & Hout).
      exists p'. split_and!; [done| |].
      * intros [name Hname] Hlive. apply Hin; [|done].
        apply list_elem_of_fmap. exists (name, a). split; [done|].
        by apply elem_of_map_to_list.
      * intros Hnone. apply Hout. intros ((name & a') & -> & Hel%elem_of_map_to_list)%list_elem_of_fmap.
        by apply (Hnone name).
  - by intros ->.
Qed.

Lemma withCleanup_runs_cleanup_witness :
  let s := Cleanup.mkSys {[ 0 := Cleanup.running 4242 ]} ∅ [7] false [] in
  let fn := λ s, (inl "navigation failed" : string + unit,
                  Cleanup.trackProcess "xvfb" (Some 0) s) in
  (Cleanup.withCleanup fn s).1 = inl "navigation failed" ∧
  Cleanup.processes (Cleanup.withCleanup fn s).2 = ∅ ∧
  Cleanup.log (Cleanup.withCleanup fn s).2
  = [Cleanup.EvStart; Cleanup.EvHandler 7; Cleanup.EvKill "xvfb"; Cleanup.EvClear].
Proof.
  intros s fn.
  destruct (withCleanup_runs_cleanup fn s) as (Hres & _ & Hpass & _).
  destruct (Hpass eq_refl) as (Hreg & Hlog & _).
  split_and!; [exact Hres|exact Hreg|exact Hlog].
Defined.

(** ** Further properties of the display allocation *)




(** ** Further properties of the duration of the capture *)

(** X7. The duration computed by main of the single-URL record.js is the
    one computed by recordUrl for every detected duration but Infinity;
    a detected duration of Infinity (a live stream) is taken by main as
    the duration, whatever --duration says, and the wait loop over the
    total time then never ends. *)
Theorem main_duration_differs_at_infinity (auto : bool) (d : Js.number)
    (m : option Js.number) (b : Q) :
  (d ≠ Js.PosInf →
   Duration.actualDuration_main auto d m = Duration.actualDuration auto d m) ∧
  Duration.actualDuration_main true Js.PosInf m = inr (Some Js.PosInf) ∧
  Js.loop_count (Record.total_time (Some Js.PosInf) (Js.Fin b)) = None ∧
  Duration.actualDuration true Js.PosInf m
  = (if Js.truthy_opt m then inr m else inl Duration.AutoDetectFailed).
Proof.
  split_and!; [|reflexivity..].
  intros Hd. unfold Duration.actualDuration_main, Duration.actualDuration, Duration.usable.
  destruct auto; [|done]. destruct d as [| | |q]; [done..|].
  unfold Js.truthy_opt, Js.truthy, Js.gt0, Js.isFinite.
  destruct (Qeq_bool q 0) eqn:E; cbn [negb andb]; rewrite ?E; cbn [negb andb];
    rewrite ?andb_true_r; reflexivity.
Qed.

Lemma main_duration_differs_at_infinity_witness :
  Duration.actualDuration_main true (Js.Fin (5 # 2)) None
  = Duration.actualDuration true (Js.Fin (5 # 2)) None.
Proof.
  destruct (main_duration_differs_at_infinity true (Js.Fin (5 # 2)) None 2) as (H & _).
  apply H. discriminate.
Defined.

Lemma to_double_comp (p q : Q) : (p == q)%Q → Js.to_double p = Js.to_double q.
Proof. intros H. unfold Js.to_double. by rewrite (Qred_complete p q H). Qed.








(** ** Further properties of playVideo *)

Lemma first_success_Some (opts : Browser.Options) (oracle : nat → Browser.Attempt)
    (remaining attempt k : nat) :
  Browser.first_success opts oracle attempt remaining = Some k →
  k < remaining ∧ Browser.succeeds opts (oracle (attempt + k)) = true ∧
  ∀ j, j < k → Browser.succeeds opts (oracle (attempt + j)) = false.
Proof.
  revert attempt k. induction remaining as [|rem IH]; intros attempt k; cbn; [done|].
  destruct (Browser.succeeds opts (oracle attempt)) eqn:Hs.
  - intros [= <-]. rewrite Nat.add_0_r. split_and!; [lia|done|intros; lia].
  - destruct (Browser.first_success opts oracle (S attempt) rem) as [k'|] eqn:Hfs; [|done].
    cbn. intros [= <-]. destruct (IH _ _ Hfs) as (Hk & Hok & Hbelow).
    split_and!; [lia|by rewrite Nat.add_succ_r|].
    intros [|j] Hj; [by rewrite Nat.add_0_r|].
    rewrite Nat.add_succ_r. apply (Hbelow j). lia.
Qed.

Lemma first_success_None (opts : Browser.Options) (oracle : nat → Browser.Attempt)
    (remaining attempt : nat) :
  Browser.first_success opts oracle attempt remaining = None →
  ∀ j, j < remaining → Browser.succeeds opts (oracle (attempt + j)) = false.
Proof.
  revert attempt. induction remaining as [|rem IH]; intros attempt; cbn; [intros; lia|].
  destruct (Browser.succeeds opts (oracle attempt)) eqn:Hs; [done|].
  destruct (Browser.first_success opts oracle (S attempt) rem) as [k'|] eqn:Hfs; [done|].
  intros _ [|j] Hj; [by rewrite Nat.add_0_r|].
  rewrite Nat.add_succ_r. apply (IH _ Hfs j). lia.
Qed.

(** X9. [playVideo] with any options.  It returns exactly when one of
    the attempts 1 to [maxAttempts] succeeds; it then has stopped with
    the first attempt that succeeds and made none after it; when it
    throws, it has made all [maxAttempts] attempts; with
    [maxAttempts = 0] it throws without an attempt.  Its events are those
    of the attempts made, each but the last followed by the wait of one
    second. *)
Theorem playVideo_stops_at_first_success (opts : Browser.Options)
    (oracle : nat → Browser.Attempt) :
  let r := Browser.playVideo opts oracle in
  let n := Browser.attempts r.2 in
  (r.1 = inr tt ↔
   ∃ k, 1 ≤ k ∧ k ≤ Browser.maxAttempts opts ∧ Browser.succeeds opts (oracle k) = true) ∧
  (r.1 = inr tt →
   Browser.succeeds opts (oracle n) = true ∧
   ∀ j, 1 ≤ j → j < n → Browser.succeeds opts (oracle j) = false) ∧
  ((∃ e, r.1 = inl e) → n = Browser.maxAttempts opts) ∧
  n ≤ Browser.maxAttempts opts ∧
  r.2 = Browser.segments opts oracle 1 n ∧
  (Browser.maxAttempts opts = 0 → r = (inl (Browser.CouldNotStart 0), [])).
Proof.
  intros r n. subst n r. unfold Browser.playVideo.
  pose proof (playVideo_loop_spec opts oracle (Browser.maxAttempts opts) 1) as Hspec.
  cbn zeta in Hspec.
  destruct (Browser.first_success opts oracle 1 (Browser.maxAttempts opts)) as [k|] eqn:Hfs.
  - destruct Hspec as (Hres & Hev & Hk).
    apply first_success_Some in Hfs as (_ & Hok & Hbelow).
    rewrite Hres, Hev, attempts_segments. split_and!.
    + split; [|done]. intros _. exists (S k). split_and!; [lia|lia|done].
    + intros _. split; [done|]. intros [|j] ? ?; [lia|]. apply (Hbelow j). lia.
    + by intros [e ?].
    + lia.
    + done.
    + intros H0. lia.
  - destruct Hspec as ([e Hres] & Hev).
    pose proof (first_success_None _ _ _ _ Hfs) as Hnone.
    rewrite Hres, Hev, attempts_segments. split_and!.
    + split; [done|]. intros (k & Hk1 & Hk2 & Hok).
      exfalso. specialize (Hnone (k - 1) ltac:(lia)).
      replace (1 + (k - 1)) with k in Hnone by lia. congruence.
    + done.
    + done.
    + done.
    + done.
    + intros H0. rewrite H0 in *. cbn. by rewrite H0.
Qed.

Lemma playVideo_stops_at_first_success_witness :
  (Browser.playVideo (Browser.mkOptions false true 5)
     (λ k, if decide (k = 4) then Browser.good else Browser.stalled)).1 = inr tt.
Proof.
  destruct (playVideo_stops_at_first_success (Browser.mkOptions false true 5)
    (λ k, if decide (k = 4) then Browser.good else Browser.stalled)) as (H & _).
  apply H. exists 4. split_and!; [cbn; lia|cbn; lia|reflexivity].
Defined.

(** The error of the loop is decided by how its last attempt ended. *)
Lemma playVideo_loop_error (opts : Browser.Options) (oracle : nat → Browser.Attempt)
    (remaining attempt : nat) (e : Browser.Error) :
  (Browser.playVideo_loop opts oracle attempt remaining).1 = inl e →
  e = match remaining with
      | 0 => Browser.CouldNotStart (Browser.maxAttempts opts)
      | S r =>
          match (Browser.attempt_body opts (oracle (attempt + r))).1 with
          | Browser.Threw => Browser.FailedToPlay (Browser.maxAttempts opts)
          | _ => Browser.CouldNotStart (Browser.maxAttempts opts)
          end
      end.
Proof.
  revert attempt. induction remaining as [|rem IH]; intros attempt.
  - cbn. by intros [= <-].
  - cbn [Browser.playVideo_loop].
    destruct (Browser.attempt_body opts (oracle attempt)) as [b evs] eqn:Hb.
    specialize (IH (S attempt)).
    destruct (Browser.playVideo_loop opts oracle (S attempt) rem) as [res rest].
    cbn [fst] in IH.
    destruct b; cbn [fst].
    + done.
    + intros Hres. specialize (IH Hres). destruct rem as [|rem'].
      * rewrite Nat.add_0_r, Hb. done.
      * by rewrite Nat.add_succ_r.
    + case_decide as Hrem.
      * subst rem. cbn. intros [= <-]. by rewrite Nat.add_0_r, Hb.
      * intros Hres. specialize (IH Hres). destruct rem as [|rem']; [done|].
        by rewrite Nat.add_succ_r.
Qed.

(** X10. When [playVideo] throws, the message is the one of the catch
    block ('Failed to play video after n attempts') exactly when an await
    of the last attempt rejected, and the one after the loop ('Could not
    start video playback after n attempts') when in the last attempt
    [play()] was refused or the verification read an element that is not
    playing, or when no attempt was made. *)
Theorem playVideo_error_kind (opts : Browser.Options) (oracle : nat → Browser.Attempt) :
  (Browser.playVideo opts oracle).1 ≠ inr tt →
  (Browser.playVideo opts oracle).1
  = inl (if decide (Browser.maxAttempts opts = 0)
         then Browser.CouldNotStart (Browser.maxAttempts opts)
         else match (Browser.attempt_body opts (oracle (Browser.maxAttempts opts))).1 with
              | Browser.Threw => Browser.FailedToPlay (Browser.maxAttempts opts)
              | _ => Browser.CouldNotStart (Browser.maxAttempts opts)
              end).
Proof.
  unfold Browser.playVideo. intros Hne.
  destruct (Browser.playVideo_loop opts oracle 1 (Browser.maxAttempts opts)).1
    as [e|[]] eqn:Hres; [|done].
  apply playVideo_loop_error in Hres. f_equal.
  destruct (Browser.maxAttempts opts) as [|r]; [done|].
  rewrite decide_False by lia. by rewrite Hres.
Qed.

Lemma playVideo_error_kind_witness :
  (Browser.playVideo Browser.defaults
     (λ _, Browser.mkAttempt false Browser.PlayStarted None)).1
  = inl (Browser.FailedToPlay 3).
Proof.
  apply (playVideo_error_kind Browser.defaults
           (λ _, Browser.mkAttempt false Browser.PlayStarted None)).
  discriminate.
Defined.

Lemma total_sleep_app (l1 l2 : list Browser.Event) :
  Browser.total_sleep (l1 ++ l2) = (Browser.total_sleep l1 + Browser.total_sleep l2)%N.
Proof.
  unfold Browser.total_sleep. induction l1 as [|e l1 IH]; cbn; [done|].
  rewrite IH. lia.
Qed.

Lemma attempt_body_sleep (opts : Browser.Options) (a : Browser.Attempt) :
  (Browser.total_sleep (Browser.attempt_body opts a).2 ≤ 1500)%N.
Proof.
  unfold Browser.attempt_body.
  destruct (Browser.clickToPlay opts), (Browser.click_ok a), (Browser.play a),
    (Browser.waitForPlay opts), (Browser.verify a) as [v|];
    cbn -[Browser.isPlaying]; try destruct (Browser.isPlaying v); cbn; lia.
Qed.

Lemma segments_sleep (opts : Browser.Options) (oracle : nat → Browser.Attempt)
    (n attempt : nat) :
  (Browser.total_sleep (Browser.segments opts oracle attempt n)
   ≤ 1500 * N.of_nat n + 1000 * N.of_nat (n - 1))%N.
Proof.
  revert attempt. induction n as [|n IH]; intros attempt; [cbn; lia|].
  rewrite segments_S, total_sleep_app.
  change (Browser.Attempted attempt :: ?l) with ([Browser.Attempted attempt] ++ l).
  rewrite !total_sleep_app.
  pose proof (attempt_body_sleep opts (oracle attempt)) as Hbody.
  specialize (IH (S attempt)).
  case_decide as Hn.
  - subst n. cbn in *. lia.
  - change (Browser.total_sleep [Browser.Attempted attempt]) with 0%N.
    change (Browser.total_sleep [Browser.Sleep 1000]) with 1000%N.
    replace (S n - 1) with (S (n - 1)) by lia. lia.
Qed.

(** X11. The time [playVideo] spends in [sleep]: at most 1500 ms in
    each attempt and 1000 ms between two attempts, so at most 6500 ms
    with the default options. *)
Theorem playVideo_sleeps_at_most (opts : Browser.Options) (oracle : nat → Browser.Attempt) :
  let r := Browser.playVideo opts oracle in
  (Browser.total_sleep r.2
   ≤ 1500 * N.of_nat (Browser.attempts r.2) + 1000 * N.of_nat (Browser.attempts r.2 - 1))%N ∧
  (Browser.total_sleep r.2
   ≤ 1500 * N.of_nat (Browser.maxAttempts opts)
     + 1000 * N.of_nat (Browser.maxAttempts opts - 1))%N ∧
  (Browser.total_sleep (Browser.playVideo Browser.defaults oracle).2 ≤ 6500)%N.
Proof.
  assert (∀ opts, ∃ n, n ≤ Browser.maxAttempts opts ∧
            (Browser.playVideo opts oracle).2 = Browser.segments opts oracle 1 n) as Hseg.
  { intros o. unfold Browser.playVideo.
    pose proof (playVideo_loop_spec o oracle (Browser.maxAttempts o) 1) as Hspec.
    cbn zeta in Hspec.
    destruct (Browser.first_success o oracle 1 (Browser.maxAttempts o)) as [k|].
    - destruct Hspec as (_ & Hev & Hk). exists (S k). split; [lia|done].
    - destruct Hspec as (_ & Hev). by eexists. }
  intros r. subst r. split_and!.
  - destruct (Hseg opts) as (n & Hn & ->). rewrite attempts_segments. apply segments_sleep.
  - destruct (Hseg opts) as (n & Hn & ->).
    etrans; [apply segments_sleep|]. lia.
  - destruct (Hseg Browser.defaults) as (n & Hn & ->).
    etrans; [apply segments_sleep|]. cbn in Hn. lia.
Qed.

Lemma verify_not_in_segments (opts : Browser.Options) (oracle : nat → Browser.Attempt)
    (n attempt : nat) :
  Browser.waitForPlay opts = false →
  Browser.Verify ∉ Browser.segments opts oracle attempt n.
Proof.
  intros Hw. revert attempt. induction n as [|n IH]; intros attempt.
  - cbn. by intros ?%elem_of_nil.
  - rewrite segments_S. intros Hin. apply elem_of_app in Hin as [Hin|Hin]; [|by apply IH in Hin].
    apply elem_of_cons in Hin as [?|Hin]; [done|].
    apply elem_of_app in Hin as [Hin|Hin].
    + unfold Browser.attempt_body in Hin. rewrite Hw in Hin.
      destruct (Browser.clickToPlay opts), (Browser.click_ok (oracle attempt)),
        (Browser.play (oracle attempt)); cbn in Hin;
        repeat (apply elem_of_cons in Hin as [?|Hin]; [done|]); by apply elem_of_nil in Hin.
    + case_decide; [by apply elem_of_nil in Hin|].
      apply elem_of_cons in Hin as [?|Hin]; [done|]. by apply elem_of_nil in Hin.
Qed.

(** X12. With [waitForPlay: false], [playVideo] never reads the state of
    the element: an attempt succeeds as soon as the click (when
    [clickToPlay] is on) and [play()] went through, and the call returns
    then, whether the video plays or not. *)
Theorem playVideo_without_verification (opts : Browser.Options)
    (oracle : nat → Browser.Attempt) :
  Browser.waitForPlay opts = false →
  (Browser.Verify ∉ (Browser.playVideo opts oracle).2) ∧
  ∀ a, Browser.succeeds opts a = true ↔
       (Browser.clickToPlay opts = true → Browser.click_ok a = true) ∧
       Browser.play a = Browser.PlayStarted.
Proof.
  intros Hw. split.
  - unfold Browser.playVideo.
    pose proof (playVideo_loop_spec opts oracle (Browser.maxAttempts opts) 1) as Hspec.
    cbn zeta in Hspec.
    destruct (Browser.first_success opts oracle 1 (Browser.maxAttempts opts)) as [k|].
    + destruct Hspec as (_ & -> & _). by apply verify_not_in_segments.
    + destruct Hspec as (_ & ->). by apply verify_not_in_segments.
  - intros a. unfold Browser.succeeds, Browser.attempt_body. rewrite Hw.
    destruct (Browser.clickToPlay opts), (Browser.click_ok a), (Browser.play a); cbn;
      split; try done; try (intros [? ?]; done); try (intros [H ?]; by specialize (H eq_refl)).
Qed.

Lemma playVideo_without_verification_witness :
  Browser.succeeds (Browser.mkOptions true false 3) Browser.stalled = true.
Proof.
  destruct (playVideo_without_verification (Browser.mkOptions true false 3)
    (λ _, Browser.stalled) eq_refl) as (_ & H).
  apply H. split; reflexivity.
Defined.

(** ** Further properties of a recording job *)

Lemma acquisitions_clicks (o : Record.Oracle) (sels : list string) :
  omap Record.is_acquire (Record.click_events o sels) = [].
Proof. induction sels as [|sel sels IH]; [done|]. exact IH. Qed.

Lemma acquisitions_playback (o : Record.Oracle) :
  omap Record.is_acquire (Record.playback_events o) = [].
Proof.
  unfold Record.playback_events.
  induction (Browser.playVideo Browser.defaults (Record.playVideo o)).2 as [|e l IH]; [done|].
  exact IH.
Qed.

Lemma acquisitions_sleeps (n : nat) (ms : N) :
  omap Record.is_acquire (replicate n (Record.Slept ms)) = [].
Proof. induction n as [|n IH]; [done|]. exact IH. Qed.

Lemma acquired_before_stage (s : Record.Stage) :
  Record.acquired_before s
  = match s with
    | Record.AtStartDisplay => []
    | Record.AtSetupAudio => [Record.TheDisplay]
    | Record.AtLaunchBrowser => [Record.TheDisplay; Record.AudioSink]
    | Record.AtCreatePage | Record.AtNavigate | Record.AtFindVideo | Record.AtMetadata
    | Record.AtDuration | Record.AtStartRecording =>
        [Record.TheDisplay; Record.AudioSink; Record.TheBrowser]
    | Record.AtPlay | Record.AtMoveSinkInputs =>
        [Record.TheDisplay; Record.AudioSink; Record.TheBrowser; Record.Capture]
    end.
Proof. destruct s; vm_compute; reflexivity. Qed.

Ltac count_acquisitions :=
  rewrite ?acquired_before_stage; unfold Record.acquisitions; cbn;
  rewrite ?omap_app, ?acquisitions_clicks, ?acquisitions_playback, ?acquisitions_sleeps; cbn;
  rewrite ?omap_app, ?acquisitions_clicks, ?acquisitions_playback, ?acquisitions_sleeps; cbn.

(** The resources acquired in a job that fails at stage [s] are those
    of the stages before [s], in the order of the stages. *)
Lemma first_failure_acquisitions (opts : Record.Options) (o : Record.Oracle)
    (s : Record.Stage) (e : string) :
  Duration.validate (Record.autoDetectDuration opts) (Record.duration opts) = true →
  Record.first_failure opts o = Some (s, e) →
  Record.acquisitions (Record.recordUrl opts o).2 = Record.acquired_before s.
Proof.
  intros Hvalid Hfail. unfold Record.recordUrl. rewrite Hvalid.
  unfold Record.first_failure in Hfail. cbn in Hfail.
  unfold Record.try_block. exec.
  destruct (Record.startDisplay o) as [e1|n] eqn:H1; cbn.
  { simplify_eq. by count_acquisitions. }
  destruct (Record.setupAudioRecording o) as [e2|] eqn:H2; cbn.
  { simplify_eq. by count_acquisitions. }
  destruct (Record.launchBrowser o) as [e3|] eqn:H3; cbn.
  { simplify_eq. by count_acquisitions. }
  destruct (Record.createPage o) as [e4|] eqn:H4; cbn.
  { simplify_eq. by count_acquisitions. }
  destruct (Record.navigateToUrl o) as [e5|] eqn:H5; cbn.
  { simplify_eq. by count_acquisitions. }
  destruct (Record.findVideoElement o) as [e6|] eqn:H6; cbn.
  { simplify_eq. by count_acquisitions. }
  destruct (Record.getVideoMetadata o) as [e7|d] eqn:H7; cbn.
  { simplify_eq. by count_acquisitions. }
  destruct (Duration.actualDuration (Record.autoDetectDuration opts) d (Record.duration opts))
    as [e8|actual] eqn:H8; cbn.
  { simplify_eq. by count_acquisitions. }
  destruct (Record.startRecording o) as [e9|] eqn:H9; cbn.
  { simplify_eq. by count_acquisitions. }
  destruct (Browser.playVideo Browser.defaults (Record.playVideo o)).1 as [e10|[]] eqn:H10; cbn.
  { simplify_eq. destruct (Record.capture_stop o 5000); cbn; by count_acquisitions. }
  destruct (Record.parallelMode opts && Record.browser_process o) eqn:Hpar; [|done].
  destruct (Record.moveBrowserSinkInputs o) as [e11|] eqn:H11; [|done]. cbn.
  simplify_eq. destruct (Record.capture_stop o 5000); cbn; by count_acquisitions.
Qed.

(** A job in which no stage fails: its trace, and its outcome, which is
    decided by the wait loop and by the stop of the capture. *)
Lemma recordUrl_completes (opts : Record.Options) (o : Record.Oracle) :
  Duration.validate (Record.autoDetectDuration opts) (Record.duration opts) = true →
  Record.first_failure opts o = None →
  ∃ d actual,
    Record.getVideoMetadata o = inr d ∧
    Duration.actualDuration (Record.autoDetectDuration opts) d (Record.duration opts)
      = inr actual ∧
    Record.recordUrl opts o
    = match Js.loop_count (Record.total_time actual (Record.bufferTime opts)) with
      | Some k =>
          match Record.capture_stop o 15000 with
          | Some _ =>
              (Record.Returns (Record.mkResult true (Record.outputPath opts) None),
               Record.before_capture opts o
                 ++ [Record.Called Record.StartRecording true; Record.Slept 1000]
                 ++ Record.playback_events o ++ Record.routing opts o
                 ++ replicate k (Record.Slept 1000) ++ Record.graceful_releases o)
          | None =>
              (Record.NeverReturns,
               Record.before_capture opts o
                 ++ [Record.Called Record.StartRecording true; Record.Slept 1000]
                 ++ Record.playback_events o ++ Record.routing opts o
                 ++ replicate k (Record.Slept 1000)
                 ++ [Record.Called (Record.StopRecording 15000) false])
          end
      | None =>
          (Record.NeverReturns,
           Record.before_capture opts o
             ++ [Record.Called Record.StartRecording true; Record.Slept 1000]
             ++ Record.playback_events o ++ Record.routing opts o)
      end.
Proof.
  intros Hvalid Hfail. unfold Record.recordUrl. rewrite Hvalid.
  unfold Record.first_failure in Hfail. cbn in Hfail.
  unfold Record.try_block, Record.routing, Record.before_capture, Record.graceful_releases.
  exec.
  destruct (Record.startDisplay o) as [e1|n] eqn:H1; [done|]; cbn.
  destruct (Record.setupAudioRecording o) as [e2|] eqn:H2; [done|]; cbn.
  destruct (Record.launchBrowser o) as [e3|] eqn:H3; [done|]; cbn.
  destruct (Record.createPage o) as [e4|] eqn:H4; [done|]; cbn.
  destruct (Record.navigateToUrl o) as [e5|] eqn:H5; [done|]; cbn.
  destruct (Record.findVideoElement o) as [e6|] eqn:H6; [done|]; cbn.
  destruct (Record.getVideoMetadata o) as [e7|d] eqn:H7; [done|]; cbn.
  destruct (Duration.actualDuration (Record.autoDetectDuration opts) d (Record.duration opts))
    as [e8|actual] eqn:H8; [done|]; cbn.
  destruct (Record.startRecording o) as [e9|] eqn:H9; [done|]; cbn.
  destruct (Browser.playVideo Browser.defaults (Record.playVideo o)).1 as [e10|[]] eqn:H10;
    [done|]; cbn.
  exists d, actual. split; [done|]. split; [done|].
  destruct (Record.parallelMode opts && Record.browser_process o) eqn:Hpar; cbn.
  - destruct (Record.moveBrowserSinkInputs o) as [e11|] eqn:H11; [done|]. cbn.
    destruct (Js.loop_count _) as [k|]; cbn;
      [destruct (Record.capture_stop o 15000); cbn|];
      rewrite <- ?app_assoc; cbn; rewrite <- ?app_assoc; reflexivity.
  - destruct (Js.loop_count _) as [k|]; cbn;
      [destruct (Record.capture_stop o 15000); cbn|];
      rewrite <- ?app_assoc, ?app_nil_r; cbn;
      rewrite <- ?app_assoc, ?app_nil_r; reflexivity.
Qed.

Lemma routing_clicks (o : Record.Oracle) (sels : list string) :
  omap Record.is_routing (Record.click_events o sels) = [].
Proof. induction sels as [|sel sels IH]; [done|]. exact IH. Qed.

Lemma routing_playback (o : Record.Oracle) :
  omap Record.is_routing (Record.playback_events o) = [].
Proof.
  unfold Record.playback_events.
  induction (Browser.playVideo Browser.defaults (Record.playVideo o)).2 as [|e l IH]; [done|].
  exact IH.
Qed.

Lemma routing_sleeps (n : nat) (ms : N) :
  omap Record.is_routing (replicate n (Record.Slept ms)) = [].
Proof. induction n as [|n IH]; [done|]. exact IH. Qed.

Ltac count_routing :=
  cbn; rewrite ?omap_app, ?routing_clicks, ?routing_playback, ?routing_sleeps; cbn;
  rewrite ?omap_app, ?routing_clicks, ?routing_playback, ?routing_sleeps; cbn.

Ltac routed :=
  right; split; [done|]; split; [done|]; eexists; split;
    [ unfold Record.before_capture; rewrite <- ?app_assoc; cbn; rewrite <- ?app_assoc;
      reflexivity
    | by count_routing ].

Lemma recordUrl_routing (opts : Record.Options) (o : Record.Oracle) :
  let r := Record.recordUrl opts o in
  omap Record.is_routing r.2 = [] ∨
  (Record.parallelMode opts && Record.browser_process o = true ∧
   (Browser.playVideo Browser.defaults (Record.playVideo o)).1 = inr tt ∧
   ∃ rest, r.2 = Record.before_capture opts o
       ++ Record.Called Record.StartRecording true :: Record.Slept 1000
       :: Record.playback_events o
       ++ Record.Called Record.MoveBrowserSinkInputs
            (bool_decide (Record.moveBrowserSinkInputs o = None)) :: rest ∧
     omap Record.is_routing rest = []).
Proof.
  unfold Record.recordUrl.
  destruct (Duration.validate _ _); [|by left].
  unfold Record.try_block. exec.
  destruct (Record.startDisplay o) as [e1|n]; cbn; [left; by count_routing|].
  destruct (Record.setupAudioRecording o) as [e2|]; cbn; [left; by count_routing|].
  destruct (Record.launchBrowser o) as [e3|]; cbn; [left; by count_routing|].
  destruct (Record.createPage o) as [e4|]; cbn; [left; by count_routing|].
  destruct (Record.navigateToUrl o) as [e5|]; cbn; [left; by count_routing|].
  destruct (Record.findVideoElement o) as [e6|]; cbn; [left; by count_routing|].
  destruct (Record.getVideoMetadata o) as [e7|d]; cbn; [left; by count_routing|].
  destruct (Duration.actualDuration _ d _) as [e8|actual]; cbn; [left; by count_routing|].
  destruct (Record.startRecording o) as [e9|]; cbn; [left; by count_routing|].
  destruct (Browser.playVideo Browser.defaults (Record.playVideo o)).1 as [e10|[]] eqn:Hplay;
    cbn; [destruct (Record.capture_stop o 5000); cbn; left; by count_routing|].
  destruct (Record.parallelMode opts && Record.browser_process o) eqn:Hpar; cbn.
  - destruct (Record.moveBrowserSinkInputs o) as [e11|]; cbn.
    { destruct (Record.capture_stop o 5000); cbn; routed. }
    destruct (Js.loop_count _) as [k|]; cbn;
      [destruct (Record.capture_stop o 15000); cbn|]; routed.
  - destruct (Js.loop_count _) as [k|]; cbn;
      [destruct (Record.capture_stop o 15000); cbn|]; left; by count_routing.
Qed.

(** The three ways a job can go. *)
Lemma recordUrl_cases (opts : Record.Options) (o : Record.Oracle) :
  (Duration.validate (Record.autoDetectDuration opts) (Record.duration opts) = false ∧
   Record.recordUrl opts o
   = (Record.Returns (Record.mkResult false (Record.outputPath opts)
        (Some (Record.duration_message Duration.DurationRequired))), [])) ∨
  (Duration.validate (Record.autoDetectDuration opts) (Record.duration opts) = true ∧
   ∃ s e, Record.first_failure opts o = Some (s, e)) ∨
  (Duration.validate (Record.autoDetectDuration opts) (Record.duration opts) = true ∧
   Record.first_failure opts o = None).
Proof.
  unfold Record.recordUrl.
  destruct (Duration.validate _ _); [|by left].
  right. destruct (Record.first_failure opts o) as [[s e]|]; [left|right]; eauto.
Qed.

Lemma releases_graceful (o : Record.Oracle) :
  omap Record.is_release (Record.graceful_releases o) = Record.teardown_order ∧
  Record.release_events (Record.graceful_releases o) = Record.graceful_releases o ∧
  omap Record.is_acquire (Record.graceful_releases o) = [] ∧
  omap Record.is_routing (Record.graceful_releases o) = [].
Proof. done. Qed.

Lemma releases_routing (opts : Record.Options) (o : Record.Oracle) :
  omap Record.is_release (Record.routing opts o) = [] ∧
  Record.release_events (Record.routing opts o) = [] ∧
  omap Record.is_acquire (Record.routing opts o) = [].
Proof. unfold Record.routing. by destruct (_ && _). Qed.

Lemma releases_before_capture (opts : Record.Options) (o : Record.Oracle) :
  omap Record.is_release (Record.before_capture opts o) = [] ∧
  Record.release_events (Record.before_capture opts o) = [] ∧
  omap Record.is_acquire (Record.before_capture opts o)
  = [Record.TheDisplay; Record.AudioSink; Record.TheBrowser].
Proof.
  unfold Record.before_capture, Record.release_events.
  rewrite !omap_app, acquisitions_clicks.
  destruct (releases_clicks o (Record.clickSelectors opts)) as [-> Hev].
  unfold Record.release_events in Hev. by rewrite Hev.
Qed.

(** X13. A job that succeeds has invoked the four release steps once
    each, as the last four events of the job and in the order capture
    stop (with the grace period of 15000 ms), browser close, display
    stop, sink cleanup; its result carries the output path and no
    error. *)
Theorem graceful_teardown (opts : Record.Options) (o : Record.Oracle) (res : Record.Result) :
  let r := Record.recordUrl opts o in
  r.1 = Record.Returns res → Record.success res = true →
  res = Record.mkResult true (Record.outputPath opts) None ∧
  (∃ pre, r.2 = pre ++ [Record.Called (Record.StopRecording 15000) (Record.release_ok o Record.Capture);
                         Record.Called Record.CloseBrowser (Record.release_ok o Record.TheBrowser);
                         Record.Called Record.StopDisplay (Record.release_ok o Record.TheDisplay);
                         Record.Called Record.CleanupAudioRecording
                           (Record.release_ok o Record.AudioSink)] ∧
          Record.releases pre = []) ∧
  Record.releases r.2 = Record.teardown_order ∧
  ∀ x, Record.release_count x r.2 = 1.
Proof.
  intros r Hres Hok. subst r.
  destruct (recordUrl_cases opts o) as [[_ Heq]|[[Hvalid (s & e & Hfail)]|[Hvalid Hnone]]].
  - rewrite Heq in Hres. cbn in Hres. by simplify_eq.
  - destruct (first_failure_returns opts o s e res Hvalid Hfail Hres) as (-> & _).
    discriminate Hok.
  - destruct (recordUrl_completes opts o Hvalid Hnone) as (d & actual & _ & _ & Heq).
    rewrite Heq in *. clear Heq.
    destruct (Js.loop_count _) as [k|]; cbn [fst snd] in *; [|done].
    destruct (Record.capture_stop o 15000) as [t|]; cbn [fst snd] in *; [|done].
    simplify_eq.
    assert (Record.releases (Record.before_capture opts o
              ++ [Record.Called Record.StartRecording true; Record.Slept 1000]
              ++ Record.playback_events o ++ Record.routing opts o
              ++ replicate k (Record.Slept 1000)) = []) as Hpre.
    { unfold Record.releases. rewrite !omap_app.
      rewrite (proj1 (releases_before_capture opts o)), (proj1 (releases_playback o)),
        (proj1 (releases_routing opts o)), (proj1 (releases_sleeps k 1000)). done. }
    assert (Record.releases (Record.before_capture opts o
              ++ [Record.Called Record.StartRecording true; Record.Slept 1000]
              ++ Record.playback_events o ++ Record.routing opts o
              ++ replicate k (Record.Slept 1000) ++ Record.graceful_releases o)
            = Record.teardown_order) as Hall.
    { unfold Record.releases in *. rewrite !omap_app in *.
      rewrite (proj1 (releases_before_capture opts o)), (proj1 (releases_playback o)),
        (proj1 (releases_routing opts o)), (proj1 (releases_sleeps k 1000)). done. }
    split_and!.
    + done.
    + eexists. split; [|exact Hpre]. by rewrite <- !app_assoc.
    + exact Hall.
    + intros x. unfold Record.release_count. rewrite Hall. by destruct x.
Qed.

Lemma graceful_teardown_witness :
  Record.releases (Record.recordUrl Record.sample_options Record.healthy).2
  = [Record.Capture; Record.TheBrowser; Record.TheDisplay; Record.AudioSink].
Proof.
  destruct (graceful_teardown Record.sample_options Record.healthy
              (Record.mkResult true "out.mp4" None) eq_refl eq_refl) as (_ & _ & H & _).
  exact H.
Defined.

Lemma loop_count_None (t : Js.number) :
  Js.loop_count t = None ↔ t = Js.PosInf ∨ ∃ q, t = Js.Fin q ∧ (2 ^ 53 <= q)%Q.
Proof.
  unfold Js.loop_count. destruct t as [| | |q].
  - split; [done|]. by intros [?|(? & ? & _)].
  - split; [by left|done].
  - split; [done|]. by intros [?|(? & ? & _)].
  - destruct (Qle_bool (2 ^ 53) q) eqn:E.
    + split; [|done]. intros _. right. exists q. split; [done|]. by apply Qle_bool_iff.
    + split; [done|]. intros [?|(q' & [= <-] & Hq)]; [done|].
      apply Qle_bool_iff in Hq. congruence.
Qed.

(** X14. A job does not return in two cases only.  Either its wait loop
    does not end, which takes a total time of Infinity or of 2^53 and
    more: then all four resources are acquired and no release step is
    invoked.  Or the stop of its capture never settles: then the capture
    stop is the only release step invoked.  A job whose capture stops
    and whose total time lets the loop end returns. *)
Theorem job_returns_unless_stuck (opts : Record.Options) (o : Record.Oracle) :
  let r := Record.recordUrl opts o in
  (r.1 = Record.NeverReturns →
   (Record.acquisitions r.2
    = [Record.TheDisplay; Record.AudioSink; Record.TheBrowser; Record.Capture]) ∧
   ((Record.releases r.2 = [] ∧
     ∃ d actual, Record.getVideoMetadata o = inr d ∧
       Duration.actualDuration (Record.autoDetectDuration opts) d (Record.duration opts)
         = inr actual ∧
       Js.loop_count (Record.total_time actual (Record.bufferTime opts)) = None) ∨
    (Record.releases r.2 = [Record.Capture] ∧ Record.capture_stop o 15000 = None))) ∧
  (∀ t, Js.loop_count t = None ↔ t = Js.PosInf ∨ ∃ q, t = Js.Fin q ∧ (2 ^ 53 <= q)%Q) ∧
  (is_Some (Record.capture_stop o 15000) →
   (∀ d actual, Record.getVideoMetadata o = inr d →
      Duration.actualDuration (Record.autoDetectDuration opts) d (Record.duration opts)
        = inr actual →
      is_Some (Js.loop_count (Record.total_time actual (Record.bufferTime opts)))) →
   ∃ res, r.1 = Record.Returns res).
Proof.
  intros r. subst r.
  assert (Record.capture_stop o 5000 = None → Record.capture_stop o 15000 = None) as Hgrace.
  { intros H5. destruct (Record.capture_stop o 15000) eqn:H15; [|done].
    destruct (capture_stop_any_grace o 15000 5000) as [t Ht]; [by eexists|]. congruence. }
  split_and!.
  - intros Hres.
    destruct (recordUrl_cases opts o) as [[_ Heq]|[[Hvalid (s & e & Hfail)]|[Hvalid Hnone]]].
    + by rewrite Heq in Hres.
    + pose proof (first_failure_outcome opts o s e Hvalid Hfail) as Hout. cbn zeta in Hout.
      pose proof (first_failure_acquisitions opts o s e Hvalid Hfail) as Hacq.
      rewrite capture_held_stage in Hout.
      destruct s; try (destruct Hout as (Hr & _); rewrite Hr in Hres; discriminate Hres);
        (destruct (Record.capture_stop o 5000) eqn:Hstop;
         [destruct Hout as (Hr & _); rewrite Hr in Hres; discriminate Hres|]);
        destruct Hout as (_ & Hrel & _); (split; [by rewrite Hacq|]); right; auto.
    + destruct (recordUrl_completes opts o Hvalid Hnone) as (d & actual & Hd & Hact & Heq).
      rewrite Heq in *. clear Heq.
      destruct (Js.loop_count _) as [k|] eqn:Hloop; cbn [fst snd] in *.
      * destruct (Record.capture_stop o 15000) as [t|] eqn:Hstop; cbn [fst snd] in *; [done|].
        split.
        -- unfold Record.acquisitions. rewrite !omap_app.
           rewrite (proj2 (proj2 (releases_before_capture opts o))), acquisitions_playback,
             (proj2 (proj2 (releases_routing opts o))), acquisitions_sleeps. done.
        -- right. split; [|done]. unfold Record.releases. rewrite !omap_app.
           rewrite (proj1 (releases_before_capture opts o)), (proj1 (releases_playback o)),
             (proj1 (releases_routing opts o)), (proj1 (releases_sleeps k 1000)). done.
      * split.
        -- unfold Record.acquisitions. rewrite !omap_app.
           rewrite (proj2 (proj2 (releases_before_capture opts o))), acquisitions_playback,
             (proj2 (proj2 (releases_routing opts o))). done.
        -- left. split; [|by exists d, actual]. unfold Record.releases. rewrite !omap_app.
           rewrite (proj1 (releases_before_capture opts o)), (proj1 (releases_playback o)),
             (proj1 (releases_routing opts o)). done.
  - apply loop_count_None.
  - intros Hstop Hloop.
    destruct (recordUrl_cases opts o) as [[_ Heq]|[[Hvalid (s & e & Hfail)]|[Hvalid Hnone]]].
    + rewrite Heq. by eexists.
    + pose proof (first_failure_outcome opts o s e Hvalid Hfail) as Hout. cbn zeta in Hout.
      destruct (capture_stop_any_grace o 15000 5000 Hstop) as [t Ht]. rewrite Ht in Hout.
      destruct (bool_decide _); destruct Hout as (-> & _); by eexists.
    + destruct (recordUrl_completes opts o Hvalid Hnone) as (d & actual & Hd & Hact & Heq).
      rewrite Heq. destruct (Hloop d actual Hd Hact) as [k ->].
      destruct Hstop as [t ->]. by eexists.
Qed.

Lemma job_returns_unless_stuck_witness :
  ∃ res, (Record.recordUrl Record.sample_options Record.healthy).1 = Record.Returns res.
Proof.
  destruct (job_returns_unless_stuck Record.sample_options Record.healthy) as (_ & _ & H).
  apply H.
  - vm_compute. by eexists.
  - intros d actual [= <-] Hact. vm_compute in Hact. injection Hact as <-.
    vm_compute. by eexists.
Defined.

(** X15. In every execution of a job the resources are acquired in the
    order display, audio sink, browser, capture, each at most once and
    none before the ones ahead of it; when the job returns, the release
    steps invoked are those of the resources acquired, once each, in the
    order capture, browser, display, audio sink: nothing acquired is left
    unreleased, nothing is released twice, and nothing is released that
    was not acquired. *)
Theorem releases_match_acquisitions (opts : Record.Options) (o : Record.Oracle) :
  let r := Record.recordUrl opts o in
  Record.acquisitions r.2
    `prefix_of` [Record.TheDisplay; Record.AudioSink; Record.TheBrowser; Record.Capture] ∧
  ∀ res, r.1 = Record.Returns res →
    Record.releases r.2
    = filter (λ x, x ∈ Record.acquisitions r.2) Record.teardown_order ∧
    ∀ x, Record.release_count x r.2 = if decide (x ∈ Record.acquisitions r.2) then 1 else 0.
Proof.
  intros r. subst r.
  destruct (recordUrl_cases opts o) as [[_ Heq]|[[Hvalid (s & e & Hfail)]|[Hvalid Hnone]]].
  - rewrite Heq. cbn. split; [by eexists|]. intros res _. split; [done|].
    intros x. by destruct x.
  - pose proof (first_failure_acquisitions opts o s e Hvalid Hfail) as Hacq.
    rewrite Hacq. split.
    + rewrite acquired_before_stage. destruct s; by eexists.
    + intros res Hres.
      destruct (first_failure_returns opts o s e res Hvalid Hfail Hres) as (_ & Hrel).
      split; [done|]. intros x. unfold Record.release_count. rewrite Hrel.
      clear. destruct s, x; vm_compute; reflexivity.
  - destruct (recordUrl_completes opts o Hvalid Hnone) as (d & actual & _ & _ & Heq).
    rewrite Heq. clear Heq.
    destruct (Js.loop_count _) as [k|]; cbn [fst snd];
      [destruct (Record.capture_stop o 15000) as [t|]; cbn [fst snd]|].
    + assert (Record.acquisitions (Record.before_capture opts o
                ++ [Record.Called Record.StartRecording true; Record.Slept 1000]
                ++ Record.playback_events o ++ Record.routing opts o
                ++ replicate k (Record.Slept 1000) ++ Record.graceful_releases o)
              = [Record.TheDisplay; Record.AudioSink; Record.TheBrowser; Record.Capture])
        as ->.
      { unfold Record.acquisitions. rewrite !omap_app.
        rewrite (proj2 (proj2 (releases_before_capture opts o))), acquisitions_playback,
          (proj2 (proj2 (releases_routing opts o))), acquisitions_sleeps. done. }
      assert (Record.releases (Record.before_capture opts o
                ++ [Record.Called Record.StartRecording true; Record.Slept 1000]
                ++ Record.playback_events o ++ Record.routing opts o
                ++ replicate k (Record.Slept 1000) ++ Record.graceful_releases o)
              = Record.teardown_order) as Hall.
      { unfold Record.releases. rewrite !omap_app.
        rewrite (proj1 (releases_before_capture opts o)), (proj1 (releases_playback o)),
          (proj1 (releases_routing opts o)), (proj1 (releases_sleeps k 1000)). done. }
      split; [done|]. intros res _. split.
      * rewrite Hall. vm_compute. reflexivity.
      * intros x. unfold Record.release_count. rewrite Hall.
        destruct x; vm_compute; reflexivity.
    + split; [|done].
      unfold Record.acquisitions. rewrite !omap_app.
      rewrite (proj2 (proj2 (releases_before_capture opts o))), acquisitions_playback,
        (proj2 (proj2 (releases_routing opts o))), acquisitions_sleeps. done.
    + split; [|done].
      unfold Record.acquisitions. rewrite !omap_app.
      rewrite (proj2 (proj2 (releases_before_capture opts o))), acquisitions_playback,
        (proj2 (proj2 (releases_routing opts o))). done.
Qed.

Lemma releases_match_acquisitions_witness :
  Record.releases (Record.recordUrl Record.sample_options Record.no_browser).2
  = filter (λ x, x ∈ Record.acquisitions
                       (Record.recordUrl Record.sample_options Record.no_browser).2)
      Record.teardown_order.
Proof.
  destruct (releases_match_acquisitions Record.sample_options Record.no_browser) as (_ & H).
  destruct (H (Record.mkResult false "out.mp4" (Some "Failed to launch browser")) eq_refl)
    as (H' & _).
  exact H'.
Defined.

(** X16. [moveBrowserSinkInputs] is called at most once in a job, only
    in parallel mode with a browser that has a process, and only after
    [playVideo] has returned: the call follows the events of playVideo
    directly.  A job that is not in parallel mode never calls it. *)
Theorem sink_routing_after_playback (opts : Record.Options) (o : Record.Oracle) :
  let r := Record.recordUrl opts o in
  (Record.parallelMode opts = false → omap Record.is_routing r.2 = []) ∧
  (omap Record.is_routing r.2 ≠ [] →
   Record.parallelMode opts = true ∧ Record.browser_process o = true ∧
   (Browser.playVideo Browser.defaults (Record.playVideo o)).1 = inr tt ∧
   omap Record.is_routing r.2 = [bool_decide (Record.moveBrowserSinkInputs o = None)] ∧
   ∃ rest, r.2 = Record.before_capture opts o
       ++ Record.Called Record.StartRecording true :: Record.Slept 1000
       :: Record.playback_events o
       ++ Record.Called Record.MoveBrowserSinkInputs
            (bool_decide (Record.moveBrowserSinkInputs o = None)) :: rest).
Proof.
  intros r. subst r.
  destruct (recordUrl_routing opts o) as [Hnone|(Hpar & Hplay & rest & Heq & Hrest)];
    cbn zeta in *.
  - split; [done|]. by intros ?.
  - apply andb_true_iff in Hpar as [Hp Hb]. split; [by rewrite Hp|].
    intros _. split_and!; [done..| |by exists rest].
    rewrite Heq.
    change (?a :: ?b :: Record.playback_events o ++ ?l)
      with ([a; b] ++ Record.playback_events o ++ l).
    rewrite !omap_app, routing_playback.
    unfold Record.before_capture. rewrite !omap_app, routing_clicks. cbn. by rewrite Hrest.
Qed.

Lemma sink_routing_after_playback_witness :
  omap Record.is_routing (Record.recordUrl Record.sample_options Record.healthy).2 = [] ∧
  Record.parallelMode Record.parallel_options = true ∧
  omap Record.is_routing (Record.recordUrl Record.parallel_options Record.healthy).2 = [true] ∧
  ∃ rest, (Record.recordUrl Record.parallel_options Record.healthy).2
          = Record.before_capture Record.parallel_options Record.healthy
            ++ Record.Called Record.StartRecording true :: Record.Slept 1000
            :: Record.playback_events Record.healthy
            ++ Record.Called Record.MoveBrowserSinkInputs true :: rest.
Proof.
  destruct (sink_routing_after_playback Record.sample_options Record.healthy) as (Hoff & _).
  destruct (sink_routing_after_playback Record.parallel_options Record.healthy) as (_ & Hon).
  split; [apply Hoff; reflexivity|].
  destruct Hon as (Hpar & _ & _ & Hcalls & Hshape).
  { vm_compute. discriminate. }
  split; [exact Hpar|]. split; [exact Hcalls|exact Hshape].
Defined.



(** ** Resolutions *)

Lemma append_cons (a : ascii) (s r : string) : String a s +:+ r = String a (s +:+ r).
Proof. reflexivity. Qed.

Lemma append_nil (r : string) : "" +:+ r = r.
Proof. reflexivity. Qed.

Lemma prefix_char (c a : ascii) (s : string) :
  String.prefix (String c "") (String a s) = Ascii.eqb a c.
Proof.
  cbn. destruct (ascii_dec c a) as [->|Hne].
  - rewrite Ascii.eqb_refl. by destruct s.
  - symmetry. apply Ascii.eqb_neq. congruence.
Qed.

Lemma split_char_cons (c a : ascii) (s : string) :
  Text.split (String c "") (String a s)
  = if Ascii.eqb a c then "" :: Text.split (String c "") s
    else match Text.split (String c "") s with
         | piece :: pieces => String a piece :: pieces
         | [] => [String a ""]
         end.
Proof.
  unfold Text.split. cbn [Text.split_from]. rewrite prefix_char.
  by destruct (Ascii.eqb a c).
Qed.

Lemma split_char_app (c : ascii) (a b : string) :
  Text.has_char c a = false →
  Text.split (String c "") (a +:+ String c b) = a :: Text.split (String c "") b.
Proof.
  induction a as [|x a IH]; intros Ha.
  - rewrite append_nil, split_char_cons. by rewrite Ascii.eqb_refl.
  - cbn in Ha. apply orb_false_iff in Ha as [Hx Ha].
    rewrite append_cons, split_char_cons, Hx, (IH Ha). done.
Qed.

Lemma split_char_none (c : ascii) (a : string) :
  Text.has_char c a = false → Text.split (String c "") a = [a].
Proof.
  induction a as [|x a IH]; intros Ha; [done|].
  cbn in Ha. apply orb_false_iff in Ha as [Hx Ha].
  by rewrite split_char_cons, Hx, (IH Ha).
Qed.

(** X17. The screen specification startDisplay passes to Xvfb, for
    parts [w], [h], [d] without the letter x: a resolution [w]x[h] is
    completed with the depth 24; a resolution [w]x[h]x[d] with a depth
    that is not empty is passed on as it is, so that the
    [resolution + 'x24'] of record.js gives Xvfb that very string; and a
    resolution without an x is not refused: the height is printed as
    undefined. *)
Theorem screenSpec_parts (w h d : string) :
  Text.has_char "x" w = false → Text.has_char "x" h = false → Text.has_char "x" d = false →
  Resolution.screenSpec (w +:+ "x" +:+ h) = w +:+ "x" +:+ h +:+ "x24" ∧
  (d ≠ "" → Resolution.screenSpec (w +:+ "x" +:+ h +:+ "x" +:+ d)
            = w +:+ "x" +:+ h +:+ "x" +:+ d) ∧
  Resolution.screenSpec ((w +:+ "x" +:+ h) +:+ "x24") = w +:+ "x" +:+ h +:+ "x24" ∧
  Resolution.screenSpec w = w +:+ "xundefinedx24".
Proof.
  intros Hw Hh Hd. unfold Resolution.screenSpec.
  rewrite !(append_cons "x" "").  rewrite ?append_nil.
  split_and!.
  - rewrite (split_char_app "x" w h Hw), (split_char_none "x" h Hh). done.
  - intros Hne. rewrite (split_char_app "x" w _ Hw), (split_char_app "x" h _ Hh),
      (split_char_none "x" d Hd). cbn. by destruct d.
  - replace ((w +:+ String "x" h) +:+ "x24") with (w +:+ String "x" (h +:+ String "x" "24")).
    + rewrite (split_char_app "x" w _ Hw), (split_char_app "x" h _ Hh). done.
    + clear. induction w as [|a w IH]; [done|]. rewrite !append_cons. by rewrite IH.
  - rewrite (split_char_none "x" w Hw). done.
Qed.

Lemma screenSpec_parts_witness :
  Resolution.screenSpec ("1920" +:+ "x" +:+ "1080" +:+ "x" +:+ "24") = "1920x1080x24".
Proof.
  destruct (screenSpec_parts "1920" "1080" "24" eq_refl eq_refl eq_refl) as (_ & H & _).
  apply H. discriminate.
Defined.


Lemma skip_no_digits (r : string) : Text.take_digits r = "" → Text.skip_digits r = r.
Proof. destruct r as [|a r]; [done|]. cbn. by destruct (Text.is_digit a). Qed.

Lemma of_N_not_empty (n : N) : Text.of_N n ≠ "".
Proof.
  unfold Text.of_N. pose proof (unorm_nonnil (N.to_uint n)) as Hnil.
  rewrite <- (DecimalN.Unsigned.of_to n) at 1.
  rewrite DecimalN.Unsigned.to_of.
  by destruct (Decimal.unorm (N.to_uint n)).
Qed.



Lemma append_assoc (a b c : string) : (a +:+ b) +:+ c = a +:+ b +:+ c.
Proof. induction a as [|x a IH]; [done|]. by rewrite !append_cons, IH. Qed.






(** ** The answers of pactl *)

Lemma prefix_append (n r : string) : String.prefix n (n +:+ r) = true.
Proof.
  induction n as [|a n IH].
  - rewrite append_nil. by destruct r.
  - rewrite append_cons. cbn. by destruct (ascii_dec a a).
Qed.

Lemma includes_append (n pre post : string) : Text.includes n (pre +:+ n +:+ post) = true.
Proof.
  induction pre as [|a pre IH].
  - rewrite append_nil.
    destruct (n +:+ post) eqn:Heq; cbn [Text.includes]; by rewrite <- Heq, prefix_append.
  - rewrite append_cons. cbn [Text.includes]. rewrite IH. apply orb_true_r.
Qed.

(** X19. The module removeVirtualSink unloads is looked up by
    substring: when the sink is listed and the first block of
    [pactl list sinks] contains [Name: ] followed by a text that begins
    with the name of the sink, and names an owner module, then that
    module is the one unloaded, whatever the blocks after it say.  The
    block of a sink whose name only begins with the name asked for (as
    recording_sink_10 for recording_sink_1) is taken for it when it comes
    first. *)
Theorem removeVirtualSink_matches_by_substring (short full sinkName pre ext post m : string)
    (rest : list string) :
  Sinks.sinkExists short sinkName = true →
  Text.split (String Text.newline (String Text.newline "")) full
  = (pre +:+ "Name: " +:+ sinkName +:+ ext +:+ post) :: rest →
  Sinks.owner_module (pre +:+ "Name: " +:+ sinkName +:+ ext +:+ post) = Some m →
  Sinks.removeVirtualSink short full sinkName = Some ("unload-module " +:+ m).
Proof.
  intros Hexists Hsplit Howner. unfold Sinks.removeVirtualSink.
  rewrite Hexists, Hsplit. cbn [Sinks.find_module].
  assert (Text.includes ("Name: " +:+ sinkName)
            (pre +:+ "Name: " +:+ sinkName +:+ ext +:+ post) = true) as ->.
  { rewrite <- (append_assoc "Name: " sinkName (ext +:+ post)). apply includes_append. }
  by rewrite Howner.
Qed.

Lemma removeVirtualSink_matches_by_substring_witness :
  Sinks.removeVirtualSink Sinks.two_sinks_short Sinks.two_sinks_full "recording_sink_1"
  = Some "unload-module 21".
Proof.
  apply (removeVirtualSink_matches_by_substring
           Sinks.two_sinks_short Sinks.two_sinks_full "recording_sink_1"
           (Sinks.lines ["Sink #1"; String Text.tab "State: SUSPENDED"] +:+ String Text.tab "")
           "0"
           (String Text.newline
              (Sinks.lines [String Text.tab "Description: Virtual Sink for Recording";
                            String Text.tab "Driver: module-null-sink.c";
                            String Text.tab "Sample Specification: s16le 2ch 44100Hz";
                            String Text.tab "Owner Module: 21";
                            String Text.tab "Mute: no"]
               +:+ String Text.tab "Monitor Source: recording_sink_10.monitor"))
           "21"
           [Sinks.lines (Sinks.sink_block 2 "recording_sink_1" 22)]);
    reflexivity.
Defined.

Lemma has_char_append (c : ascii) (a b : string) :
  Text.has_char c (a +:+ b) = Text.has_char c a || Text.has_char c b.
Proof.
  induction a as [|x a IH]; [done|]. rewrite append_cons. cbn. rewrite IH.
  by rewrite orb_assoc.
Qed.

Lemma has_char_of_N (c : ascii) (n : N) :
  Text.is_digit c = false → Text.has_char c (Text.of_N n) = false.
Proof.
  intros Hc. unfold Text.of_N.
  induction (N.to_uint n) as [|u IH|u IH|u IH|u IH|u IH|u IH|u IH|u IH|u IH|u IH];
    [done|cbn [NilEmpty.string_of_uint Text.has_char]; rewrite IH, orb_false_r;
          apply Ascii.eqb_neq; intros <-; discriminate Hc..].
Qed.

Lemma of_N_not_blank (n : N) (s : string) : Text.is_blank (Text.of_N n +:+ s) = false.
Proof.
  pose proof (of_N_not_empty n) as Hne. unfold Text.of_N in *.
  destruct (N.to_uint n); [done|cbn [NilEmpty.string_of_uint]; by rewrite append_cons..].
Qed.

(** The line of a sink without its end of line. *)
Lemma short_line_body (i : N) (n : string) :
  ∃ body, Sinks.short_line i n = body +:+ String Text.newline "" ∧
    Text.is_blank body = false ∧
    (Text.has_char Text.newline n = false → Text.has_char Text.newline body = false) ∧
    (Text.has_char Text.tab n = false →
     Text.split (String Text.tab "") body !! 1 = Some n).
Proof.
  exists (Text.of_N i +:+ String Text.tab n
    +:+ String Text.tab ("module-null-sink.c" +:+ String Text.tab ("s16le 2ch 44100Hz"
    +:+ String Text.tab "SUSPENDED"))).
  split_and!.
  - unfold Sinks.short_line. rewrite append_assoc. f_equal. by rewrite append_assoc.
  - apply of_N_not_blank.
  - intros Hn. rewrite has_char_append, has_char_of_N by done.
    rewrite append_cons. cbn [Text.has_char orb]. rewrite has_char_append, Hn. reflexivity.
  - intros Hn. rewrite (append_cons Text.tab n).
    rewrite (split_char_app Text.tab (Text.of_N i)) by (by apply has_char_of_N).
    by rewrite (split_char_app Text.tab n) by done.
Qed.

Lemma listSinks_short_listing (rows : list (N * string)) :
  Forall (λ row, Text.has_char Text.tab row.2 = false ∧
                 Text.has_char Text.newline row.2 = false) rows →
  Sinks.name <$> Sinks.listSinks (Sinks.short_listing rows) = Some <$> rows.*2.
Proof.
  unfold Sinks.listSinks. induction rows as [|[i n] rows IH]; intros Hrows.
  - done.
  - apply Forall_cons in Hrows as [[Htab Hnl] Hrows]. cbn [snd fst] in *.
    destruct (short_line_body i n) as (body & Hline & Hblank & Hnone & Hname).
    cbn [Sinks.short_listing foldr fst snd]. rewrite Hline, append_assoc, append_cons, append_nil.
    rewrite (split_char_app Text.newline body) by auto.
    rewrite filter_cons_True by done.
    cbn [fmap list_fmap]. cbn [Sinks.name]. rewrite (Hname Htab).
    f_equal. by apply IH.
Qed.

(** X20. [sinkExists] compares whole names: for the listing
    [pactl list short sinks] prints for a list of null sinks whose names
    hold neither a tab nor a line break, it answers true exactly for the
    names in the list; a name that is only the beginning of a listed name
    is not found. *)
Theorem sinkExists_compares_whole_names (rows : list (N * string)) (sinkName : string) :
  Forall (λ row, Text.has_char Text.tab row.2 = false ∧
                 Text.has_char Text.newline row.2 = false) rows →
  Sinks.sinkExists (Sinks.short_listing rows) sinkName = bool_decide (sinkName ∈ rows.*2).
Proof.
  intros Hrows. unfold Sinks.sinkExists.
  pose proof (listSinks_short_listing rows Hrows) as Hnames.
  revert Hnames. generalize (Sinks.listSinks (Sinks.short_listing rows)).
  generalize (rows.*2). clear. intros names sinks. revert names.
  induction sinks as [|sink sinks IH]; intros [|n names] Hnames; try done.
  cbn in Hnames. inversion Hnames as [[Hn Hrest]]. cbn [existsb].
  rewrite (IH names Hrest), Hn.
  destruct (decide (n = sinkName)) as [->|Hne].
  - rewrite bool_decide_eq_true_2 by done. symmetry. apply bool_decide_eq_true_2.
    apply list_elem_of_here.
  - rewrite (bool_decide_eq_false_2 (Some n = Some sinkName)) by congruence. cbn [orb].
    apply bool_decide_ext. rewrite elem_of_cons. split; [by right|]. by intros [?|?].
Qed.

Lemma sinkExists_compares_whole_names_witness :
  Sinks.sinkExists (Sinks.short_listing [(1%N, "recording_sink_10")]) "recording_sink_1"
  = false.
Proof.
  rewrite (sinkExists_compares_whole_names [(1%N, "recording_sink_10")] "recording_sink_1").
  - reflexivity.
  - repeat constructor.
Defined.

(** ** main of the single-URL record.js *)

Arguments Cleanup.trackProcess : simpl never.
Arguments Cleanup.untrackProcess : simpl never.
Arguments Cleanup.registerCleanupHandler : simpl never.
Arguments Cleanup.with_heap : simpl never.
Arguments Cleanup.cleanupAll_alone : simpl never.
Arguments Duration.actualDuration_main : simpl never.

Ltac exec_main :=
  unfold Main.try_block, Main.play_stage, Main.wait_stage, Main.release, Main.spawned,
    Main.call, Main.call_value;
  unfold Main.emit, Main.throw, Main.hang, Main.manager, mbind, mret, Main.M_bind, Main.M_ret;
  cbn.

Ltac not_acquired Hin :=
  exfalso; repeat (apply elem_of_cons in Hin as [Hin|Hin]; [discriminate Hin|]);
  by apply elem_of_nil in Hin.

Ltac left_running :=
  intros s tr [= <- <-]; split_and!;
    [ by count_releases
    | reflexivity
    | reflexivity
    | count_acquisitions; intros Hin;
      first [ not_acquired Hin | split; vm_compute; reflexivity ]
    | count_acquisitions; intros Hin;
      first [ not_acquired Hin | split; vm_compute; reflexivity ] ].

(** X21. main of the single-URL record.js, when a step of its try block
    fails: the process ends with status 1 from the catch block, and
    nothing has been cleaned up.  No release function (stopRecording,
    closeBrowser, stopDisplay, cleanupAudioRecording) has been called, no
    cleanup pass of the manager has started, and the Xvfb and ffmpeg
    processes that had been started are still in the registry, running
    and never signalled. *)
Theorem main_failure_skips_cleanup (opts : Record.Options) (o : Record.Oracle)
    (s : Cleanup.Sys) (tr : list Record.Event) :
  Main.main opts o = (Main.ExitStatus 1, (s, tr)) →
  Record.releases tr = [] ∧
  Cleanup.log s = [] ∧
  Cleanup.isCleaningUp s = false ∧
  (Record.TheDisplay ∈ Record.acquisitions tr →
   Cleanup.processes s !! "xvfb" = Some Main.xvfb ∧
   Cleanup.heap s !! Main.xvfb = Some (Cleanup.running 1)) ∧
  (Record.Capture ∈ Record.acquisitions tr →
   Cleanup.processes s !! "ffmpeg" = Some Main.ffmpeg ∧
   Cleanup.heap s !! Main.ffmpeg = Some (Cleanup.running 2)).
Proof.
  unfold Main.main. revert s tr.
  destruct (Duration.validate _ _).
  2: { left_running. }
  exec_main.
  destruct (Record.startDisplay o) as [e1|n]; cbn; [left_running|].
  destruct (Record.setupAudioRecording o) as [e2|]; cbn; [left_running|].
  destruct (Record.startRecording o) as [e3|]; cbn; [left_running|].
  destruct (Record.launchBrowser o) as [e4|]; cbn; [left_running|].
  destruct (Record.createPage o) as [e5|]; cbn; [left_running|].
  destruct (Record.navigateToUrl o) as [e6|]; cbn; [left_running|].
  destruct (Record.findVideoElement o) as [e7|]; cbn; [left_running|].
  destruct (Record.getVideoMetadata o) as [e8|d]; cbn; [left_running|].
  destruct (Browser.playVideo Browser.defaults (Record.playVideo o)).1 as [e9|[]]; cbn;
    [left_running|].
  destruct (Duration.actualDuration_main _ d _) as [e10|actual]; cbn; [left_running|].
  destruct (Js.loop_count _) as [k|]; cbn;
    [destruct (Record.capture_stop o 10000); cbn|]; by intros s tr.
Qed.

Lemma main_failure_skips_cleanup_witness :
  let r := Main.main Record.sample_options Record.no_browser in
  r.1 = Main.ExitStatus 1 ∧ Record.releases r.2.2 = [] ∧
  Cleanup.processes r.2.1 !! "xvfb" = Some Main.xvfb ∧
  Cleanup.processes r.2.1 !! "ffmpeg" = Some Main.ffmpeg.
Proof.
  intros r.
  destruct (main_failure_skips_cleanup Record.sample_options Record.no_browser r.2.1 r.2.2
              eq_refl) as (Hrel & _ & _ & Hx & Hf).
  split_and!; [reflexivity|exact Hrel| |].
  - apply Hx. vm_compute. apply list_elem_of_here.
  - apply Hf. vm_compute. do 2 apply list_elem_of_further. apply list_elem_of_here.
Defined.

(** X22. main of the single-URL record.js, when its try block comes to
    its end: the four release functions have been called once each in the
    order stopRecording (grace period 10000 ms), closeBrowser,
    stopDisplay, cleanupAudioRecording, and both processes have been
    untracked, so the cleanup pass of withCleanup that follows finds the
    registry empty and kills nothing; it runs the one registered handler,
    which calls cleanupAudioRecording a second time. *)
Theorem main_success_cleans_twice (opts : Record.Options) (o : Record.Oracle) :
  let r := Main.main opts o in
  r.1 = Main.Completed →
  (∃ pre, Record.releases pre = [] ∧
     r.2.2 = pre ++ [Record.Called (Record.StopRecording 10000)
                       (Record.release_ok o Record.Capture);
                     Record.Called Record.CloseBrowser (Record.release_ok o Record.TheBrowser);
                     Record.Called Record.StopDisplay (Record.release_ok o Record.TheDisplay);
                     Record.Called Record.CleanupAudioRecording
                       (Record.release_ok o Record.AudioSink);
                     Record.Called Record.CleanupAudioRecording
                       (Record.release_ok o Record.AudioSink)]) ∧
  Cleanup.log r.2.1
  = [Cleanup.EvStart; Cleanup.EvHandler Main.audio_handler; Cleanup.EvClear] ∧
  Cleanup.processes r.2.1 = ∅.
Proof.
  unfold Main.main.
  destruct (Duration.validate _ _); [|done].
  exec_main.
  destruct (Record.startDisplay o) as [e1|n]; cbn; [done|].
  destruct (Record.setupAudioRecording o) as [e2|]; cbn; [done|].
  destruct (Record.startRecording o) as [e3|]; cbn; [done|].
  destruct (Record.launchBrowser o) as [e4|]; cbn; [done|].
  destruct (Record.createPage o) as [e5|]; cbn; [done|].
  destruct (Record.navigateToUrl o) as [e6|]; cbn; [done|].
  destruct (Record.findVideoElement o) as [e7|]; cbn; [done|].
  destruct (Record.getVideoMetadata o) as [e8|d]; cbn; [done|].
  destruct (Browser.playVideo Browser.defaults (Record.playVideo o)).1 as [e9|[]]; cbn;
    [done|].
  destruct (Duration.actualDuration_main _ d _) as [e10|actual]; cbn; [done|].
  destruct (Js.loop_count _) as [k|]; cbn; [|done].
  destruct (Record.capture_stop o 10000) as [t|]; cbn; [|done].
  intros _.
  match goal with
  | |- context [Cleanup.cleanupAll_alone ?st] => set (final := st)
  end.
  assert (Cleanup.log (Cleanup.cleanupAll_alone final)
          = [Cleanup.EvStart; Cleanup.EvHandler Main.audio_handler; Cleanup.EvClear]) as Hlog
    by (vm_compute; reflexivity).
  assert (Cleanup.processes (Cleanup.cleanupAll_alone final) = ∅) as Hreg
    by (vm_compute; reflexivity).
  assert (Cleanup.log final = []) as Hlog0 by (vm_compute; reflexivity).
  split_and!; [|exact Hlog|exact Hreg].
  rewrite Hlog, Hlog0.
  cbn [length drop Main.handler_calls omap mbind option_bind list_omap].
  exists ([Record.Called Record.StartDisplay true;
           Record.Called Record.SetupAudioRecording true;
           Record.Called Record.StartRecording true; Record.Slept 2000;
           Record.Called Record.LaunchBrowser true; Record.Called Record.CreatePage true;
           Record.Called Record.NavigateToUrl true; Record.Called Record.FindVideoElement true]
          ++ Record.click_events o (Record.clickSelectors opts)
          ++ [Record.Called Record.GetVideoMetadata true]
          ++ Record.playback_events o ++ replicate k (Record.Slept 1000)).
  split; [|rewrite <- !app_assoc; reflexivity].
  unfold Record.releases. rewrite !omap_app.
  by rewrite (proj1 (releases_clicks _ _)), (proj1 (releases_playback _)),
    (proj1 (releases_sleeps _ _)).
Qed.

Lemma main_success_cleans_twice_witness :
  Cleanup.log (Main.main Record.sample_options Record.healthy).2.1
  = [Cleanup.EvStart; Cleanup.EvHandler Main.audio_handler; Cleanup.EvClear].
Proof.
  destruct (main_success_cleans_twice Record.sample_options Record.healthy) as (_ & H & _).
  - vm_compute. reflexivity.
  - exact H.
Defined.

(** ** The capture is started before playback *)

Ltac main_started :=
  right; eexists; split; [reflexivity|]; intros Hdone; discriminate Hdone.

(** The trace of main either has no playback event, and then main did not
    complete, or starts with the display, the sink, the completed start
    of the capture and the settle delay; when main completes, [play()] is
    among the events after them. *)
Lemma main_trace_shape (opts : Record.Options) (o : Record.Oracle) :
  let r := Main.main opts o in
  (Forall (λ e, Record.is_playback e = false) r.2.2 ∧ r.1 ≠ Main.Completed) ∨
  (∃ rest,
     r.2.2 = [Record.Called Record.StartDisplay true;
              Record.Called Record.SetupAudioRecording true]
             ++ Record.Called Record.StartRecording true :: Record.Slept 2000 :: rest ∧
     (r.1 = Main.Completed → Record.Playback Browser.Play ∈ rest)).
Proof.
  unfold Main.main.
  destruct (Duration.validate _ _); [|left; split; [constructor|done]].
  exec_main.
  destruct (Record.startDisplay o) as [e1|n]; cbn; [left; split; [no_playback|done]|].
  destruct (Record.setupAudioRecording o) as [e2|]; cbn; [left; split; [no_playback|done]|].
  destruct (Record.startRecording o) as [e3|]; cbn; [left; split; [no_playback|done]|].
  destruct (Record.launchBrowser o) as [e4|]; cbn; [main_started|].
  destruct (Record.createPage o) as [e5|]; cbn; [main_started|].
  destruct (Record.navigateToUrl o) as [e6|]; cbn; [main_started|].
  destruct (Record.findVideoElement o) as [e7|]; cbn; [main_started|].
  destruct (Record.getVideoMetadata o) as [e8|d]; cbn; [main_started|].
  destruct (Browser.playVideo Browser.defaults (Record.playVideo o)).1 as [e9|[]] eqn:Hplay;
    cbn; [main_started|].
  destruct (Duration.actualDuration_main _ d _) as [e10|actual]; cbn; [main_started|].
  destruct (Js.loop_count _) as [k|]; cbn; [|main_started].
  destruct (Record.capture_stop o 10000) as [t|]; cbn; [|main_started].
  right. eexists. split; [reflexivity|]. intros _.
  apply playVideo_loop_ok_plays in Hplay.
  assert (Record.Playback Browser.Play ∈ Record.playback_events o) as Hin
    by (unfold Record.playback_events; by apply list_elem_of_fmap_2).
  do 4 apply list_elem_of_further. rewrite !elem_of_app. tauto.
Qed.

(** C7. In every execution of a job, each event of playVideo (click on
    the media element, [play()], verification) comes after the completed
    start of the capture and the settle delay of 1000 ms that follows it;
    in every successful execution the capture was indeed started and
    [play()] indeed invoked, hence in this order.  The same holds of main
    of the single-URL record.js, with a settle delay of 2000 ms: each
    event of playVideo comes after the completed start of the capture
    and the delay, and in every run of main that completes the capture
    was started and [play()] invoked. *)
Theorem capture_before_playback (opts : Record.Options) (o : Record.Oracle) :
  let r := Record.recordUrl opts o in
  let m := Main.main opts o in
  Record.capture_first 1000 r.2 ∧
  (∀ res, r.1 = Record.Returns res → Record.success res = true →
     Record.Called Record.StartRecording true ∈ r.2 ∧
     Record.Playback Browser.Play ∈ r.2) ∧
  Record.capture_first 2000 m.2.2 ∧
  (m.1 = Main.Completed →
     Record.Called Record.StartRecording true ∈ m.2.2 ∧
     Record.Playback Browser.Play ∈ m.2.2).
Proof.
  intros r m. split_and!.
  - destruct (recordUrl_trace_shape opts o) as [[Hnone _]|[[rest Hshape] _]].
    + by apply capture_first_vacuous.
    + fold r in Hshape. rewrite Hshape.
      apply capture_first_shape, before_capture_no_playback.
  - intros res Hres Hok.
    destruct (recordUrl_trace_shape opts o) as [[_ Hfail]|[[rest Hshape] Hplay]].
    + fold r in Hfail. rewrite (Hfail res Hres) in Hok. discriminate Hok.
    + fold r in Hshape, Hplay. rewrite Hshape.
      specialize (Hplay res Hres Hok).
      apply playVideo_loop_ok_plays in Hplay. split.
      * apply elem_of_app. right. apply list_elem_of_here.
      * apply elem_of_app. right. do 2 apply list_elem_of_further.
        apply elem_of_app. left. unfold Record.playback_events.
        by apply list_elem_of_fmap_2.
  - destruct (main_trace_shape opts o) as [[Hnone _]|(rest & Hshape & _)].
    + by apply capture_first_vacuous.
    + fold m in Hshape. rewrite Hshape. apply capture_first_shape. no_playback.
  - intros Hdone.
    destruct (main_trace_shape opts o) as [[_ Hnot]|(rest & Hshape & Hplay)].
    + by destruct Hnot.
    + fold m in Hshape, Hplay. rewrite Hshape. split.
      * apply elem_of_app. right. apply list_elem_of_here.
      * apply elem_of_app. right. do 2 apply list_elem_of_further. by apply Hplay.
Qed.

Lemma capture_before_playback_witness :
  let r := Record.recordUrl Record.sample_options Record.healthy in
  let m := Main.main Record.sample_options Record.healthy in
  Record.capture_first 1000 r.2 ∧
  Record.Called Record.StartRecording true ∈ r.2 ∧ Record.Playback Browser.Play ∈ r.2 ∧
  Record.capture_first 2000 m.2.2 ∧
  Record.Called Record.StartRecording true ∈ m.2.2 ∧ Record.Playback Browser.Play ∈ m.2.2.
Proof.
  intros r m.
  destruct (capture_before_playback Record.sample_options Record.healthy)
    as (Hfirst & Hplay & Hmain & Hmplay).
  destruct (Hplay (Record.mkResult true "out.mp4" None) eq_refl eq_refl) as [Hstart Hp].
  destruct Hmplay as [Hmstart Hmp]; [vm_compute; reflexivity|].
  split_and!; assumption.
Defined.

(** ** The guard of the cleanup pass *)

Lemma cleanupAll_step_keeps_flag (pc : Cleanup.Pc) (s : Cleanup.Sys) :
  Cleanup.isCleaningUp s = true → Cleanup.isCleaningUp (Cleanup.cleanupAll_step pc s).2 = true.
Proof.
  intros Hflag. destruct pc as [|i| | |b]; cbn; rewrite ?Hflag; try done.
  by destruct (Cleanup.cleanupHandlers s !! i).
Qed.

Lemma run_keeps_flag (schedule : list nat) (c : Cleanup.Config) :
  Cleanup.isCleaningUp (Cleanup.sys c) = true →
  Cleanup.isCleaningUp (Cleanup.sys (Cleanup.run c schedule)) = true.
Proof.
  revert c. induction schedule as [|i schedule IH]; intros c Hflag; [done|].
  rewrite run_cons. apply IH. unfold Cleanup.sched_step.
  destruct (Cleanup.tasks c !! i) as [pc|]; [|done].
  pose proof (cleanupAll_step_keeps_flag pc (Cleanup.sys c) Hflag) as Hstep.
  by destruct (Cleanup.cleanupAll_step pc (Cleanup.sys c)).
Qed.

(** X24. The guard [isCleaningUp] is never cleared: no operation of the
    manager and no step of any cleanupAll invocation resets it once it is
    set.  So after a cleanup pass has started, a process that is tracked
    later is not covered by any further [cleanupAll]: the call is
    skipped, the process stays in the registry and gets no signal. *)
Theorem guard_is_never_reset (s : Cleanup.Sys) :
  Cleanup.isCleaningUp s = true →
  (∀ name h, Cleanup.isCleaningUp (Cleanup.trackProcess name h s) = true) ∧
  (∀ name, Cleanup.isCleaningUp (Cleanup.untrackProcess name s) = true) ∧
  (∀ h, Cleanup.isCleaningUp (Cleanup.registerCleanupHandler h s) = true) ∧
  (∀ tasks schedule,
     Cleanup.isCleaningUp (Cleanup.sys (Cleanup.run (Cleanup.mkConfig s tasks) schedule))
     = true) ∧
  (∀ name a p, Cleanup.heap s !! a = Some p → Cleanup.has_pid p = true →
     let s' := Cleanup.cleanupAll_alone (Cleanup.trackProcess name (Some a) s) in
     Cleanup.processes s' !! name = Some a ∧ Cleanup.heap s' !! a = Some p).
Proof.
  intros Hflag. split_and!.
  - intros name [a|]; [|done]. unfold Cleanup.trackProcess.
    destruct (Cleanup.heap s !! a) as [p|]; [|done]. by destruct (Cleanup.has_pid p).
  - intros name. unfold Cleanup.untrackProcess. by destruct (Cleanup.processes s !! name).
  - done.
  - intros tasks schedule. by apply run_keeps_flag.
  - intros name a p Ha Hpid s'. subst s'. rewrite cleanupAll_alone_spec.
    unfold Cleanup.trackProcess. rewrite Ha, Hpid. cbn. rewrite Hflag. cbn.
    split; [apply lookup_insert_eq|done].
Qed.

Lemma guard_is_never_reset_witness :
  let s := Cleanup.mkSys {[ 0 := Cleanup.running 4242 ]} ∅ [] true [] in
  Cleanup.processes (Cleanup.cleanupAll_alone (Cleanup.trackProcess "ffmpeg" (Some 0) s))
    !! "ffmpeg" = Some 0.
Proof.
  intros s.
  destruct (guard_is_never_reset s eq_refl) as (_ & _ & _ & _ & H).
  destruct (H "ffmpeg" 0 (Cleanup.running 4242) eq_refl eq_refl) as (H' & _).
  exact H'.
Defined.


(** ** Waiting for Xvfb and ffmpeg to come up *)

Lemma settle_not_pending {A E : Type} (p new : Startup.Promise A E) :
  new ≠ Startup.Pending → Startup.settle p new ≠ Startup.Pending.
Proof. by destruct p. Qed.

Lemma xvfb_idle_stays_pending (n : Z) (evs : list Startup.XvfbEvent) (st : Startup.Xvfb) :
  (∀ c, Startup.XvfbExit c ∉ evs) →
  Startup.xvfb_interval st = false → Startup.xvfb_timeout st = false →
  Startup.inflight st = 0 →
  Startup.xvfb_run n st evs = st.
Proof.
  intros Hno Hi Ht Hf. induction evs as [|ev evs IH]; [done|].
  unfold Startup.xvfb_run in *. cbn [foldl].
  assert (Startup.xvfb_step n st ev = st) as ->.
  { destruct ev as [|ready|code|]; cbn; rewrite ?Hi, ?Ht, ?Hf; try done.
    exfalso. apply (Hno code), list_elem_of_here. }
  apply IH. intros c Hc. by apply (Hno c), list_elem_of_further.
Qed.

(** X26. The promise at the end of startDisplay, when Xvfb exits with
    code 0 or through a signal while the promise is pending and no poll
    is awaiting its answer: the exit listener clears the poll and the
    timeout and neither resolves nor rejects, so whatever timer fires
    afterwards the promise is never settled and startDisplay does not
    return.  (An exit with another code rejects it.)  And a poll that is
    answered positively sets process.env.DISPLAY even when the promise
    has been rejected before. *)
Theorem startDisplay_pending_after_clean_exit (n : Z) (st : Startup.Xvfb)
    (code : option nat) (evs : list Startup.XvfbEvent) :
  Startup.xvfb_promise st = Startup.Pending →
  (Startup.inflight st = 0 → Startup.failure_code code = false →
   (∀ c, Startup.XvfbExit c ∉ evs) →
   Startup.xvfb_promise (Startup.xvfb_run n (Startup.xvfb_step n st (Startup.XvfbExit code)) evs)
   = Startup.Pending) ∧
  (Startup.failure_code code = true →
   Startup.xvfb_promise (Startup.xvfb_step n st (Startup.XvfbExit code))
   = Startup.Rejected (Startup.XvfbExited (default 0 code))) ∧
  (∀ st' e, Startup.xvfb_promise st' = Startup.Rejected e → Startup.inflight st' ≠ 0 →
     Startup.xvfb_promise (Startup.xvfb_step n st' (Startup.XvfbAnswer true))
     = Startup.Rejected e ∧
     Startup.env_DISPLAY (Startup.xvfb_step n st' (Startup.XvfbAnswer true)) = Some n).
Proof.
  intros Hp. split_and!.
  - intros Hf Hcode Hno. rewrite xvfb_idle_stays_pending; cbn; by rewrite ?Hcode.
  - intros Hcode. cbn. by rewrite Hcode, Hp.
  - intros st' e He Hf. cbn. destruct (Startup.inflight st'); [done|]. cbn. by rewrite He.
Qed.

Lemma startDisplay_pending_after_clean_exit_witness :
  Startup.xvfb_promise
    (Startup.xvfb_run 99 Startup.xvfb_start
       [Startup.XvfbTick; Startup.XvfbAnswer false; Startup.XvfbExit None;
        Startup.XvfbTick; Startup.XvfbTimesOut])
  = Startup.Pending.
Proof.
  destruct (startDisplay_pending_after_clean_exit 99
              (Startup.xvfb_run 99 Startup.xvfb_start [Startup.XvfbTick; Startup.XvfbAnswer false])
              None [Startup.XvfbTick; Startup.XvfbTimesOut] eq_refl) as (H & _).
  apply H; try reflexivity.
  intros c Hin. repeat (apply elem_of_cons in Hin as [Hin|Hin]; [discriminate Hin|]).
  by apply elem_of_nil in Hin.
Defined.

Lemma ffmpeg_without_progress (evs : list Startup.FfmpegEvent) (st : Startup.Ffmpeg) :
  Startup.started st = false → Startup.Progress ∉ evs →
  Startup.started (Startup.ffmpeg_run st evs) = false ∧
  Startup.ffmpeg_interval (Startup.ffmpeg_run st evs) = Startup.ffmpeg_interval st ∧
  (Startup.ffmpeg_promise st = Startup.Pending → Startup.ffmpeg_timeout st = false →
   Startup.ffmpeg_promise (Startup.ffmpeg_run st evs) = Startup.Pending ∨
   ∃ c, Startup.FfmpegExit c ∈ evs ∧ Startup.failure_code c = true).
Proof.
  revert st. induction evs as [|ev evs IH]; intros st Hs Hno.
  - split_and!; [done..|]. by left.
  - assert (ev ≠ Startup.Progress) as Hev by (intros ->; apply Hno, list_elem_of_here).
    assert (Startup.Progress ∉ evs) as Hno'
      by (intros ?; by apply Hno, list_elem_of_further).
    unfold Startup.ffmpeg_run in *. cbn [foldl].
    destruct ev as [| |code|]; [done| | |].
    + cbn. rewrite Hs, andb_false_r. destruct (IH st Hs Hno') as (H1 & H2 & H3).
      split_and!; [done..|]. intros Hp Ht. destruct (H3 Hp Ht) as [?|(c & ? & ?)]; [by left|].
      right. exists c. split; [by apply list_elem_of_further|done].
    + set (st' := Startup.ffmpeg_step st (Startup.FfmpegExit code)).
      destruct (IH st' Hs Hno') as (H1 & H2 & H3).
      split_and!; [done..|]. intros Hp Ht.
      destruct (Startup.failure_code code) eqn:Hcode.
      * right. exists code. split; [apply list_elem_of_here|done].
      * assert (Startup.ffmpeg_promise st' = Startup.Pending) as Hp'
          by (subst st'; cbn; by rewrite Hcode).
        destruct (H3 Hp' eq_refl) as [?|(c & ? & ?)]; [by left|].
        right. exists c. split; [by apply list_elem_of_further|done].
    + destruct (Startup.ffmpeg_timeout st) eqn:Ht.
      * set (st' := Startup.ffmpeg_step st Startup.FfmpegTimesOut).
        assert (Startup.started st' = false ∧
                Startup.ffmpeg_interval st' = Startup.ffmpeg_interval st) as [Hs' Hi'].
        { subst st'. cbn. by rewrite Ht, Hs. }
        destruct (IH st' Hs' Hno') as (H1 & H2 & H3).
        split_and!; [done|by rewrite H2|]. by intros _ ?.
      * assert (Startup.ffmpeg_step st Startup.FfmpegTimesOut = st) as ->
          by (cbn; by rewrite Ht).
        destruct (IH st Hs Hno') as (H1 & H2 & H3).
        split_and!; [done..|]. intros Hp _. destruct (H3 Hp Ht) as [?|(c & ? & ?)]; [by left|].
        right. exists c. split; [by apply list_elem_of_further|done].
Qed.

Lemma ffmpeg_timeout_or_settled (evs : list Startup.FfmpegEvent) (st : Startup.Ffmpeg) :
  (∀ c, Startup.FfmpegExit c ∉ evs) →
  Startup.ffmpeg_timeout st = true ∨ Startup.ffmpeg_promise st ≠ Startup.Pending →
  Startup.ffmpeg_timeout (Startup.ffmpeg_run st evs) = true ∨
  Startup.ffmpeg_promise (Startup.ffmpeg_run st evs) ≠ Startup.Pending.
Proof.
  revert st. induction evs as [|ev evs IH]; intros st Hno Hinv; [done|].
  unfold Startup.ffmpeg_run in *. cbn [foldl]. apply IH.
  { intros c Hc. by apply (Hno c), list_elem_of_further. }
  destruct ev as [| |code|]; cbn.
  - done.
  - destruct (Startup.ffmpeg_interval st && Startup.started st); [|done].
    right. by apply settle_not_pending.
  - exfalso. apply (Hno code), list_elem_of_here.
  - destruct (Startup.ffmpeg_timeout st) eqn:Ht.
    + destruct (Startup.started st); cbn; right; by apply settle_not_pending.
    + destruct Hinv as [?|?]; [done|by right].
Qed.

(** X27. The promise startRecording awaits before it returns.  When
    ffmpeg is still running 5000 ms after its start, the promise is
    settled by then.  When ffmpeg exits with code 0 or through a signal
    before it has printed a progress line, the exit listener clears the
    timeout and neither resolves nor rejects: unless a progress line or
    an exit with an error code still arrives, the promise is never
    settled and startRecording does not return.  The poll for progress
    is cleared only by a tick that sees progress: after a start that
    failed without progress it keeps firing. *)
Theorem startRecording_startup_promise (st : Startup.Ffmpeg) (code : option nat)
    (evs : list Startup.FfmpegEvent) :
  ((∀ c, Startup.FfmpegExit c ∉ evs) →
   Startup.ffmpeg_promise
     (Startup.ffmpeg_run Startup.ffmpeg_start (evs ++ [Startup.FfmpegTimesOut]))
   ≠ Startup.Pending) ∧
  (Startup.ffmpeg_promise st = Startup.Pending → Startup.started st = false →
   Startup.failure_code code = false →
   Startup.Progress ∉ evs → (∀ c, Startup.FfmpegExit c ∈ evs → Startup.failure_code c = false) →
   Startup.ffmpeg_promise
     (Startup.ffmpeg_run (Startup.ffmpeg_step st (Startup.FfmpegExit code)) evs)
   = Startup.Pending) ∧
  (Startup.started st = false → Startup.Progress ∉ evs →
   Startup.ffmpeg_interval (Startup.ffmpeg_run st evs) = Startup.ffmpeg_interval st).
Proof.
  split_and!.
  - intros Hno. unfold Startup.ffmpeg_run. rewrite foldl_app. cbn [foldl].
    pose proof (ffmpeg_timeout_or_settled evs Startup.ffmpeg_start Hno (or_introl eq_refl))
      as Hinv.
    unfold Startup.ffmpeg_run in Hinv.
    set (st1 := foldl Startup.ffmpeg_step Startup.ffmpeg_start evs) in *.
    unfold Startup.ffmpeg_step.
    destruct (Startup.ffmpeg_timeout st1) eqn:Ht.
    + destruct (Startup.started st1); cbn; by apply settle_not_pending.
    + by destruct Hinv.
  - intros Hp Hs Hcode Hno Hexits.
    destruct (ffmpeg_without_progress evs (Startup.ffmpeg_step st (Startup.FfmpegExit code)))
      as (_ & _ & H); [done..|].
    destruct H as [?|(c & Hc & Hbad)]; [cbn; by rewrite Hcode|done|done|].
    rewrite (Hexits c Hc) in Hbad. discriminate Hbad.
  - intros Hs Hno. by destruct (ffmpeg_without_progress evs st Hs Hno) as (_ & ? & _).
Qed.

Lemma startRecording_startup_promise_witness :
  Startup.ffmpeg_promise
    (Startup.ffmpeg_run Startup.ffmpeg_start
       [Startup.FfmpegTick; Startup.FfmpegExit None; Startup.FfmpegTick;
        Startup.FfmpegTimesOut; Startup.FfmpegTick])
  = Startup.Pending.
Proof.
  destruct (startRecording_startup_promise
              (Startup.ffmpeg_run Startup.ffmpeg_start [Startup.FfmpegTick]) None
              [Startup.FfmpegTick; Startup.FfmpegTimesOut; Startup.FfmpegTick])
    as (_ & H & _).
  apply H; try reflexivity.
  - intros Hin. repeat (apply elem_of_cons in Hin as [Hin|Hin]; [discriminate Hin|]).
    by apply elem_of_nil in Hin.
  - intros c Hin. repeat (apply elem_of_cons in Hin as [Hin|Hin]; [discriminate Hin|]).
    by apply elem_of_nil in Hin.
Defined.

(** X28. main of the single-URL record.js on a page whose video reports
    a duration of Infinity (a live stream), with auto-detection on and a
    finite buffer: main never completes, whatever --duration says.
    Either a step fails and the process exits with status 1, or every
    step succeeds and the wait loop never ends, with Xvfb and ffmpeg
    still tracked and no release function called. *)
Theorem main_never_completes_on_infinite_duration (opts : Record.Options)
    (o : Record.Oracle) (b : Q) :
  Record.autoDetectDuration opts = true →
  Record.getVideoMetadata o = inr Js.PosInf →
  Record.bufferTime opts = Js.Fin b →
  let r := Main.main opts o in
  (r.1 = Main.ExitStatus 1 ∨ r.1 = Main.NeverEnds) ∧
  (r.1 = Main.NeverEnds →
   Record.releases r.2.2 = [] ∧
   Cleanup.processes r.2.1 !! "xvfb" = Some Main.xvfb ∧
   Cleanup.processes r.2.1 !! "ffmpeg" = Some Main.ffmpeg).
Proof.
  intros Hauto Hmeta Hbuffer. unfold Main.main.
  destruct (Duration.validate _ _); [|by split; [left|]].
  exec_main.
  destruct (Record.startDisplay o) as [e1|n]; cbn; [by split; [left|]|].
  destruct (Record.setupAudioRecording o) as [e2|]; cbn; [by split; [left|]|].
  destruct (Record.startRecording o) as [e3|]; cbn; [by split; [left|]|].
  destruct (Record.launchBrowser o) as [e4|]; cbn; [by split; [left|]|].
  destruct (Record.createPage o) as [e5|]; cbn; [by split; [left|]|].
  destruct (Record.navigateToUrl o) as [e6|]; cbn; [by split; [left|]|].
  destruct (Record.findVideoElement o) as [e7|]; cbn; [by split; [left|]|].
  rewrite Hmeta. cbn.
  destruct (Browser.playVideo Browser.defaults (Record.playVideo o)).1 as [e9|[]]; cbn;
    [by split; [left|]|].
  rewrite Hauto, Hbuffer.
  destruct (Duration.actualDuration_main true Js.PosInf (Record.duration opts))
    as [e10|actual] eqn:Hact; [discriminate Hact|].
  injection Hact as <-. cbn.
  destruct (Js.loop_count _) as [k|] eqn:Hloop; [discriminate Hloop|]. cbn.
  split; [by right|]. intros _. split_and!.
  - unfold Record.releases. rewrite !omap_app.
    by rewrite (proj1 (releases_clicks _ _)), (proj1 (releases_playback _)).
  - vm_compute. reflexivity.
  - vm_compute. reflexivity.
Qed.

Lemma main_never_completes_on_infinite_duration_witness :
  let o := Record.mkOracle (inr 99%Z) None None None None true None (λ _, true)
             (inr Js.PosInf) None (λ _, Browser.good) true None (λ _, true)
             (Cleanup.running 4242) Record.obedient (λ _, "") in
  let opts := Record.mkOptions "https://example.com/live" "out.mp4" 0 false 99
                "recording_sink" (Some (Js.Fin 30)) (Js.Fin 2) [] true in
  (Main.main opts o).1 = Main.NeverEnds.
Proof.
  intros o opts.
  destruct (main_never_completes_on_infinite_duration opts o 2 eq_refl eq_refl eq_refl)
    as ([H|H] & _).
  - vm_compute in H. discriminate H.
  - exact H.
Defined.
